(** * The option parser of libfuse ([lib/fuse_opt.c]), embedded in Rocq

    The development follows the C file from top to bottom: the helpers on
    [struct fuse_args], the option-list accumulator, template matching and
    spec lookup, and finally [fuse_opt_parse] with its per-token
    dispatcher.  C functions that return an [int] and update the parse
    context through a pointer become functions from a context to an
    [outcome] holding the returned integer and the updated context.

    Conventions of the embedding:
    - a C string is a [string] and its terminating NUL is the end of the
      [string]: [CStr.at_end s i] is the test [s[i] == 0], and
      [CStr.char_at] reads a byte that is none of those the code compares
      with when the index is the end;
    - where the C file spells an identifier in two ways (a parameter or
      field and its uses), the declared one is meant;
    - [malloc], [realloc] and [strdup] succeed;
    - a failed [assert] is the outcome [Abort];
    - the two loops whose trip count is not structural take a fuel
      argument; the callers pass a bound that is always sufficient
      (lemmas [gopt_loop_fuel] and [parse_loop_fuel]). *)

From Stdlib Require Import ZArith List Bool Ascii String Lia Arith.
Import ListNotations.

Local Open Scope string_scope.
Local Open Scope list_scope.
Local Open Scope Z_scope.

Set Implicit Arguments.

(** ** Outcomes *)

Inductive outcome (A : Type) : Type :=
| Done (a : A)
| Abort
| OutOfFuel.

Arguments Done {A} a.
Arguments Abort {A}.
Arguments OutOfFuel {A}.

Definition obind {A B : Type} (m : outcome A) (k : A -> outcome B) : outcome B :=
  match m with
  | Done a => k a
  | Abort => Abort
  | OutOfFuel => OutOfFuel
  end.

Notation "'let*' x ':=' m 'in' k" := (obind m (fun x => k))
  (at level 10, x pattern, m at level 100, k at level 200).

(** ** C strings *)

Module CStr.

Definition NUL : ascii := Ascii.zero.

(** [s[i]], the terminating NUL included. *)
Fixpoint char_at (s : string) (i : nat) : ascii :=
  match s, i with
  | EmptyString, _ => NUL
  | String c _, O => c
  | String _ s', S i' => char_at s' i'
  end.

(** [s[i] == 0]: index [i] is where the string ends. *)
Definition at_end (s : string) (i : nat) : bool := (String.length s <=? i)%nat.

(** [s + n] for [n <= strlen(s)]. *)
Fixpoint drop (n : nat) (s : string) : string :=
  match n, s with
  | O, _ => s
  | S n', String _ s' => drop n' s'
  | S _, EmptyString => EmptyString
  end.

(** The first [n] bytes of [s], as [memcpy(dst, s, n)] copies them. *)
Fixpoint take (n : nat) (s : string) : string :=
  match n, s with
  | O, _ => EmptyString
  | S n', String c s' => String c (take n' s')
  | S _, EmptyString => EmptyString
  end.

(** [strchr(s, c)] as an index. *)
Fixpoint strchr (s : string) (c : ascii) : option nat :=
  match s with
  | EmptyString => None
  | String a s' =>
      if Ascii.eqb a c then Some O
      else match strchr s' c with
           | Some i => Some (S i)
           | None => None
           end
  end.

(** [strncmp(a, b, n) == 0]. *)
Fixpoint strncmp_eq (a b : string) (n : nat) : bool :=
  match n with
  | O => true
  | S n' =>
      match a, b with
      | EmptyString, EmptyString => true
      | String x a', String y b' => Ascii.eqb x y && strncmp_eq a' b' n'
      | _, _ => false
      end
  end.

(** What a reader of a buffer sees: the bytes before the first NUL. *)
Fixpoint until_nul (s : string) : string :=
  match s with
  | EmptyString => EmptyString
  | String c s' => if Ascii.eqb c NUL then EmptyString else String c (until_nul s')
  end.

Definition snoc (s : string) (c : ascii) : string := (s ++ String c EmptyString)%string.

End CStr.

(** ** [struct fuse_args] *)

(** [argc] is not stored: it is the number of entries of [argv] before the
    NULL that terminates it. *)
Record fuse_args : Type := mk_args {
  argv : option (list string);
  allocated : bool
}.

Definition args_list (a : fuse_args) : list string :=
  match argv a with Some l => l | None => [] end.

Definition argc (a : fuse_args) : nat := List.length (args_list a).

(** A zero-initialised [struct fuse_args]. *)
Definition args_zero : fuse_args := mk_args None false.

Definition fuse_opt_free_args (args : option fuse_args) : option fuse_args :=
  match args with
  | Some _ => Some args_zero
  | None => None
  end.

Definition fuse_opt_add_arg (args : fuse_args) (arg : string) : outcome (Z * fuse_args) :=
  match argv args, allocated args with
  | Some _, false => Abort
  | _, _ => Done (0, mk_args (Some (args_list args ++ [arg])) true)
  end.

Definition fuse_opt_insert_arg_common (args : fuse_args) (pos : nat) (arg : string)
  : outcome (Z * fuse_args) :=
  if (argc args <? pos)%nat then Abort
  else
    let* (r, args1) := fuse_opt_add_arg args arg in
    if r =? -1 then Done (-1, args1)
    else if negb (pos =? argc args1 - 1)%nat then
      Done (0, mk_args (Some (firstn pos (args_list args) ++ arg :: skipn pos (args_list args)))
                       (allocated args1))
    else Done (0, args1).

Definition fuse_opt_insert_arg := fuse_opt_insert_arg_common.

(** The symbol kept for the old version script; the same function. *)
Definition fuse_opt_insert_arg_compat := fuse_opt_insert_arg_common.

(** A caller that adds the strings of [l] one after the other, as long as
    [fuse_opt_add_arg] does not return -1. *)
Fixpoint add_args (args : fuse_args) (l : list string) : outcome (Z * fuse_args) :=
  match l with
  | [] => Done (0, args)
  | arg :: l' =>
      let* (r, args) := fuse_opt_add_arg args arg in
      if r =? -1 then Done (-1, args) else add_args args l'
  end.

(** ** The comma-separated option list *)

Fixpoint escape_into (esc : bool) (opt : string) : string :=
  match opt with
  | EmptyString => EmptyString
  | String c opt' =>
      if esc && (Ascii.eqb c "," || Ascii.eqb c "\")%char
      then String "\" (String c (escape_into esc opt'))
      else String c (escape_into esc opt')
  end.

(** [*opts] is [None] for a NULL pointer.  The function returns 0; the
    value below is the new [*opts]. *)
Definition add_opt_common (opts : option string) (opt : string) (esc : bool) : option string :=
  let old := match opts with Some s => s | None => EmptyString end in
  let oldlen := String.length old in
  Some (old ++ (if (oldlen =? 0)%nat then EmptyString else ",") ++ escape_into esc opt)%string.

Arguments add_opt_common : simpl never.

(** The number of bytes that [add_opt_common] asks [realloc] for. *)
Definition add_opt_alloc (opts : option string) (opt : string) : nat :=
  let oldlen := match opts with Some s => String.length s | None => O end in
  (oldlen + 1 + String.length opt * 2 + 1)%nat.

Definition fuse_opt_add_opt (opts : option string) (opt : string) := add_opt_common opts opt false.
Definition fuse_opt_add_opt_escaped (opts : option string) (opt : string) := add_opt_common opts opt true.

(** ** Finding the [struct fuse_opt] that matches a string *)

(** [-1U], the [offset] of an entry without a destination. *)
Definition minus_1U : Z := 4294967295.

Record fuse_opt : Type := mk_opt {
  templ : option string;   (* NULL in the terminating FUSE_OPT_END *)
  offset : Z;
  value : Z
}.

Definition templ_str (o : fuse_opt) : string :=
  match templ o with Some t => t | None => EmptyString end.

(** Returns the separator index when template and argument match. *)
Definition match_template (t arg : string) : option nat :=
  let arglen := String.length arg in
  let sep := match CStr.strchr t "=" with
             | Some i => Some i
             | None => CStr.strchr t " "
             end in
  let sep := match sep with
             | Some i =>
                 if negb (CStr.at_end t (i + 1))
                    && negb (Ascii.eqb (CStr.char_at t (i + 1)) "%")
                 then None else Some i
             | None => None
             end in
  let by_stem :=
    match sep with
    | Some i =>
        let stemlen := if Ascii.eqb (CStr.char_at t i) "=" then S i else i in
        if (stemlen <=? arglen)%nat && CStr.strncmp_eq arg t stemlen then Some i else None
    | None => None
    end in
  match by_stem with
  | Some i => Some i
  | None => if String.eqb t arg then Some O else None
  end.

(** A pointer into the spec array is the part of the array that starts at
    the entry pointed to; [opt + 1] is its tail.  The scan stops at the
    first entry without a template. *)
Fixpoint find_opt (optspecs : list fuse_opt) (arg : string) : option (list fuse_opt * nat) :=
  match optspecs with
  | [] => None
  | o :: rest =>
      match templ o with
      | None => None
      | Some t =>
          match match_template t arg with
          | Some sep => Some (optspecs, sep)
          | None => find_opt rest arg
          end
      end
  end.

(** [fuse_opt_match] hands to [find_opt] the address of its [unsigned dummy]
    where [find_opt] takes a [size_t *], and [match_template] stores
    through that pointer on every match and never otherwise.  A store of
    a [size_t] into an [unsigned] has no meaning in C, so the call in
    which an entry matches has no result, [None] here, instead of the 1
    of its last line; the call in which no entry matches stores nothing
    and returns 0. *)
Definition fuse_opt_match (optspecs : list fuse_opt) (arg : string) : option Z :=
  match find_opt optspecs arg with
  | Some _ => None
  | None => Some 0
  end.

(** ** What [fuse_opt.c] takes from its headers *)

(** The reserved keys of [fuse_opt.h].  The header is not part of the
    sources at hand; the parser only relies on the four keys being
    different from one another. *)
Class fuse_opt_h : Type := {
  FUSE_OPT_KEY_OPT : Z;
  FUSE_OPT_KEY_NONOPT : Z;
  FUSE_OPT_KEY_KEEP : Z;
  FUSE_OPT_KEY_DISCARD : Z;
  reserved_keys_distinct :
    NoDup [FUSE_OPT_KEY_OPT; FUSE_OPT_KEY_NONOPT; FUSE_OPT_KEY_KEEP; FUSE_OPT_KEY_DISCARD]
}.

(** [sscanf(param, format, var)] with a single conversion: [Some v] when it
    returns 1 and has stored [v], [None] otherwise. *)
Class libc : Type := {
  scanned : Type;
  sscanf : string -> string -> option scanned
}.

(** The values that libfuse gives the reserved keys, and a [sscanf] that
    reads an unsigned decimal number whatever the conversion: the instances
    at which the worked examples below are evaluated. *)
Definition libfuse_keys : fuse_opt_h :=
  {| FUSE_OPT_KEY_OPT := -1;
     FUSE_OPT_KEY_NONOPT := -2;
     FUSE_OPT_KEY_KEEP := -3;
     FUSE_OPT_KEY_DISCARD := -4;
     reserved_keys_distinct :=
       ltac:(repeat constructor; simpl; intuition discriminate) |}.

Fixpoint scan_decimal (s : string) (acc : option Z) : option Z :=
  match s with
  | EmptyString => acc
  | String c s' =>
      if ((48 <=? nat_of_ascii c) && (nat_of_ascii c <=? 57))%nat
      then scan_decimal s' (Some (10 * match acc with Some n => n | None => 0 end
                                  + Z.of_nat (nat_of_ascii c - 48)))
      else acc
  end.

Definition decimal_libc : libc :=
  {| scanned := Z; sscanf := fun param _ => scan_decimal param None |}.

(** The type of a "gopt" ("generalized option"). *)
Inductive fuse_gopt_type : Type :=
| GOPT_FLAG     (* --flag *)
| GOPT_OPTION.  (* an "option" in "-o option[,option]" *)

Create HintDb ctx.

Ltac break_goal :=
  match goal with
  | |- context [match ?x with _ => _ end] => destruct x eqn:?
  end.

Ltac break_hyp H :=
  match type of H with
  | context [match ?x with _ => _ end] => destruct x eqn:?
  end.

Ltac inv H := inversion H; subst; clear H.

(** Induction on the length of a string, for the loops that read several
    bytes in one step. *)
Lemma string_strong_ind (P : string -> Prop) :
  (forall s, (forall s', (String.length s' < String.length s)%nat -> P s') -> P s) ->
  forall s, P s.
Proof.
  intros H s. induction s as [s IH] using (induction_ltof1 _ String.length).
  apply H. exact IH.
Qed.

Lemma string_app_assoc (a b c : string) : ((a ++ b) ++ c = a ++ (b ++ c))%string.
Proof. induction a as [|x a IH]; simpl; [reflexivity|]. now rewrite IH. Qed.

Lemma string_app_nil_r (a : string) : (a ++ EmptyString)%string = a.
Proof. induction a as [|x a IH]; simpl; [reflexivity|]. now rewrite IH. Qed.

Lemma string_length_app (a b : string) :
  String.length (a ++ b) = (String.length a + String.length b)%nat.
Proof. induction a as [|x a IH]; simpl; [reflexivity|]. now rewrite IH. Qed.

Section Parser.

Context {keys : fuse_opt_h} {C : libc}.

(** *** The caller's record *)

(** What the parser stores at [data + offset]. *)
Inductive field : Type :=
| FInt (v : Z)           (* [*(int * ) var = opt->value] *)
| FStr (s : string)      (* a [strdup]ed parameter *)
| FScan (v : scanned).   (* what [sscanf] converted *)

(** The record as the list of the stores made into it, the latest first. *)
Definition data : Type := list (Z * field).

Definition store (d : data) (off : Z) (v : field) : data := (off, v) :: d.

Definition fuse_opt_proc_t : Type :=
  data -> string -> Z -> fuse_args -> Z * data * fuse_args.

(** *** The log *)

(** Ghost state: what the parser did, in program order.  The parser only
    ever appends to it. *)
Inductive event : Type :=
| EvProc (arg : string) (key : Z) (res : Z)   (* the callback was called and returned [res] *)
| EvStore (off : Z) (v : field)               (* a store into the record *)
| EvKeep (typ : fuse_gopt_type) (arg : string) (* [call_proc] kept [arg] *)
| EvSeparator.                                (* [process_one] put "--" into [out_args] *)

(** *** [struct fuse_opt_context] *)

Record fuse_opt_context : Type := mk_ctx {
  in_opt : list fuse_opt;
  in_proc : option fuse_opt_proc_t;   (* [None] for a NULL callback *)
  in_args : fuse_args;
  inout_data : data;
  out_args : fuse_args;
  tmp_argctr : nat;            (* iterator variable for in_args.argv *)
  tmp_opts : option string;    (* append ("-o", opts) to out_args if opts is set *)
  tmp_nonopt : nat;            (* index of first positional argument in out_args.argv *)
  log : list event
}.

Definition set_data (ctx : fuse_opt_context) (d : data) : fuse_opt_context :=
  mk_ctx (in_opt ctx) (in_proc ctx) (in_args ctx) d (out_args ctx)
         (tmp_argctr ctx) (tmp_opts ctx) (tmp_nonopt ctx) (log ctx).

Definition set_out_args (ctx : fuse_opt_context) (o : fuse_args) : fuse_opt_context :=
  mk_ctx (in_opt ctx) (in_proc ctx) (in_args ctx) (inout_data ctx) o
         (tmp_argctr ctx) (tmp_opts ctx) (tmp_nonopt ctx) (log ctx).

Definition set_argctr (ctx : fuse_opt_context) (n : nat) : fuse_opt_context :=
  mk_ctx (in_opt ctx) (in_proc ctx) (in_args ctx) (inout_data ctx) (out_args ctx)
         n (tmp_opts ctx) (tmp_nonopt ctx) (log ctx).

Definition set_opts (ctx : fuse_opt_context) (o : option string) : fuse_opt_context :=
  mk_ctx (in_opt ctx) (in_proc ctx) (in_args ctx) (inout_data ctx) (out_args ctx)
         (tmp_argctr ctx) o (tmp_nonopt ctx) (log ctx).

Definition set_nonopt (ctx : fuse_opt_context) (n : nat) : fuse_opt_context :=
  mk_ctx (in_opt ctx) (in_proc ctx) (in_args ctx) (inout_data ctx) (out_args ctx)
         (tmp_argctr ctx) (tmp_opts ctx) n (log ctx).

Definition add_log (ctx : fuse_opt_context) (e : event) : fuse_opt_context :=
  mk_ctx (in_opt ctx) (in_proc ctx) (in_args ctx) (inout_data ctx) (out_args ctx)
         (tmp_argctr ctx) (tmp_opts ctx) (tmp_nonopt ctx) (log ctx ++ [e]).

(** *** [call_proc] *)

(** The [switch (typ)] at the end of [call_proc]. *)
Definition keep_gopt (ctx : fuse_opt_context) (arg : string) (typ : fuse_gopt_type)
  : outcome (Z * fuse_opt_context) :=
  let ctx := add_log ctx (EvKeep typ arg) in
  match typ with
  | GOPT_OPTION => Done (0, set_opts ctx (add_opt_common (tmp_opts ctx) arg true))
  | GOPT_FLAG =>
      let* (r, o) := fuse_opt_add_arg (out_args ctx) arg in
      Done (r, set_out_args ctx o)
  end.

Definition call_proc (ctx : fuse_opt_context) (arg : string) (key : Z) (typ : fuse_gopt_type)
  : outcome (Z * fuse_opt_context) :=
  if key =? FUSE_OPT_KEY_DISCARD then Done (0, ctx)
  else
    match (if negb (key =? FUSE_OPT_KEY_KEEP) then in_proc ctx else None) with
    | Some proc =>
        let '(res, d, o) := proc (inout_data ctx) arg key (out_args ctx) in
        let ctx := add_log (set_out_args (set_data ctx d) o) (EvProc arg key res) in
        if (res =? -1) || (res =? 0) then Done (res, ctx)
        else keep_gopt ctx arg typ
    | None => keep_gopt ctx arg typ
    end.

(** *** [process_opt_param] and [process_opt] *)

Definition store_field (ctx : fuse_opt_context) (var : Z) (v : field) : fuse_opt_context :=
  add_log (set_data ctx (store (inout_data ctx) var v)) (EvStore var v).

(** [var] is [ctx->data + opt->offset], given by the offset. *)
Definition process_opt_param (ctx : fuse_opt_context) (var : Z) (format param arg : string)
  : outcome (Z * fuse_opt_context) :=
  if negb (Ascii.eqb (CStr.char_at format 0) "%") then Abort
  else if Ascii.eqb (CStr.char_at format 1) "s" then
    Done (0, store_field ctx var (FStr param))
  else
    match sscanf param format with
    | Some v => Done (0, store_field ctx var (FScan v))
    | None => Done (-1, ctx)
    end.

Definition process_opt (ctx : fuse_opt_context) (optspec : fuse_opt) (sep : nat)
                       (arg : string) (typ : fuse_gopt_type)
  : outcome (Z * fuse_opt_context) :=
  if offset optspec =? minus_1U then
    let* (r, ctx) := call_proc ctx arg (value optspec) typ in
    if r =? -1 then Done (-1, ctx) else Done (0, ctx)
  else
    let var := offset optspec in
    let t := templ_str optspec in
    if negb (sep =? 0)%nat && negb (CStr.at_end t (sep + 1)) then
      let param := CStr.drop (if Ascii.eqb (CStr.char_at t sep) "=" then S sep else sep) arg in
      let* (r, ctx) := process_opt_param ctx var (CStr.drop (sep + 1) t) param arg in
      if r =? -1 then Done (-1, ctx) else Done (0, ctx)
    else
      Done (0, store_field ctx var (FInt (value optspec))).

(** *** [process_gopt] *)

(** The body of the [for] loop of [process_gopt], up to [res]. *)
Definition gopt_body (ctx : fuse_opt_context) (o : fuse_opt) (sep_idx : nat)
                     (arg : string) (typ : fuse_gopt_type)
  : outcome (Z * fuse_opt_context) :=
  if negb (sep_idx =? 0)%nat
     && Ascii.eqb (CStr.char_at (templ_str o) sep_idx) " "
     && CStr.at_end arg sep_idx
  then
    (* "key" "val" are 2 separate arguments. *)
    if (argc (in_args ctx) <=? tmp_argctr ctx + 1)%nat then Done (-1, ctx)
    else
      let ctx := set_argctr ctx (tmp_argctr ctx + 1) in
      match nth_error (args_list (in_args ctx)) (tmp_argctr ctx) with
      | None => Abort
      | Some val =>
          let mergedarg := (CStr.take sep_idx arg ++ val)%string in
          process_opt ctx o sep_idx mergedarg typ
      end
  else
    (* The full "key[= ]val" is all in the 'arg' string. *)
    process_opt ctx o sep_idx arg typ.

(** The [for] loop of [process_gopt]: [opt] points at a matching entry and
    [sep_idx] is the separator index of that match. *)
Fixpoint gopt_loop (fuel : nat) (ctx : fuse_opt_context) (opt : list fuse_opt) (sep_idx : nat)
                   (arg : string) (typ : fuse_gopt_type) {struct fuel}
  : outcome (Z * fuse_opt_context) :=
  match opt, fuel with
  | [], _ => Done (0, ctx)
  | _ :: _, O => OutOfFuel
  | o :: next, S fuel' =>
      let* (res, ctx) := gopt_body ctx o sep_idx arg typ in
      if res =? -1 then Done (-1, ctx)
      else
        match find_opt next arg with
        | Some (opt', sep_idx') => gopt_loop fuel' ctx opt' sep_idx' arg typ
        | None => Done (0, ctx)
        end
  end.

Definition process_gopt (ctx : fuse_opt_context) (arg : string) (typ : fuse_gopt_type)
  : outcome (Z * fuse_opt_context) :=
  match find_opt (in_opt ctx) arg with
  | None => call_proc ctx arg FUSE_OPT_KEY_OPT typ
  | Some (opt, sep_idx) => gopt_loop (List.length opt) ctx opt sep_idx arg typ
  end.

(** *** [process_one] *)

Definition is_octal3 (a b c : ascii) : bool :=
  ((48 <=? nat_of_ascii a) && (nat_of_ascii a <=? 51)
   && (48 <=? nat_of_ascii b) && (nat_of_ascii b <=? 55)
   && (48 <=? nat_of_ascii c) && (nat_of_ascii c <=? 55))%nat.

Definition octal3 (a b c : ascii) : ascii :=
  ascii_of_nat ((nat_of_ascii a - 48) * 64 + (nat_of_ascii b - 48) * 8 + (nat_of_ascii c - 48)).

(** The [while (!end)] loop of the "-o optiongroup" branch.  [s] is what is
    left to read; [d] is what has been written to the buffer since [opts],
    which [process_gopt] reads as a C string once a NUL is put after it. *)
Fixpoint opts_loop (s d : string) (ctx : fuse_opt_context) {struct s}
  : outcome (Z * fuse_opt_context) :=
  match s with
  | EmptyString =>
      let* (r, ctx) := process_gopt ctx (CStr.until_nul d) GOPT_OPTION in
      if r =? -1 then Done (-1, ctx) else Done (0, ctx)
  | String c s1 =>
      if Ascii.eqb c "," then
        let* (r, ctx) := process_gopt ctx (CStr.until_nul d) GOPT_OPTION in
        if r =? -1 then Done (-1, ctx) else opts_loop s1 EmptyString ctx
      else if Ascii.eqb c "\" then
        match s1 with
        | EmptyString => opts_loop s1 (CStr.snoc d c) ctx
        | String c1 s2 =>
            match s2 with
            | String c2 (String c3 s4) =>
                if is_octal3 c1 c2 c3 then opts_loop s4 (CStr.snoc d (octal3 c1 c2 c3)) ctx
                else opts_loop s2 (CStr.snoc d c1) ctx
            | _ => opts_loop s2 (CStr.snoc d c1) ctx
            end
        end
      else opts_loop s1 (CStr.snoc d c) ctx
  end.

Definition process_one (ctx : fuse_opt_context) : outcome (Z * fuse_opt_context) :=
  match nth_error (args_list (in_args ctx)) (tmp_argctr ctx) with
  | None => Abort
  | Some arg =>
      if negb (tmp_nonopt ctx =? 0)%nat || negb (Ascii.eqb (CStr.char_at arg 0) "-") then
        (* positional argument *)
        call_proc ctx arg FUSE_OPT_KEY_NONOPT GOPT_FLAG
      else if Ascii.eqb (CStr.char_at arg 1) "o" then
        (* "-o optiongroup" *)
        if negb (CStr.at_end arg 2) then
          opts_loop (CStr.drop 2 arg) EmptyString ctx
        else if (tmp_argctr ctx + 1 <? argc (in_args ctx))%nat then
          let ctx := set_argctr ctx (tmp_argctr ctx + 1) in
          match nth_error (args_list (in_args ctx)) (tmp_argctr ctx) with
          | None => Abort
          | Some opts => opts_loop opts EmptyString ctx
          end
        else Done (-1, ctx)
      else if Ascii.eqb (CStr.char_at arg 1) "-" && CStr.at_end arg 2 then
        (* "--" *)
        let* (r, o) := fuse_opt_add_arg (out_args ctx) arg in
        if r =? -1 then Done (-1, set_out_args ctx o)
        else
          let ctx := add_log (set_out_args ctx o) EvSeparator in
          Done (0, set_nonopt ctx (argc (out_args ctx)))
      else
        (* "--flag" *)
        process_gopt ctx arg GOPT_FLAG
  end.

(** *** [fuse_opt_parse] *)

(** The [while (ctx->tmp_argctr < ctx->in_args.argc)] loop. *)
Fixpoint parse_loop (fuel : nat) (ctx : fuse_opt_context) {struct fuel}
  : outcome (Z * fuse_opt_context) :=
  if (tmp_argctr ctx <? argc (in_args ctx))%nat then
    match fuel with
    | O => OutOfFuel
    | S fuel' =>
        let* (r, ctx) := process_one ctx in
        if r =? -1 then Done (-1, ctx)
        else parse_loop fuel' (set_argctr ctx (tmp_argctr ctx + 1))
    end
  else Done (0, ctx).

(** From the insertion of the merged "-o" group to the removal of a final
    "--". *)
Definition finalize (ctx : fuse_opt_context) : outcome (Z * fuse_opt_context) :=
  let* (r, ctx) :=
    match tmp_opts ctx with
    | Some opts =>
        let* (r1, o1) := fuse_opt_insert_arg (out_args ctx) 1 "-o" in
        if r1 =? -1 then Done (-1, set_out_args ctx o1)
        else
          let* (r2, o2) := fuse_opt_insert_arg o1 2 opts in
          Done (r2, set_out_args ctx o2)
    | None => Done (0, ctx)
    end in
  if r =? -1 then Done (-1, ctx)
  else
    (* If option separator ("--") is the last argument, remove it *)
    if negb (tmp_nonopt ctx =? 0)%nat
       && (tmp_nonopt ctx =? argc (out_args ctx))%nat
       && String.eqb (nth (argc (out_args ctx) - 1) (args_list (out_args ctx)) EmptyString) "--"
    then
      Done (0, set_out_args ctx
                 (mk_args (Some (removelast (args_list (out_args ctx))))
                          (allocated (out_args ctx))))
    else Done (0, ctx).

(** What a call leaves behind: the returned [int], the caller's
    [struct fuse_args], the caller's record, and the log. *)
Record parse_result : Type := mk_result {
  res_code : Z;
  res_args : option fuse_args;
  res_data : data;
  res_log : list event
}.

Definition fuse_opt_parse (args : option fuse_args) (d : data)
                          (opts : list fuse_opt) (proc : option fuse_opt_proc_t)
  : outcome parse_result :=
  match args with
  | None => Done (mk_result 0 args d [])
  | Some a =>
      match argv a with
      | None => Done (mk_result 0 args d [])
      | Some [] => Done (mk_result 0 args d [])
      | Some (argv0 :: _) =>
          let ctx := mk_ctx opts proc a d args_zero 0 None 0 [] in
          let failure (ctx : fuse_opt_context) :=
            Done (mk_result (-1) args (inout_data ctx) (log ctx)) in
          let* (r, o) := fuse_opt_add_arg (out_args ctx) argv0 in
          let ctx := set_out_args ctx o in
          if r =? -1 then failure ctx
          else
            let ctx := set_argctr ctx (tmp_argctr ctx + 1) in
            let* (r, ctx) := parse_loop (argc (in_args ctx)) ctx in
            if r =? -1 then failure ctx
            else
              let* (r, ctx) := finalize ctx in
              if r =? -1 then failure ctx
              else Done (mk_result 0 (Some (out_args ctx)) (inout_data ctx) (log ctx))
      end
  end.

(** ** Views of the loops *)

(** The entries of the table that match [arg], in table order, each with
    its separator index. *)
Fixpoint matching (optspecs : list fuse_opt) (arg : string) : list (fuse_opt * nat) :=
  match optspecs with
  | [] => []
  | o :: rest =>
      match templ o with
      | None => []
      | Some t =>
          match match_template t arg with
          | Some sep => (o, sep) :: matching rest arg
          | None => matching rest arg
          end
      end
  end.

(** The loop body run on a list of entries, stopping at the first -1. *)
Fixpoint run_entries (es : list (fuse_opt * nat)) (ctx : fuse_opt_context)
                     (arg : string) (typ : fuse_gopt_type)
  : outcome (Z * fuse_opt_context) :=
  match es with
  | [] => Done (0, ctx)
  | (o, sep) :: es' =>
      let* (res, ctx) := gopt_body ctx o sep arg typ in
      if res =? -1 then Done (-1, ctx) else run_entries es' ctx arg typ
  end.

(** The sub-options that the "-o" loop hands to [process_gopt] when it
    reads [s] with [d] already in the buffer. *)
Fixpoint decode_opts (s d : string) {struct s} : list string :=
  match s with
  | EmptyString => [CStr.until_nul d]
  | String c s1 =>
      if Ascii.eqb c "," then CStr.until_nul d :: decode_opts s1 EmptyString
      else if Ascii.eqb c "\" then
        match s1 with
        | EmptyString => decode_opts s1 (CStr.snoc d c)
        | String c1 s2 =>
            match s2 with
            | String c2 (String c3 s4) =>
                if is_octal3 c1 c2 c3 then decode_opts s4 (CStr.snoc d (octal3 c1 c2 c3))
                else decode_opts s2 (CStr.snoc d c1)
            | _ => decode_opts s2 (CStr.snoc d c1)
            end
        end
      else decode_opts s1 (CStr.snoc d c)
  end.

(** [process_gopt] on a list of sub-options, stopping at the first -1. *)
Fixpoint dispatch_opts (subs : list string) (ctx : fuse_opt_context)
  : outcome (Z * fuse_opt_context) :=
  match subs with
  | [] => Done (0, ctx)
  | a :: subs' =>
      let* (r, ctx) := process_gopt ctx a GOPT_OPTION in
      if r =? -1 then Done (-1, ctx) else dispatch_opts subs' ctx
  end.

(** The sub-options that [call_proc] kept, oldest first. *)
Fixpoint kept_opts (l : list event) : list string :=
  match l with
  | [] => []
  | EvKeep GOPT_OPTION a :: l' => a :: kept_opts l'
  | _ :: l' => kept_opts l'
  end.

(** The tokens that the parser appended to [out_args] after the program
    name, oldest first. *)
Fixpoint out_tokens (l : list event) : list string :=
  match l with
  | [] => []
  | EvKeep GOPT_FLAG a :: l' => a :: out_tokens l'
  | EvSeparator :: l' => "--" :: out_tokens l'
  | _ :: l' => out_tokens l'
  end.

(** The accumulator after the sub-options [ks] were added to [acc]. *)
Definition merge_opts (acc : option string) (ks : list string) : option string :=
  fold_left (fun acc k => add_opt_common acc k true) ks acc.

(** ** The decoding of a group value, in two passes

    The description of the "-o" value: escapes are resolved first, and the
    result is split at the commas that were not escaped. *)

Inductive item : Type :=
| Comma                 (* an unescaped comma *)
| Byte (c : ascii).     (* one byte of a sub-option *)

Fixpoint unescape (s : string) : list item :=
  match s with
  | EmptyString => []
  | String c s1 =>
      if Ascii.eqb c "," then Comma :: unescape s1
      else if Ascii.eqb c "\" then
        match s1 with
        | EmptyString => [Byte c]
        | String c1 s2 =>
            match s2 with
            | String c2 (String c3 s4) =>
                if is_octal3 c1 c2 c3 then Byte (octal3 c1 c2 c3) :: unescape s4
                else Byte c1 :: unescape s2
            | _ => Byte c1 :: unescape s2
            end
        end
      else Byte c :: unescape s1
  end.

(** Splitting at the commas; [cur] is the sub-option being collected. *)
Fixpoint split_items (cur : string) (l : list item) : list string :=
  match l with
  | [] => [cur]
  | Comma :: l' => cur :: split_items EmptyString l'
  | Byte c :: l' => split_items (CStr.snoc cur c) l'
  end.

(** The sub-options of a group value as [process_gopt] reads them. *)
Definition sub_options (v : string) : list string :=
  map CStr.until_nul (split_items EmptyString (unescape v)).

(** What the end of [fuse_opt_parse] makes of the output vector [out],
    given the merged group and [tmp_nonopt]. *)
Definition finalized (opts : option string) (nonopt : nat) (out : list string) : list string :=
  let out1 :=
    match opts with
    | Some o =>
        let out' := firstn 1 out ++ "-o" :: skipn 1 out in
        firstn 2 out' ++ o :: skipn 2 out'
    | None => out
    end in
  if negb (nonopt =? 0)%nat && (nonopt =? List.length out1)%nat
     && String.eqb (nth (List.length out1 - 1) out1 EmptyString) "--"
  then removelast out1 else out1.

(** The sub-options in front of the first one that is not empty add
    nothing to an empty accumulator. *)
Fixpoint drop_empty (ks : list string) : list string :=
  match ks with
  | EmptyString :: ks' => drop_empty ks'
  | _ => ks
  end.

(** No NUL byte inside: the string is what a C reader sees of it. *)
Definition nul_free (s : string) : Prop := CStr.until_nul s = s.

(** ** Tokens that need a following argument *)

(** The test of the loop body for '"key" "val" are 2 separate arguments'. *)
Definition bare_space (arg : string) (e : fuse_opt * nat) : bool :=
  negb (snd e =? 0)%nat
  && Ascii.eqb (CStr.char_at (templ_str (fst e)) (snd e)) " "
  && CStr.at_end arg (snd e).

(** Some matching entry takes the value of [arg] from the next argument. *)
Definition wants_next (optspecs : list fuse_opt) (arg : string) : bool :=
  existsb (bare_space arg) (matching optspecs arg).

(** The dispatcher is at a token that needs an argument after it, and the
    input has none left: a bare "-o", a flag-style option that matches a
    space-separator template with nothing after the stem, or a group with
    such a sub-option. *)
Definition missing_argument (c : fuse_opt_context) : bool :=
  match nth_error (args_list (in_args c)) (tmp_argctr c) with
  | None => false
  | Some arg =>
      (tmp_nonopt c =? 0)%nat && Ascii.eqb (CStr.char_at arg 0) "-"
      && if Ascii.eqb (CStr.char_at arg 1) "o" then
           if negb (CStr.at_end arg 2) then
             (argc (in_args c) <=? tmp_argctr c + 1)%nat
             && existsb (wants_next (in_opt c)) (sub_options (CStr.drop 2 arg))
           else
             match nth_error (args_list (in_args c)) (tmp_argctr c + 1) with
             | None => true
             | Some v =>
                 (argc (in_args c) <=? tmp_argctr c + 2)%nat
                 && existsb (wants_next (in_opt c)) (sub_options v)
             end
         else if Ascii.eqb (CStr.char_at arg 1) "-" && CStr.at_end arg 2 then false
         else (argc (in_args c) <=? tmp_argctr c + 1)%nat && wants_next (in_opt c) arg
  end.

(** The context that [fuse_opt_parse] enters its loop with. *)
Definition loop_entry (a : fuse_args) (d : data) (opts : list fuse_opt)
                      (proc : option fuse_opt_proc_t) (argv0 : string) : fuse_opt_context :=
  mk_ctx opts proc a d (mk_args (Some [argv0]) true) 1 None 0 [].

(** [loop_reaches c c']: the loop started in [c] gets to its test in [c']. *)
Inductive loop_reaches : fuse_opt_context -> fuse_opt_context -> Prop :=
| reaches_here c : loop_reaches c c
| reaches_next c r c1 c' :
    (tmp_argctr c < argc (in_args c))%nat ->
    process_one c = Done (r, c1) -> r <> -1 ->
    loop_reaches (set_argctr c1 (tmp_argctr c1 + 1)) c' ->
    loop_reaches c c'.

(** ** What the table makes of a token when the callback keeps everything *)

(** An entry through which a token can be kept: no destination, and a key
    other than DISCARD. *)
Definition entry_keeps (o : fuse_opt) : bool :=
  (offset o =? minus_1U) && negb (value o =? FUSE_OPT_KEY_DISCARD).

(** An entry with a destination whose conversion of the parameter fails. *)
Definition entry_fails (arg : string) (e : fuse_opt * nat) : bool :=
  let o := fst e in
  let sep := snd e in
  let t := templ_str o in
  negb (offset o =? minus_1U)
  && negb (sep =? 0)%nat && negb (CStr.at_end t (sep + 1))
  && negb (Ascii.eqb (CStr.char_at (CStr.drop (sep + 1) t) 1) "s")
  && match sscanf (CStr.drop (if Ascii.eqb (CStr.char_at t sep) "=" then S sep else sep) arg)
                  (CStr.drop (sep + 1) t) with
     | Some _ => false
     | None => true
     end.

(** How many times [arg] is kept when every callback answer is "keep". *)
Definition keep_count (optspecs : list fuse_opt) (arg : string) : nat :=
  match matching optspecs arg with
  | [] => 1
  | es => List.length (filter (fun e => entry_keeps (fst e)) es)
  end.

Definition fails (optspecs : list fuse_opt) (arg : string) : bool :=
  existsb (entry_fails arg) (matching optspecs arg).

(** A token that a parse with this table can keep, and does not fail on. *)
Definition accepts (optspecs : list fuse_opt) (arg : string) : bool :=
  (1 <=? keep_count optspecs arg)%nat && negb (fails optspecs arg).

(** No template of the table holds a space. *)
Definition space_free (optspecs : list fuse_opt) : bool :=
  forallb (fun o => match CStr.strchr (templ_str o) " " with
                    | None => true
                    | Some _ => false
                    end) optspecs.

(** The sub-options of a group, each as often as it is kept. *)
Definition group_kept (optspecs : list fuse_opt) (subs : list string) : list string :=
  flat_map (fun sub => repeat sub (keep_count optspecs sub)) subs.

(** The parse as a function on lists, for a callback that keeps
    everything and a table without space separators: from the output
    vector, the merged group and [tmp_nonopt] before the tokens [l] to
    what they are after them; [None] when the parse fails. *)
Fixpoint rewrite_loop (optspecs : list fuse_opt) (l : list string)
                      (st : list string * option string * nat)
  : option (list string * option string * nat) :=
  match l with
  | [] => Some st
  | arg :: l' =>
      let '(out, opts, nonopt) := st in
      if negb (nonopt =? 0)%nat || negb (Ascii.eqb (CStr.char_at arg 0) "-") then
        rewrite_loop optspecs l' (out ++ [arg], opts, nonopt)
      else if Ascii.eqb (CStr.char_at arg 1) "o" then
        if negb (CStr.at_end arg 2) then
          let subs := sub_options (CStr.drop 2 arg) in
          if existsb (fails optspecs) subs then None
          else rewrite_loop optspecs l' (out, merge_opts opts (group_kept optspecs subs), nonopt)
        else
          match l' with
          | v :: l'' =>
              let subs := sub_options v in
              if existsb (fails optspecs) subs then None
              else rewrite_loop optspecs l''
                     (out, merge_opts opts (group_kept optspecs subs), nonopt)
          | [] => None
          end
      else if Ascii.eqb (CStr.char_at arg 1) "-" && CStr.at_end arg 2 then
        rewrite_loop optspecs l' (out ++ [arg], opts, List.length (out ++ [arg]))
      else if fails optspecs arg then None
      else rewrite_loop optspecs l' (out ++ repeat arg (keep_count optspecs arg), opts, nonopt)
  end.

(** One token of [rewrite_loop]: what is left to read after it, and the
    state. *)
Definition rewrite_step (optspecs : list fuse_opt) (arg : string) (l' : list string)
                        (st : list string * option string * nat)
  : option (list string * (list string * option string * nat)) :=
  let '(out, opts, nonopt) := st in
  if negb (nonopt =? 0)%nat || negb (Ascii.eqb (CStr.char_at arg 0) "-") then
    Some (l', (out ++ [arg], opts, nonopt))
  else if Ascii.eqb (CStr.char_at arg 1) "o" then
    if negb (CStr.at_end arg 2) then
      let subs := sub_options (CStr.drop 2 arg) in
      if existsb (fails optspecs) subs then None
      else Some (l', (out, merge_opts opts (group_kept optspecs subs), nonopt))
    else
      match l' with
      | v :: l'' =>
          let subs := sub_options v in
          if existsb (fails optspecs) subs then None
          else Some (l'', (out, merge_opts opts (group_kept optspecs subs), nonopt))
      | [] => None
      end
  else if Ascii.eqb (CStr.char_at arg 1) "-" && CStr.at_end arg 2 then
    Some (l', (out ++ [arg], opts, List.length (out ++ [arg])))
  else if fails optspecs arg then None
  else Some (l', (out ++ repeat arg (keep_count optspecs arg), opts, nonopt)).

(** What the context holds of the output under construction. *)
Definition view (c : fuse_opt_context) : list string * option string * nat :=
  (args_list (out_args c), tmp_opts c, tmp_nonopt c).

(** ** The command line with its groups merged

    The description of what a parse with an empty table and a callback
    that keeps everything returns: the input with its group options taken
    out and put back as one. *)

(** The values of the group options of [l] and the other tokens of [l],
    both in order; [None] when a "-o" that needs a value is the last
    token.  [positional] tells whether "--" has been passed. *)
Fixpoint split_groups (positional : bool) (l : list string)
  : option (list string * list string) :=
  let other (arg : string) (r : option (list string * list string)) :=
    match r with Some (vs, os) => Some (vs, arg :: os) | None => None end in
  let group (v : string) (r : option (list string * list string)) :=
    match r with Some (vs, os) => Some (v :: vs, os) | None => None end in
  match l with
  | [] => Some ([], [])
  | arg :: l' =>
      if positional || negb (Ascii.eqb (CStr.char_at arg 0) "-") then
        other arg (split_groups positional l')
      else if Ascii.eqb (CStr.char_at arg 1) "o" then
        if negb (CStr.at_end arg 2) then group (CStr.drop 2 arg) (split_groups false l')
        else match l' with
             | v :: l'' => group v (split_groups false l'')
             | [] => None
             end
      else if Ascii.eqb (CStr.char_at arg 1) "-" && CStr.at_end arg 2 then
        other arg (split_groups true l')
      else other arg (split_groups false l')
  end.

(** Where the first "--" is. *)
Fixpoint sep_index (os : list string) : option nat :=
  match os with
  | [] => None
  | a :: os' =>
      if String.eqb a "--" then Some O
      else match sep_index os' with Some i => Some (S i) | None => None end
  end.

(** [os] without its first "--" when that is its last token. *)
Definition drop_final_separator (os : list string) : list string :=
  match sep_index os with
  | Some i => if (S i =? List.length os)%nat then removelast os else os
  | None => os
  end.

Definition recoalesced (argv0 : string) (rest : list string) : option (list string) :=
  match split_groups false rest with
  | None => None
  | Some (vs, os) =>
      Some (argv0 :: match merge_opts None (flat_map sub_options vs) with
                     | Some m => "-o" :: m :: os
                     | None => drop_final_separator os
                     end)
  end.

(** ** The shape of a successful output *)

(** A token that a parse can have kept in front of "--": a positional
    one, or a flag-style one that the table accepts. *)
Definition token_ok (optspecs : list fuse_opt) (a : string) : bool :=
  negb (Ascii.eqb (CStr.char_at a 0) "-")
  || (negb (Ascii.eqb (CStr.char_at a 1) "o")
      && negb (Ascii.eqb (CStr.char_at a 1) "-" && CStr.at_end a 2)
      && accepts optspecs a).

(** The output vector, merged group and [tmp_nonopt] of a parse in
    progress: the program name, tokens kept in front of "--", then either
    nothing or "--" and tokens kept behind it; the merged group holds
    sub-options that the table accepts. *)
Definition normal_form (optspecs : list fuse_opt) (argv0 : string)
                       (st : list string * option string * nat) : Prop :=
  exists pre post K,
    fst (fst st) = argv0 :: pre ++ post
    /\ forallb (token_ok optspecs) pre = true
    /\ ((snd st = 0%nat /\ post = [])
        \/ (snd st = S (S (List.length pre)) /\ exists post', post = "--" :: post'))
    /\ snd (fst st) = merge_opts None K
    /\ Forall (fun k => nul_free k /\ accepts optspecs k = true) K.

(** ** The spec table as a list *)

(** The entries in front of the terminating FUSE_OPT_END. *)
Fixpoint entries (optspecs : list fuse_opt) : list fuse_opt :=
  match optspecs with
  | [] => []
  | o :: rest => match templ o with Some _ => o :: entries rest | None => [] end
  end.

Definition matches (arg : string) (o : fuse_opt) : bool :=
  match templ o with
  | Some t => match match_template t arg with Some _ => true | None => false end
  | None => false
  end.

(** ** Callbacks used in the statements *)

(** A callback that leaves the output vector as it finds it. *)
Definition leaves_out_args (proc : fuse_opt_proc_t) : Prop :=
  forall d arg key o, snd (proc d arg key o) = o.

(** A callback that keeps whatever it is asked about. *)
Definition always_keeps (proc : fuse_opt_proc_t) : Prop :=
  forall d arg key o, 0 < fst (fst (proc d arg key o)).

Definition keep_all : fuse_opt_proc_t := fun d _ _ o => (1, d, o).

(** A callback that answers every token with the same integer. *)
Definition answer (res : Z) : fuse_opt_proc_t := fun d _ _ o => (res, d, o).

(** ** Definitions for the further properties *)

(** The separator that [match_template] finds in a template: the first
    "=", or the first " " of a template without "=", when what follows it
    is nothing or starts with "%". *)
Definition template_sep (t : string) : option nat :=
  match (match CStr.strchr t "=" with Some i => Some i | None => CStr.strchr t " " end) with
  | Some i =>
      if negb (CStr.at_end t (i + 1)) && negb (Ascii.eqb (CStr.char_at t (i + 1)) "%")
      then None else Some i
  | None => None
  end.

(** The outcome of a call, with the context it returns transformed. *)
Definition lift (T : fuse_opt_context -> fuse_opt_context)
                (m : outcome (Z * fuse_opt_context)) : outcome (Z * fuse_opt_context) :=
  match m with
  | Done (r, c) => Done (r, T c)
  | Abort => Abort
  | OutOfFuel => OutOfFuel
  end.

(** The call [m], made in context [c], returns 0 or -1; it leaves the
    inputs alone and the output vector allocated, and the cursor, which it
    may have moved forward, still points at an argument. *)
Definition returns (c : fuse_opt_context) (m : outcome (Z * fuse_opt_context)) : Prop :=
  exists r c',
    m = Done (r, c') /\ (r = 0 \/ r = -1)
    /\ in_opt c' = in_opt c /\ in_proc c' = in_proc c /\ in_args c' = in_args c
    /\ allocated (out_args c') = true
    /\ (tmp_argctr c <= tmp_argctr c')%nat
    /\ ((tmp_argctr c < argc (in_args c))%nat -> (tmp_argctr c' < argc (in_args c))%nat).

(** The separator is the last token that the parse appended: the log
    holds an [EvSeparator], and no token was appended behind the first
    one. *)
Fixpoint separator_is_last (l : list event) : bool :=
  match l with
  | [] => false
  | EvSeparator :: l' => match out_tokens l' with [] => true | _ :: _ => false end
  | _ :: l' => separator_is_last l'
  end.

(** [tmp_nonopt] as the log tells it, for an output vector that held [n]
    strings before the log: 0 until the separator is appended, then the
    length of the vector with the separator. *)
Fixpoint nonopt_of (n : nat) (l : list event) : nat :=
  match l with
  | [] => 0
  | EvSeparator :: _ => S n
  | EvKeep GOPT_FLAG _ :: l' => nonopt_of (S n) l'
  | _ :: l' => nonopt_of n l'
  end.

Definition no_separator (l : list event) : bool :=
  forallb (fun e => match e with EvSeparator => false | _ => true end) l.

(** A step that leaves [tmp_nonopt] alone and logs no separator. *)
Definition keeps_separator (c : fuse_opt_context) (r : Z) (c' : fuse_opt_context) : Prop :=
  tmp_nonopt c' = tmp_nonopt c
  /\ exists new, log c' = log c ++ new /\ no_separator new = true.

(** The output vector and [tmp_nonopt] as the log tells them. *)
Definition told_by_log (argv0 : string) (c : fuse_opt_context) : Prop :=
  args_list (out_args c) = argv0 :: out_tokens (log c)
  /\ tmp_nonopt c = nonopt_of 1 (log c).

(** What the log can hold for a positional argument: a call of the
    callback with the key NONOPT, and the appending of a token to the
    output vector. *)
Definition positional_event (e : event) : bool :=
  match e with
  | EvProc _ key _ => key =? FUSE_OPT_KEY_NONOPT
  | EvKeep GOPT_FLAG _ => true
  | _ => false
  end.

(** A call of the callback. *)
Definition is_proc (e : event) : bool :=
  match e with
  | EvProc _ _ _ => true
  | _ => false
  end.

(** The context of the same parse without callback: no callback, and no
    call of it in the log. *)
Definition without_callback (c : fuse_opt_context) : fuse_opt_context :=
  mk_ctx (in_opt c) None (in_args c) (inout_data c) (out_args c)
         (tmp_argctr c) (tmp_opts c) (tmp_nonopt c)
         (filter (fun e => negb (is_proc e)) (log c)).

(** The context of the same parse on the argument vector [a2], with the
    cursor one argument further. *)
Definition moved_on (a2 : fuse_args) (c : fuse_opt_context) : fuse_opt_context :=
  mk_ctx (in_opt c) (in_proc c) a2 (inout_data c) (out_args c)
         (tmp_argctr c + 1) (tmp_opts c) (tmp_nonopt c) (log c).

(** The context of the same parse with the table [optspecs]. *)
Definition with_table (optspecs : list fuse_opt) (c : fuse_opt_context) : fuse_opt_context :=
  mk_ctx optspecs (in_proc c) (in_args c) (inout_data c) (out_args c)
         (tmp_argctr c) (tmp_opts c) (tmp_nonopt c) (log c).

(** The record after the stores of a log, oldest first. *)
Definition replay (d : data) (l : list event) : data :=
  fold_left (fun d e => match e with EvStore off v => store d off v | _ => d end) l d.

(** A callback that hands the record back as it got it. *)
Definition leaves_data (proc : fuse_opt_proc_t) : Prop :=
  forall d arg key o, snd (fst (proc d arg key o)) = d.

(** With a callback that leaves the record alone, what a call does to
    the record can be read off what it adds to the log. *)
Definition record_follows_log (c : fuse_opt_context) (r : Z) (c' : fuse_opt_context) : Prop :=
  (forall p, in_proc c = Some p -> leaves_data p) ->
  exists new, log c' = log c ++ new /\ in_proc c' = in_proc c
              /\ inout_data c' = replay (inout_data c) new.


(** ** Basic facts *)

Ltac ctx_simpl :=
  cbn [in_opt in_proc in_args inout_data out_args tmp_argctr tmp_opts tmp_nonopt log
       set_data set_out_args set_argctr set_opts set_nonopt add_log store_field
       fst snd] in *.

(** [ctx'] continues [ctx]: same inputs, the cursor has not moved back and
    the log has only grown. *)
Definition continues (ctx ctx' : fuse_opt_context) : Prop :=
  in_opt ctx' = in_opt ctx /\ in_proc ctx' = in_proc ctx /\ in_args ctx' = in_args ctx
  /\ (tmp_argctr ctx <= tmp_argctr ctx')%nat
  /\ exists new, log ctx' = log ctx ++ new.

Lemma continues_refl ctx : continues ctx ctx.
Proof.
  unfold continues; repeat split; auto. exists []. now rewrite app_nil_r.
Qed.

Lemma continues_trans c1 c2 c3 : continues c1 c2 -> continues c2 c3 -> continues c1 c3.
Proof.
  unfold continues. intros (a1 & a2 & a3 & a4 & n1 & a5) (b1 & b2 & b3 & b4 & n2 & b5).
  repeat split; try congruence; try lia.
  exists (n1 ++ n2). rewrite b5, a5. now rewrite app_assoc.
Qed.

Lemma continues_add_log ctx e : continues ctx (add_log ctx e).
Proof. unfold continues; simpl; repeat split; eauto. Qed.

Lemma continues_set_data ctx d : continues ctx (set_data ctx d).
Proof. unfold continues; simpl; repeat split; auto. exists []; now rewrite app_nil_r. Qed.

Lemma continues_set_out_args ctx o : continues ctx (set_out_args ctx o).
Proof. unfold continues; simpl; repeat split; auto. exists []; now rewrite app_nil_r. Qed.

Lemma continues_set_opts ctx o : continues ctx (set_opts ctx o).
Proof. unfold continues; simpl; repeat split; auto. exists []; now rewrite app_nil_r. Qed.

Lemma continues_set_nonopt ctx n : continues ctx (set_nonopt ctx n).
Proof. unfold continues; simpl; repeat split; auto. exists []; now rewrite app_nil_r. Qed.

Lemma continues_set_argctr ctx n :
  (tmp_argctr ctx <= n)%nat -> continues ctx (set_argctr ctx n).
Proof. unfold continues; simpl; repeat split; auto. exists []; now rewrite app_nil_r. Qed.

#[local] Hint Resolve continues_refl continues_add_log continues_set_data continues_set_out_args
  continues_set_opts continues_set_nonopt continues_set_argctr : ctx.

Lemma add_arg_done args arg r o :
  fuse_opt_add_arg args arg = Done (r, o) ->
  r = 0 /\ o = mk_args (Some (args_list args ++ [arg])) true.
Proof.
  unfold fuse_opt_add_arg. destruct (argv args), (allocated args); intros H; inv H; auto.
Qed.

Lemma keep_gopt_continues ctx arg typ r ctx' :
  keep_gopt ctx arg typ = Done (r, ctx') -> continues ctx ctx'.
Proof.
  unfold keep_gopt. intros H. destruct typ.
  - unfold obind in H.
    destruct (fuse_opt_add_arg _ arg) as [[r1 o]| |]; try discriminate. inv H.
    eapply continues_trans; [apply continues_add_log | apply continues_set_out_args].
  - inv H. eapply continues_trans; [apply continues_add_log | apply continues_set_opts].
Qed.

Lemma call_proc_continues ctx arg key typ r ctx' :
  call_proc ctx arg key typ = Done (r, ctx') -> continues ctx ctx'.
Proof.
  unfold call_proc. intros H.
  destruct (key =? FUSE_OPT_KEY_DISCARD); [inv H; apply continues_refl|].
  destruct (if negb (key =? FUSE_OPT_KEY_KEEP) then in_proc ctx else None) as [proc|].
  - destruct (proc (inout_data ctx) arg key (out_args ctx)) as [[res d] o].
    assert (Hc : continues ctx (add_log (set_out_args (set_data ctx d) o) (EvProc arg key res))).
    { eapply continues_trans; [apply continues_set_data|].
      eapply continues_trans; [apply continues_set_out_args | apply continues_add_log]. }
    destruct ((res =? -1) || (res =? 0)); [inv H; exact Hc|].
    eapply continues_trans; [exact Hc|]. eapply keep_gopt_continues; eassumption.
  - eapply keep_gopt_continues; eassumption.
Qed.

Lemma continues_store_field ctx var v : continues ctx (store_field ctx var v).
Proof.
  unfold store_field. eapply continues_trans; [apply continues_set_data | apply continues_add_log].
Qed.

Lemma process_opt_param_continues ctx var format param arg r ctx' :
  process_opt_param ctx var format param arg = Done (r, ctx') -> continues ctx ctx'.
Proof.
  unfold process_opt_param. intros H.
  destruct (negb (Ascii.eqb (CStr.char_at format 0) "%")); [discriminate|].
  destruct (Ascii.eqb (CStr.char_at format 1) "s"); [inv H; apply continues_store_field|].
  destruct (sscanf param format); inv H; [apply continues_store_field | apply continues_refl].
Qed.

Lemma process_opt_continues ctx o sep arg typ r ctx' :
  process_opt ctx o sep arg typ = Done (r, ctx') -> continues ctx ctx'.
Proof.
  unfold process_opt, obind. intros H.
  destruct (offset o =? minus_1U).
  - destruct (call_proc ctx arg (value o) typ) as [[r1 c1]| |] eqn:Hc; try discriminate.
    apply call_proc_continues in Hc. destruct (r1 =? -1); inv H; exact Hc.
  - destruct (negb (sep =? 0)%nat && negb (CStr.at_end (templ_str o) (sep + 1))).
    + destruct (process_opt_param ctx (offset o) _ _ arg) as [[r1 c1]| |] eqn:Hc;
        try discriminate.
      apply process_opt_param_continues in Hc. destruct (r1 =? -1); inv H; exact Hc.
    + inv H. apply continues_store_field.
Qed.

Lemma find_opt_shorter optspecs arg opt sep :
  find_opt optspecs arg = Some (opt, sep) ->
  (List.length opt <= List.length optspecs)%nat /\ opt <> [].
Proof.
  induction optspecs as [|o rest IH]; simpl; [discriminate|].
  destruct (templ o); [|discriminate].
  destruct (match_template s arg).
  - intros H; inv H. split; [simpl; lia | discriminate].
  - intros H. apply IH in H. simpl. destruct H; split; [lia | assumption].
Qed.

Lemma gopt_body_continues ctx o sep arg typ r ctx' :
  gopt_body ctx o sep arg typ = Done (r, ctx') -> continues ctx ctx'.
Proof.
  unfold gopt_body. intros H.
  destruct (negb (sep =? 0)%nat && Ascii.eqb (CStr.char_at (templ_str o) sep) " "
            && CStr.at_end arg sep).
  - destruct (argc (in_args ctx) <=? tmp_argctr ctx + 1)%nat; [inv H; eauto with ctx|].
    simpl in H.
    destruct (nth_error (args_list (in_args ctx)) (tmp_argctr ctx + 1)); [|discriminate].
    apply process_opt_continues in H.
    eapply continues_trans; [|exact H]. apply continues_set_argctr. lia.
  - eapply process_opt_continues; eassumption.
Qed.

Lemma gopt_loop_continues fuel : forall ctx opt sep arg typ r ctx',
  gopt_loop fuel ctx opt sep arg typ = Done (r, ctx') -> continues ctx ctx'.
Proof.
  induction fuel as [|fuel IH]; intros ctx opt sep arg typ r ctx' H.
  - destruct opt; simpl in H; [inv H; eauto with ctx | discriminate].
  - destruct opt as [|o next]; simpl in H; [inv H; eauto with ctx|].
    unfold obind in H.
    destruct (gopt_body ctx o sep arg typ) as [[res c1]| |] eqn:Hp; try discriminate.
    apply gopt_body_continues in Hp.
    destruct (res =? -1); [inv H; assumption|].
    destruct (find_opt next arg) as [[opt' sep']|]; [|inv H; assumption].
    eapply continues_trans; [exact Hp|]. eapply IH; eassumption.
Qed.

Lemma process_gopt_continues ctx arg typ r ctx' :
  process_gopt ctx arg typ = Done (r, ctx') -> continues ctx ctx'.
Proof.
  unfold process_gopt. destruct (find_opt (in_opt ctx) arg) as [[opt sep]|].
  - apply gopt_loop_continues.
  - apply call_proc_continues.
Qed.

Lemma opts_loop_continues s : forall d ctx r ctx',
  opts_loop s d ctx = Done (r, ctx') -> continues ctx ctx'.
Proof.
  induction s as [s IH] using string_strong_ind.
  intros d ctx r ctx' H. destruct s as [|c s1]; simpl in H; unfold obind in H.
  - destruct (process_gopt ctx (CStr.until_nul d) GOPT_OPTION) as [[r1 c1]| |] eqn:Hg;
      try discriminate.
    apply process_gopt_continues in Hg. destruct (r1 =? -1); inv H; assumption.
  - destruct (Ascii.eqb c ",").
    + destruct (process_gopt ctx (CStr.until_nul d) GOPT_OPTION) as [[r1 c1]| |] eqn:Hg;
        try discriminate.
      apply process_gopt_continues in Hg. destruct (r1 =? -1); [inv H; assumption|].
      eapply continues_trans; [exact Hg|]. eapply IH; [|eassumption]. simpl; lia.
    + destruct (Ascii.eqb c "\").
      * destruct s1 as [|c1 s2]; [eapply IH; [|eassumption]; simpl; lia|].
        destruct s2 as [|c2 [|c3 s4]];
          try (eapply IH; [|eassumption]; simpl; lia).
        destruct (is_octal3 c1 c2 c3); (eapply IH; [|eassumption]; simpl; lia).
      * eapply IH; [|eassumption]. simpl; lia.
Qed.

Lemma process_one_continues ctx r ctx' :
  process_one ctx = Done (r, ctx') -> continues ctx ctx'.
Proof.
  unfold process_one. intros H.
  destruct (nth_error (args_list (in_args ctx)) (tmp_argctr ctx)) as [arg|]; [|discriminate].
  destruct (negb (tmp_nonopt ctx =? 0)%nat || negb (Ascii.eqb (CStr.char_at arg 0) "-")).
  { eapply call_proc_continues; eassumption. }
  destruct (Ascii.eqb (CStr.char_at arg 1) "o").
  { destruct (negb (CStr.at_end arg 2)).
    - eapply opts_loop_continues; eassumption.
    - destruct (tmp_argctr ctx + 1 <? argc (in_args ctx))%nat; [|inv H; eauto with ctx].
      simpl in H.
      destruct (nth_error (args_list (in_args ctx)) (tmp_argctr ctx + 1)); [|discriminate].
      apply opts_loop_continues in H.
      eapply continues_trans; [|exact H]. apply continues_set_argctr; lia. }
  destruct (Ascii.eqb (CStr.char_at arg 1) "-" && CStr.at_end arg 2).
  { unfold obind in H.
    destruct (fuse_opt_add_arg (out_args ctx) arg) as [[r1 o]| |]; try discriminate.
    destruct (r1 =? -1); inv H; [apply continues_set_out_args|].
    eapply continues_trans; [apply continues_set_out_args|].
    eapply continues_trans; [apply continues_add_log | apply continues_set_nonopt]. }
  eapply process_gopt_continues; eassumption.
Qed.

(** ** The loops in terms of their views *)

Lemma opts_loop_dispatch s : forall d ctx,
  opts_loop s d ctx = dispatch_opts (decode_opts s d) ctx.
Proof.
  induction s as [s IH] using string_strong_ind.
  intros d ctx. destruct s as [|c s1]; simpl.
  - unfold obind. destruct (process_gopt ctx (CStr.until_nul d) GOPT_OPTION) as [[r c1]| |];
      reflexivity.
  - destruct (Ascii.eqb c ",").
    + simpl. unfold obind.
      destruct (process_gopt ctx (CStr.until_nul d) GOPT_OPTION) as [[r c1]| |]; try reflexivity.
      destruct (r =? -1); [reflexivity|]. apply IH. simpl; lia.
    + destruct (Ascii.eqb c "\").
      * destruct s1 as [|c1 s2]; [apply IH; simpl; lia|].
        destruct s2 as [|c2 [|c3 s4]]; try (apply IH; simpl; lia).
        destruct (is_octal3 c1 c2 c3); apply IH; simpl; lia.
      * apply IH. simpl; lia.
Qed.

Lemma find_opt_matching optspecs arg :
  match find_opt optspecs arg with
  | Some (opt, sep) =>
      exists o next, opt = o :: next /\ matching optspecs arg = (o, sep) :: matching next arg
  | None => matching optspecs arg = []
  end.
Proof.
  induction optspecs as [|o rest IH]; simpl; [reflexivity|].
  destruct (templ o) as [t|]; [|reflexivity].
  destruct (match_template t arg) as [sep|]; [|exact IH].
  exists o, rest. split; reflexivity.
Qed.

Lemma gopt_loop_entries fuel : forall ctx o next sep arg typ,
  (List.length (o :: next) <= fuel)%nat ->
  gopt_loop fuel ctx (o :: next) sep arg typ
  = run_entries ((o, sep) :: matching next arg) ctx arg typ.
Proof.
  induction fuel as [|fuel IH]; intros ctx o next sep arg typ Hlen; simpl in Hlen; [lia|].
  simpl. unfold obind. destruct (gopt_body ctx o sep arg typ) as [[res c1]| |]; try reflexivity.
  destruct (res =? -1); [reflexivity|].
  pose proof (find_opt_matching next arg) as Hm.
  pose proof (find_opt_shorter next arg) as Hs.
  destruct (find_opt next arg) as [[opt' sep']|].
  - destruct Hm as (o' & next' & -> & ->). apply IH.
    specialize (Hs _ _ eq_refl). destruct Hs as [Hs _]. lia.
  - rewrite Hm. reflexivity.
Qed.

(** With the fuel that [process_gopt] passes, the loop never runs out. *)
Lemma gopt_loop_fuel ctx optspecs arg typ opt sep :
  find_opt optspecs arg = Some (opt, sep) ->
  gopt_loop (List.length opt) ctx opt sep arg typ = run_entries (matching optspecs arg) ctx arg typ.
Proof.
  intros Hf. pose proof (find_opt_matching optspecs arg) as Hm. rewrite Hf in Hm.
  destruct Hm as (o & next & -> & ->). apply gopt_loop_entries. lia.
Qed.

Lemma process_gopt_entries ctx arg typ :
  process_gopt ctx arg typ =
  match matching (in_opt ctx) arg with
  | [] => call_proc ctx arg FUSE_OPT_KEY_OPT typ
  | es => run_entries es ctx arg typ
  end.
Proof.
  unfold process_gopt. pose proof (find_opt_matching (in_opt ctx) arg) as Hm.
  destruct (find_opt (in_opt ctx) arg) as [[opt sep]|] eqn:Hf.
  - rewrite (gopt_loop_fuel _ _ _ _ Hf). destruct Hm as (o & next & _ & ->). reflexivity.
  - rewrite Hm. reflexivity.
Qed.

(** *** The fuel is sufficient *)

Lemma keep_gopt_fuel ctx arg typ : keep_gopt ctx arg typ <> OutOfFuel.
Proof.
  unfold keep_gopt, fuse_opt_add_arg. destruct typ; simpl; [|discriminate].
  destruct (argv (out_args ctx)); [destruct (allocated (out_args ctx))|]; simpl; discriminate.
Qed.

Lemma call_proc_fuel ctx arg key typ : call_proc ctx arg key typ <> OutOfFuel.
Proof.
  unfold call_proc. destruct (key =? FUSE_OPT_KEY_DISCARD); [discriminate|].
  destruct (if negb (key =? FUSE_OPT_KEY_KEEP) then in_proc ctx else None) as [p|];
    [|apply keep_gopt_fuel].
  destruct (p (inout_data ctx) arg key (out_args ctx)) as [[res d] o].
  destruct ((res =? -1) || (res =? 0)); [discriminate | apply keep_gopt_fuel].
Qed.

Lemma process_opt_fuel ctx o sep arg typ : process_opt ctx o sep arg typ <> OutOfFuel.
Proof.
  unfold process_opt. destruct (offset o =? minus_1U).
  - pose proof (call_proc_fuel ctx arg (value o) typ) as H.
    destruct (call_proc ctx arg (value o) typ) as [[r c]| |]; simpl; try congruence.
    destruct (r =? -1); discriminate.
  - destruct (negb (sep =? 0)%nat && negb (CStr.at_end (templ_str o) (sep + 1)));
      [|discriminate].
    unfold process_opt_param.
    destruct (negb (Ascii.eqb (CStr.char_at (CStr.drop (sep + 1) (templ_str o)) 0) "%"));
      [discriminate|].
    destruct (Ascii.eqb (CStr.char_at (CStr.drop (sep + 1) (templ_str o)) 1) "s");
      [discriminate|].
    destruct (sscanf _ _); discriminate.
Qed.

Lemma gopt_body_fuel ctx o sep arg typ : gopt_body ctx o sep arg typ <> OutOfFuel.
Proof.
  unfold gopt_body.
  destruct (negb (sep =? 0)%nat && Ascii.eqb (CStr.char_at (templ_str o) sep) " "
            && CStr.at_end arg sep); [|apply process_opt_fuel].
  destruct (argc (in_args ctx) <=? tmp_argctr ctx + 1)%nat; [discriminate|].
  destruct (nth_error _ _); [apply process_opt_fuel | discriminate].
Qed.

Lemma run_entries_fuel es : forall ctx arg typ, run_entries es ctx arg typ <> OutOfFuel.
Proof.
  induction es as [|[o sep] es IH]; intros ctx arg typ; simpl; [discriminate|].
  pose proof (gopt_body_fuel ctx o sep arg typ) as H.
  destruct (gopt_body ctx o sep arg typ) as [[r c]| |]; simpl; try congruence.
  destruct (r =? -1); [discriminate | apply IH].
Qed.

Lemma process_gopt_fuel ctx arg typ : process_gopt ctx arg typ <> OutOfFuel.
Proof.
  rewrite process_gopt_entries.
  destruct (matching (in_opt ctx) arg); [apply call_proc_fuel | apply run_entries_fuel].
Qed.

Lemma opts_loop_fuel s : forall d ctx, opts_loop s d ctx <> OutOfFuel.
Proof.
  induction s as [s IH] using string_strong_ind. intros d ctx.
  assert (Hg : forall c,
             (let* (r, c') := process_gopt c (CStr.until_nul d) GOPT_OPTION in
              if r =? -1 then Done (-1, c') else Done (0, c')) <> OutOfFuel).
  { intros c. pose proof (process_gopt_fuel c (CStr.until_nul d) GOPT_OPTION) as H.
    destruct (process_gopt c (CStr.until_nul d) GOPT_OPTION) as [[r c']| |];
      simpl; try congruence. destruct (r =? -1); discriminate. }
  destruct s as [|c s1]; [apply Hg|].
  cbn [opts_loop]. destruct (Ascii.eqb c ",").
  - pose proof (process_gopt_fuel ctx (CStr.until_nul d) GOPT_OPTION) as H.
    destruct (process_gopt ctx (CStr.until_nul d) GOPT_OPTION) as [[r c']| |];
      simpl; try congruence.
    destruct (r =? -1); [discriminate | apply IH; simpl; lia].
  - destruct (Ascii.eqb c "\"); [|apply IH; simpl; lia].
    destruct s1 as [|c1 s2]; [apply IH; simpl; lia|].
    destruct s2 as [|c2 [|c3 s4]]; try (apply IH; simpl; lia).
    destruct (is_octal3 c1 c2 c3); apply IH; simpl; lia.
Qed.

Lemma process_one_fuel ctx : process_one ctx <> OutOfFuel.
Proof.
  unfold process_one. destruct (nth_error _ _) as [arg|]; [|discriminate].
  destruct (negb (tmp_nonopt ctx =? 0)%nat || negb (Ascii.eqb (CStr.char_at arg 0) "-"));
    [apply call_proc_fuel|].
  destruct (Ascii.eqb (CStr.char_at arg 1) "o").
  - destruct (negb (CStr.at_end arg 2)); [apply opts_loop_fuel|].
    destruct (tmp_argctr ctx + 1 <? argc (in_args ctx))%nat; [|discriminate].
    destruct (nth_error _ _); [apply opts_loop_fuel | discriminate].
  - destruct (Ascii.eqb (CStr.char_at arg 1) "-" && CStr.at_end arg 2);
      [|apply process_gopt_fuel].
    unfold fuse_opt_add_arg.
    destruct (argv (out_args ctx)); [destruct (allocated (out_args ctx))|]; simpl; discriminate.
Qed.

(** [fuse_opt_parse] gives its loop one unit of fuel per input argument;
    every turn moves the counter by one at least. *)
Lemma parse_loop_fuel fuel : forall ctx,
  (argc (in_args ctx) - tmp_argctr ctx <= fuel)%nat -> parse_loop fuel ctx <> OutOfFuel.
Proof.
  induction fuel as [|fuel IH]; intros ctx Hf; simpl.
  - destruct (tmp_argctr ctx <? argc (in_args ctx))%nat eqn:E; [|discriminate].
    apply Nat.ltb_lt in E. lia.
  - destruct (tmp_argctr ctx <? argc (in_args ctx))%nat eqn:E; [|discriminate].
    apply Nat.ltb_lt in E.
    pose proof (process_one_fuel ctx) as H1.
    destruct (process_one ctx) as [[r c]| |] eqn:Hp; simpl; try congruence.
    destruct (r =? -1); [discriminate|].
    apply process_one_continues in Hp. destruct Hp as (_ & _ & Ha & Hc & _).
    apply IH. simpl. rewrite Ha. lia.
Qed.

Lemma fuse_opt_parse_fuel args d opts proc : fuse_opt_parse args d opts proc <> OutOfFuel.
Proof.
  unfold fuse_opt_parse. destruct args as [a|]; [|discriminate].
  destruct (argv a) as [[|argv0 rest]|]; try discriminate.
  simpl.
  match goal with |- context [parse_loop ?f ?c] =>
    pose proof (@parse_loop_fuel f c) as H; destruct (parse_loop f c) as [[r c1]| |] end;
    simpl; try discriminate.
  - destruct (r =? -1); [discriminate|].
    unfold finalize, fuse_opt_insert_arg, fuse_opt_insert_arg_common, fuse_opt_add_arg.
    destruct (tmp_opts c1); simpl.
    + repeat match goal with
             | |- context [match ?x with _ => _ end] =>
                 match type of x with
                 | outcome _ => fail 1
                 | _ => destruct x; simpl; try discriminate
                 end
             end.
    + repeat match goal with
             | |- context [if ?x then _ else _] => destruct x; simpl; try discriminate
             end.
  - exfalso. apply H; [simpl; lia | reflexivity].
Qed.

Lemma separator_token arg :
  Ascii.eqb (CStr.char_at arg 0) "-" = true ->
  Ascii.eqb (CStr.char_at arg 1) "-" && CStr.at_end arg 2 = true ->
  arg = "--".
Proof.
  intros H0 H1. apply andb_prop in H1. destruct H1 as [H1 H2].
  apply Ascii.eqb_eq in H0. apply Ascii.eqb_eq in H1.
  destruct arg as [|a [|b [|c rest]]]; simpl in *; try discriminate.
  congruence.
Qed.

(** ** A proof rule for the dispatcher

    A relation between the context before a call, the returned integer and
    the context after it holds of every function of the dispatcher as soon
    as it holds of the steps they are made of and is closed under
    sequencing. *)

Section Stepwise.

Variable R : fuse_opt_context -> Z -> fuse_opt_context -> Prop.

Hypothesis R_stay : forall c r, R c r c.
Hypothesis R_seq : forall c r1 c1 r2 c2,
  R c r1 c1 -> r1 <> -1 -> R c1 r2 c2 -> R c r2 c2.
Hypothesis R_ret : forall c r c' r', R c r c' -> (r = -1 -> r' = -1) -> R c r' c'.
Hypothesis R_call_proc : forall c arg key typ r c',
  call_proc c arg key typ = Done (r, c') -> R c r c'.
Hypothesis R_store : forall c var v, R c 0 (store_field c var v).
Hypothesis R_argctr : forall c, R c 0 (set_argctr c (tmp_argctr c + 1)).
Hypothesis R_separator : forall c,
  let o := mk_args (Some (args_list (out_args c) ++ ["--"])) true in
  R c 0 (set_nonopt (add_log (set_out_args c o) EvSeparator) (argc o)).

Lemma process_opt_param_R c var format param arg r c' :
  process_opt_param c var format param arg = Done (r, c') -> R c r c'.
Proof.
  unfold process_opt_param. intros H.
  destruct (negb (Ascii.eqb (CStr.char_at format 0) "%")); [discriminate|].
  destruct (Ascii.eqb (CStr.char_at format 1) "s"); [inv H; apply R_store|].
  destruct (sscanf param format); inv H; [apply R_store | apply R_stay].
Qed.

Lemma process_opt_R c o sep arg typ r c' :
  process_opt c o sep arg typ = Done (r, c') -> R c r c'.
Proof.
  unfold process_opt, obind. intros H.
  destruct (offset o =? minus_1U).
  - destruct (call_proc c arg (value o) typ) as [[r1 c1]| |] eqn:Hc; try discriminate.
    apply R_call_proc in Hc. destruct (r1 =? -1) eqn:E; inv H.
    + eapply R_ret; [exact Hc | auto].
    + eapply R_ret; [exact Hc |]. intros ->. discriminate.
  - destruct (negb (sep =? 0)%nat && negb (CStr.at_end (templ_str o) (sep + 1))).
    + destruct (process_opt_param c (offset o) _ _ arg) as [[r1 c1]| |] eqn:Hc;
        try discriminate.
      apply process_opt_param_R in Hc. destruct (r1 =? -1) eqn:E; inv H.
      * eapply R_ret; [exact Hc | auto].
      * eapply R_ret; [exact Hc |]. intros ->. discriminate.
    + inv H. apply R_store.
Qed.

Lemma gopt_body_R c o sep arg typ r c' :
  gopt_body c o sep arg typ = Done (r, c') -> R c r c'.
Proof.
  unfold gopt_body. intros H.
  destruct (negb (sep =? 0)%nat && Ascii.eqb (CStr.char_at (templ_str o) sep) " "
            && CStr.at_end arg sep).
  - destruct (argc (in_args c) <=? tmp_argctr c + 1)%nat; [inv H; apply R_stay|].
    cbn [in_args set_argctr tmp_argctr] in H.
    destruct (nth_error (args_list (in_args c)) (tmp_argctr c + 1)); [|discriminate].
    apply process_opt_R in H.
    eapply R_seq; [apply R_argctr | discriminate | exact H].
  - eapply process_opt_R; eassumption.
Qed.

Lemma run_entries_R es : forall c arg typ r c',
  run_entries es c arg typ = Done (r, c') -> R c r c'.
Proof.
  induction es as [|[o sep] es IH]; intros c arg typ r c' H; simpl in H.
  - inv H. apply R_stay.
  - unfold obind in H.
    destruct (gopt_body c o sep arg typ) as [[r1 c1]| |] eqn:Hb; try discriminate.
    apply gopt_body_R in Hb. destruct (r1 =? -1) eqn:E.
    + inv H. eapply R_ret; [exact Hb | auto].
    + eapply R_seq; [exact Hb | | eapply IH; exact H]. intros ->. discriminate.
Qed.

Lemma process_gopt_R c arg typ r c' :
  process_gopt c arg typ = Done (r, c') -> R c r c'.
Proof.
  rewrite process_gopt_entries. destruct (matching (in_opt c) arg).
  - apply R_call_proc.
  - apply run_entries_R.
Qed.

Lemma dispatch_opts_R subs : forall c r c',
  dispatch_opts subs c = Done (r, c') -> R c r c'.
Proof.
  induction subs as [|a subs IH]; intros c r c' H; simpl in H.
  - inv H. apply R_stay.
  - unfold obind in H.
    destruct (process_gopt c a GOPT_OPTION) as [[r1 c1]| |] eqn:Hb; try discriminate.
    apply process_gopt_R in Hb. destruct (r1 =? -1) eqn:E.
    + inv H. eapply R_ret; [exact Hb | auto].
    + eapply R_seq; [exact Hb | | eapply IH; exact H]. intros ->. discriminate.
Qed.

Lemma process_one_R c r c' :
  process_one c = Done (r, c') -> R c r c'.
Proof.
  unfold process_one. intros H.
  destruct (nth_error (args_list (in_args c)) (tmp_argctr c)) as [arg|]; [|discriminate].
  destruct (negb (tmp_nonopt c =? 0)%nat || negb (Ascii.eqb (CStr.char_at arg 0) "-")) eqn:E0.
  { eapply R_call_proc; eassumption. }
  destruct (Ascii.eqb (CStr.char_at arg 1) "o").
  { destruct (negb (CStr.at_end arg 2)).
    - rewrite opts_loop_dispatch in H. eapply dispatch_opts_R; eassumption.
    - destruct (tmp_argctr c + 1 <? argc (in_args c))%nat; [|inv H; apply R_stay].
      cbn [in_args set_argctr tmp_argctr] in H.
      destruct (nth_error (args_list (in_args c)) (tmp_argctr c + 1)); [|discriminate].
      rewrite opts_loop_dispatch in H. apply dispatch_opts_R in H.
      eapply R_seq; [apply R_argctr | discriminate | exact H]. }
  destruct (Ascii.eqb (CStr.char_at arg 1) "-" && CStr.at_end arg 2) eqn:E1.
  { apply orb_false_elim in E0. destruct E0 as [_ E0]. apply negb_false_iff in E0.
    pose proof (separator_token _ E0 E1) as ->.
    unfold obind in H.
    destruct (fuse_opt_add_arg (out_args c) "--") as [[r1 o]| |] eqn:Ha; try discriminate.
    apply add_arg_done in Ha. destruct Ha as [-> ->]. simpl in H. inv H.
    apply R_separator. }
  eapply process_gopt_R; eassumption.
Qed.

Lemma parse_loop_R fuel : forall c r c',
  parse_loop fuel c = Done (r, c') -> R c r c'.
Proof.
  induction fuel as [|fuel IH]; intros c r c' H; simpl in H.
  - destruct (tmp_argctr c <? argc (in_args c))%nat; [discriminate|]. inv H. apply R_stay.
  - destruct (tmp_argctr c <? argc (in_args c))%nat; [|inv H; apply R_stay].
    unfold obind in H. destruct (process_one c) as [[r1 c1]| |] eqn:Hp; try discriminate.
    apply process_one_R in Hp. destruct (r1 =? -1) eqn:E.
    + inv H. eapply R_ret; [exact Hp | auto].
    + apply IH in H.
      eapply R_seq; [exact Hp | | ]. { intros ->. discriminate. }
      eapply R_seq; [apply R_argctr | discriminate | exact H].
Qed.

End Stepwise.

(** ** Aborting callbacks *)

Definition is_abort (e : event) : bool :=
  match e with
  | EvProc _ _ r => r =? -1
  | _ => false
  end.

Definition no_abort (l : list event) : bool := forallb (fun e => negb (is_abort e)) l.

(** In what a call adds to the log, a callback that returned -1 can only
    be the last event, and then the call itself returns -1. *)
Definition abort_is_final (c : fuse_opt_context) (r : Z) (c' : fuse_opt_context) : Prop :=
  exists new, log c' = log c ++ new
              /\ no_abort (removelast new) = true
              /\ (r <> -1 -> no_abort new = true).

Lemma no_abort_app l1 l2 : no_abort (l1 ++ l2) = no_abort l1 && no_abort l2.
Proof. apply forallb_app. Qed.

Lemma no_abort_removelast l : no_abort l = true -> no_abort (removelast l) = true.
Proof.
  induction l as [|e l IH]; [auto|]. simpl. intros H. apply andb_prop in H. destruct H as [He Hl].
  destruct l; [reflexivity|]. simpl in *. rewrite He. simpl. apply IH. exact Hl.
Qed.

Lemma abort_is_final_stay c r : abort_is_final c r c.
Proof. exists []. rewrite app_nil_r. auto. Qed.

Lemma abort_is_final_seq c r1 c1 r2 c2 :
  abort_is_final c r1 c1 -> r1 <> -1 -> abort_is_final c1 r2 c2 -> abort_is_final c r2 c2.
Proof.
  intros (n1 & E1 & _ & H1) Hr (n2 & E2 & L2 & H2). specialize (H1 Hr).
  exists (n1 ++ n2). split; [rewrite E2, E1; now rewrite app_assoc|]. split.
  - destruct n2 as [|e n2]; [rewrite app_nil_r; now apply no_abort_removelast|].
    rewrite removelast_app by discriminate. rewrite no_abort_app, H1, L2. reflexivity.
  - intros H. rewrite no_abort_app, H1, (H2 H). reflexivity.
Qed.

Lemma abort_is_final_ret c r c' r' :
  abort_is_final c r c' -> (r = -1 -> r' = -1) -> abort_is_final c r' c'.
Proof.
  intros (n & E & L & H) Hr. exists n. split; [exact E|]. split; [exact L|].
  intros Hr'. apply H. intros ->. apply Hr'. auto.
Qed.

Lemma abort_is_final_one c e :
  is_abort e = false -> abort_is_final c 0 (add_log c e).
Proof.
  intros He. exists [e]. simpl. rewrite He. auto.
Qed.

Lemma keep_gopt_log ctx arg typ r ctx' :
  keep_gopt ctx arg typ = Done (r, ctx') -> r = 0 /\ log ctx' = log ctx ++ [EvKeep typ arg].
Proof.
  unfold keep_gopt. intros H. destruct typ.
  - unfold obind in H.
    destruct (fuse_opt_add_arg _ arg) as [[r1 o]| |] eqn:Ha; try discriminate.
    apply add_arg_done in Ha. destruct Ha as [-> _]. inv H. auto.
  - inv H. auto.
Qed.

Lemma call_proc_abort_is_final c arg key typ r c' :
  call_proc c arg key typ = Done (r, c') -> abort_is_final c r c'.
Proof.
  unfold call_proc. intros H.
  destruct (key =? FUSE_OPT_KEY_DISCARD); [inv H; apply abort_is_final_stay|].
  destruct (if negb (key =? FUSE_OPT_KEY_KEEP) then in_proc c else None) as [proc|].
  - destruct (proc (inout_data c) arg key (out_args c)) as [[res d] o].
    destruct (res =? -1) eqn:E1; simpl in H.
    + apply Z.eqb_eq in E1. subst res. inv H. exists [EvProc arg key (-1)]. simpl.
      repeat split; auto; try (intros Hn; now elim Hn).
    + destruct (res =? 0).
      * inv H. exists [EvProc arg key r]. simpl. rewrite E1. auto.
      * apply keep_gopt_log in H. destruct H as [-> H].
        exists [EvProc arg key res; EvKeep typ arg]. ctx_simpl. rewrite H, <- app_assoc.
        simpl. rewrite E1. auto.
  - apply keep_gopt_log in H. destruct H as [-> H]. exists [EvKeep typ arg]. auto.
Qed.

Lemma parse_loop_abort_is_final fuel c r c' :
  parse_loop fuel c = Done (r, c') -> abort_is_final c r c'.
Proof.
  apply parse_loop_R.
  - apply abort_is_final_stay.
  - apply abort_is_final_seq.
  - apply abort_is_final_ret.
  - apply call_proc_abort_is_final.
  - intros. unfold store_field. apply (abort_is_final_one (set_data c0 _)). reflexivity.
  - intros. exists []. simpl. rewrite app_nil_r. auto.
  - intros. exists [EvSeparator]. auto.
Qed.

Lemma insert_arg_done args pos arg r o :
  fuse_opt_insert_arg args pos arg = Done (r, o) ->
  r = 0 /\ (pos <= argc args)%nat
  /\ o = mk_args (Some (firstn pos (args_list args) ++ arg :: skipn pos (args_list args))) true.
Proof.
  unfold fuse_opt_insert_arg, fuse_opt_insert_arg_common, obind.
  destruct (argc args <? pos)%nat eqn:E; [discriminate|]. apply Nat.ltb_ge in E.
  destruct (fuse_opt_add_arg args arg) as [[r1 o1]| |] eqn:Ha; try discriminate.
  apply add_arg_done in Ha. destruct Ha as [-> ->]. simpl.
  unfold argc, args_list at 1. simpl. rewrite length_app. simpl.
  destruct (pos =? List.length (args_list args) + 1 - 1)%nat eqn:Ep; simpl; intros H; inv H.
  - apply Nat.eqb_eq in Ep. repeat split; auto.
    replace pos with (List.length (args_list args)) by lia.
    rewrite firstn_all, skipn_all. reflexivity.
  - repeat split; auto.
Qed.

Lemma finalize_log c r c' : finalize c = Done (r, c') -> log c' = log c /\ inout_data c' = inout_data c.
Proof.
  unfold finalize, obind. intros H.
  destruct (tmp_opts c) as [opts|].
  - destruct (fuse_opt_insert_arg (out_args c) 1 "-o") as [[r1 o1]| |]; try discriminate.
    destruct (r1 =? -1); simpl in H.
    + inv H. auto.
    + destruct (fuse_opt_insert_arg o1 2 opts) as [[r2 o2]| |]; try discriminate.
      destruct (r2 =? -1); [inv H; auto|].
      match type of H with (if ?b then _ else _) = _ => destruct b end; inv H; auto.
  - simpl in H.
    match type of H with (if ?b then _ else _) = _ => destruct b end; inv H; auto.
Qed.

Lemma abort_event_is_last (l : list event) (e : event) :
  In e l -> is_abort e = true -> no_abort (removelast l) = true ->
  exists pre, l = pre ++ [e].
Proof.
  intros Hin He Hl. destruct l as [|x l]; [contradiction|].
  assert (Hne : x :: l <> []) by discriminate.
  rewrite (app_removelast_last x Hne) in Hin. apply in_app_or in Hin. destruct Hin as [Hin|Hin].
  - unfold no_abort in Hl. rewrite forallb_forall in Hl. apply Hl in Hin.
    rewrite He in Hin. discriminate.
  - destruct Hin as [<-|[]]. exists (removelast (x :: l)). now apply app_removelast_last.
Qed.

Lemma no_abort_not_in (l : list event) (e : event) :
  no_abort l = true -> is_abort e = true -> ~ In e l.
Proof.
  unfold no_abort. rewrite forallb_forall. intros Hl He Hin. apply Hl in Hin.
  rewrite He in Hin. discriminate.
Qed.

(** ** Output and merged group as functions of the log *)

Definition callback_pure (c : fuse_opt_context) : Prop :=
  forall proc, in_proc c = Some proc -> leaves_out_args proc.

(** With a callback that leaves the output vector alone, what a call adds
    to the output vector and to the merged group can be read off what it
    adds to the log. *)
Definition output_follows_log (c : fuse_opt_context) (r : Z) (c' : fuse_opt_context) : Prop :=
  callback_pure c ->
  exists new,
    log c' = log c ++ new
    /\ in_proc c' = in_proc c
    /\ args_list (out_args c') = args_list (out_args c) ++ out_tokens new
    /\ tmp_opts c' = merge_opts (tmp_opts c) (kept_opts new)
    /\ ((tmp_nonopt c <= argc (out_args c))%nat -> (tmp_nonopt c' <= argc (out_args c'))%nat).

Lemma out_tokens_app l1 l2 : out_tokens (l1 ++ l2) = out_tokens l1 ++ out_tokens l2.
Proof.
  induction l1 as [|e l1 IH]; [reflexivity|]. simpl.
  destruct e as [| | [|] |]; simpl; rewrite IH; reflexivity.
Qed.

Lemma kept_opts_app l1 l2 : kept_opts (l1 ++ l2) = kept_opts l1 ++ kept_opts l2.
Proof.
  induction l1 as [|e l1 IH]; [reflexivity|]. simpl.
  destruct e as [| | [|] |]; simpl; rewrite IH; reflexivity.
Qed.

Lemma merge_opts_app acc l1 l2 : merge_opts acc (l1 ++ l2) = merge_opts (merge_opts acc l1) l2.
Proof. apply fold_left_app. Qed.

Lemma output_follows_log_stay c r : output_follows_log c r c.
Proof.
  intros _. exists []. rewrite !app_nil_r. simpl. auto.
Qed.

Lemma output_follows_log_seq c r1 c1 r2 c2 :
  output_follows_log c r1 c1 -> r1 <> -1 -> output_follows_log c1 r2 c2 ->
  output_follows_log c r2 c2.
Proof.
  intros H1 _ H2 Hp. destruct (H1 Hp) as (n1 & L1 & P1 & O1 & M1 & N1).
  assert (Hp1 : callback_pure c1) by (unfold callback_pure; rewrite P1; exact Hp).
  destruct (H2 Hp1) as (n2 & L2 & P2 & O2 & M2 & N2).
  exists (n1 ++ n2). rewrite out_tokens_app, kept_opts_app, merge_opts_app.
  repeat split.
  - rewrite L2, L1. now rewrite app_assoc.
  - congruence.
  - rewrite O2, O1. now rewrite app_assoc.
  - rewrite M2, M1. reflexivity.
  - auto.
Qed.

Lemma output_follows_log_ret c r c' r' :
  output_follows_log c r c' -> (r = -1 -> r' = -1) -> output_follows_log c r' c'.
Proof. intros H _. exact H. Qed.

Lemma keep_gopt_output c arg typ r c' :
  keep_gopt c arg typ = Done (r, c') ->
  log c' = log c ++ [EvKeep typ arg]
  /\ in_proc c' = in_proc c
  /\ args_list (out_args c') = args_list (out_args c) ++ out_tokens [EvKeep typ arg]
  /\ tmp_opts c' = merge_opts (tmp_opts c) (kept_opts [EvKeep typ arg])
  /\ tmp_nonopt c' = tmp_nonopt c.
Proof.
  unfold keep_gopt. intros H. destruct typ.
  - unfold obind in H.
    destruct (fuse_opt_add_arg _ arg) as [[r1 o]| |] eqn:Ha; try discriminate.
    apply add_arg_done in Ha. destruct Ha as [-> ->]. inv H. simpl. auto.
  - inv H. simpl. rewrite app_nil_r. auto.
Qed.

Lemma call_proc_output_follows_log c arg key typ r c' :
  call_proc c arg key typ = Done (r, c') -> output_follows_log c r c'.
Proof.
  unfold call_proc. intros H Hp.
  destruct (key =? FUSE_OPT_KEY_DISCARD); [inv H; now apply output_follows_log_stay|].
  assert (Hk : forall c0 new0,
             log c0 = log c ++ new0 -> in_proc c0 = in_proc c ->
             out_args c0 = out_args c -> tmp_opts c0 = tmp_opts c ->
             tmp_nonopt c0 = tmp_nonopt c ->
             out_tokens new0 = [] -> kept_opts new0 = [] ->
             keep_gopt c0 arg typ = Done (r, c') ->
             exists new,
               log c' = log c ++ new /\ in_proc c' = in_proc c
               /\ args_list (out_args c') = args_list (out_args c) ++ out_tokens new
               /\ tmp_opts c' = merge_opts (tmp_opts c) (kept_opts new)
               /\ ((tmp_nonopt c <= argc (out_args c))%nat ->
                   (tmp_nonopt c' <= argc (out_args c'))%nat)).
  { intros c0 new0 L0 P0 O0 M0 N0 T0 K0 Hkeep.
    apply keep_gopt_output in Hkeep. destruct Hkeep as (L & P & O & M & N).
    exists (new0 ++ [EvKeep typ arg]). rewrite out_tokens_app, kept_opts_app, T0, K0.
    rewrite L, L0, P, P0, O, O0, M, M0, N, N0. simpl app.
    split; [now rewrite app_assoc|]. repeat split; auto.
    unfold argc. rewrite O, O0, length_app. lia. }
  destruct (if negb (key =? FUSE_OPT_KEY_KEEP) then in_proc c else None) as [proc|] eqn:Hproc.
  - assert (Hin : in_proc c = Some proc).
    { destruct (negb (key =? FUSE_OPT_KEY_KEEP)); [exact Hproc | discriminate]. }
    pose proof (Hp _ Hin (inout_data c) arg key (out_args c)) as Hpure.
    destruct (proc (inout_data c) arg key (out_args c)) as [[res d] o]. simpl in Hpure. subst o.
    destruct ((res =? -1) || (res =? 0)).
    + inv H. exists [EvProc arg key r]. simpl. rewrite app_nil_r. auto.
    + eapply (Hk _ [EvProc arg key res]); [| | | | | | | exact H]; reflexivity.
  - eapply (Hk c []); [| | | | | | | exact H]; try reflexivity. now rewrite app_nil_r.
Qed.

Lemma parse_loop_output_follows_log fuel c r c' :
  parse_loop fuel c = Done (r, c') -> output_follows_log c r c'.
Proof.
  apply parse_loop_R.
  - apply output_follows_log_stay.
  - apply output_follows_log_seq.
  - apply output_follows_log_ret.
  - apply call_proc_output_follows_log.
  - intros c0 var v _. exists [EvStore var v]. simpl. rewrite app_nil_r. auto.
  - intros c0 _. exists []. simpl. rewrite !app_nil_r. auto.
  - intros c0 o _. exists [EvSeparator]. simpl. repeat split; auto.
Qed.

Lemma merge_opts_none ks : merge_opts None ks = None -> ks = [].
Proof.
  destruct ks as [|k ks]; [reflexivity|]. unfold merge_opts. simpl.
  assert (H : forall l s, fold_left (fun acc k => add_opt_common acc k true) l (Some s) <> None).
  { induction l as [|x l IH]; intros s; simpl; [discriminate|]. apply IH. }
  intros E. exfalso. exact (H _ _ E).
Qed.

Lemma finalize_done c r c' :
  finalize c = Done (r, c') ->
  r = 0 /\ log c' = log c /\ inout_data c' = inout_data c
  /\ (tmp_opts c <> None -> allocated (out_args c') = true)
  /\ args_list (out_args c') = finalized (tmp_opts c) (tmp_nonopt c) (args_list (out_args c)).
Proof.
  unfold finalize, finalized, obind. intros H.
  destruct (tmp_opts c) as [opts|].
  - destruct (fuse_opt_insert_arg (out_args c) 1 "-o") as [[r1 o1]| |] eqn:H1; try discriminate.
    apply insert_arg_done in H1. destruct H1 as (-> & _ & ->).
    change (0 =? -1) with false in H. cbv iota in H.
    destruct (fuse_opt_insert_arg _ 2 opts) as [[r2 o2]| |] eqn:H2; try discriminate.
    apply insert_arg_done in H2. destruct H2 as (-> & _ & ->).
    change (0 =? -1) with false in H. cbv iota in H.
    unfold argc, args_list in *. cbn [out_args set_out_args tmp_nonopt argv allocated] in H.
    match type of H with (if ?b then _ else _) = _ => destruct b end; inv H;
      cbn [out_args set_out_args log inout_data argv allocated]; repeat split; auto.
  - change (0 =? -1) with false in H. cbv iota in H. unfold argc in H.
    match type of H with (if ?b then _ else _) = _ => destruct b eqn:E end; inv H;
      cbn [out_args set_out_args log inout_data argv allocated args_list];
      repeat split; auto; try congruence.
Qed.

Lemma merge_opts_some s ks : exists m, merge_opts (Some s) ks = Some m.
Proof.
  revert s. induction ks as [|k ks IH]; intros s; simpl; [eauto|]. apply IH.
Qed.

Lemma merge_opts_joined s ks :
  s <> EmptyString ->
  merge_opts (Some s) ks
  = Some (fold_left (fun acc k => acc ++ "," ++ escape_into true k)%string ks s).
Proof.
  revert s. induction ks as [|k ks IH]; intros s Hs; [reflexivity|].
  unfold merge_opts. simpl. unfold add_opt_common at 1.
  destruct s as [|c s]; [congruence|]. simpl (String.length _ =? 0)%nat. cbv iota.
  apply (IH (String c s ++ "," ++ escape_into true k)%string). discriminate.
Qed.

Lemma concat_fold_left (k : string) (ks : list string) :
  fold_left (fun acc k => acc ++ "," ++ k)%string ks k = String.concat "," (k :: ks).
Proof.
  revert k. induction ks as [|k' ks IH]; intros k; [reflexivity|].
  simpl fold_left. rewrite IH. cbn [String.concat].
  destruct ks; [reflexivity|]. rewrite !string_app_assoc. reflexivity.
Qed.

Lemma fold_left_escape (s : string) (ks : list string) :
  fold_left (fun acc k => acc ++ "," ++ escape_into true k)%string ks s
  = fold_left (fun acc k => acc ++ "," ++ k)%string (map (escape_into true) ks) s.
Proof.
  revert s. induction ks as [|k ks IH]; intros s; [reflexivity|]. simpl. apply IH.
Qed.

Lemma escape_into_empty esc k : escape_into esc k = EmptyString -> k = EmptyString.
Proof.
  destruct k as [|c k]; [reflexivity|]. simpl.
  destruct (esc && (Ascii.eqb c "," || Ascii.eqb c "\")); discriminate.
Qed.

Lemma merge_opts_drop_empty ks :
  ks <> [] ->
  merge_opts None ks = Some (String.concat "," (map (escape_into true) (drop_empty ks))).
Proof.
  assert (Hj : forall k ks,
             k <> EmptyString ->
             merge_opts (Some (escape_into true k)) ks
             = Some (String.concat "," (map (escape_into true) (k :: ks)))).
  { intros k ks0 Hk. rewrite merge_opts_joined.
    - rewrite fold_left_escape, concat_fold_left. reflexivity.
    - intros E. apply escape_into_empty in E. contradiction. }
  assert (Hs : forall ks, merge_opts (Some EmptyString) ks
                          = Some (String.concat "," (map (escape_into true) (drop_empty ks)))).
  { induction ks0 as [|k ks0 IH]; [reflexivity|].
    destruct k as [|c k]; [exact IH|].
    change (merge_opts (Some EmptyString) (String c k :: ks0))
      with (merge_opts (Some (escape_into true (String c k))) ks0).
    apply Hj. discriminate. }
  destruct ks as [|k ks]; [congruence|]. intros _.
  destruct k as [|c k]; [exact (Hs ks)|].
  change (merge_opts None (String c k :: ks))
    with (merge_opts (Some (escape_into true (String c k))) ks).
  apply Hj. discriminate.
Qed.

(** *** Decoding undoes the escaping *)

Lemma is_octal3_escaped c b1 b2 :
  (Ascii.eqb c "," || Ascii.eqb c "\")%char = true -> is_octal3 c b1 b2 = false.
Proof.
  intros H. apply orb_prop in H. destruct H as [H|H]; apply Ascii.eqb_eq in H; subst c;
    reflexivity.
Qed.

Lemma unescape_escape k : forall rest,
  unescape (escape_into true k ++ rest)
  = map Byte (list_ascii_of_string k) ++ unescape rest.
Proof.
  induction k as [|c k IH]; intros rest; [reflexivity|].
  cbn [escape_into andb list_ascii_of_string map app].
  destruct (Ascii.eqb c "," || Ascii.eqb c "\")%char eqn:E.
  - cbn [String.append unescape]. change (Ascii.eqb "\" ",") with false.
    change (Ascii.eqb "\" "\") with true. cbv iota.
    assert (Hb : Byte c :: unescape (escape_into true k ++ rest)
                 = Byte c :: map Byte (list_ascii_of_string k) ++ unescape rest)
      by (now rewrite IH).
    destruct (escape_into true k ++ rest)%string as [|c2 [|c3 s4]]; try exact Hb.
    rewrite (is_octal3_escaped _ c2 c3 E). exact Hb.
  - apply orb_false_elim in E. destruct E as [E1 E2].
    cbn [String.append unescape]. rewrite E1, E2. now rewrite IH.
Qed.

Lemma split_items_bytes l : forall cur items,
  split_items cur (map Byte l ++ items)
  = split_items (cur ++ string_of_list_ascii l) items.
Proof.
  induction l as [|c l IH]; intros cur items; simpl.
  - now rewrite string_app_nil_r.
  - rewrite IH. unfold CStr.snoc. now rewrite string_app_assoc.
Qed.

Lemma sub_options_joined k ks :
  Forall nul_free (k :: ks) ->
  sub_options (String.concat "," (map (escape_into true) (k :: ks))) = k :: ks.
Proof.
  revert k. induction ks as [|k' ks IH]; intros k Hn.
  - inv Hn. unfold sub_options. cbn [map String.concat].
    rewrite <- (string_app_nil_r (escape_into true k)), unescape_escape.
    cbn [unescape]. rewrite split_items_bytes. cbn [split_items map String.append].
    rewrite string_of_list_ascii_of_string. now rewrite H1.
  - inv Hn. specialize (IH k' H2). unfold sub_options in *.
    cbn [map String.concat] in *.
    rewrite unescape_escape. cbn [String.append unescape].
    change (Ascii.eqb "," ",") with true. cbv iota.
    rewrite split_items_bytes. cbn [split_items map String.append].
    rewrite string_of_list_ascii_of_string, H1. f_equal. exact IH.
Qed.

(** ** The claims *)

(** C9.  A call with a null [args], a null [argv] or no argument at all
    returns 0 at once: the caller's [args] and record come back as they
    were, the log is empty (no callback invocation, no store), and the
    result does not depend on the spec table or on the callback. *)
Theorem parse_nothing_to_do (args : option fuse_args) (d : data)
    (opts : list fuse_opt) (proc : option fuse_opt_proc_t) :
  (args = None \/ (exists a, args = Some a /\ (argv a = None \/ argc a = 0%nat))) ->
  fuse_opt_parse args d opts proc = Done (mk_result 0 args d []).
Proof.
  intros [->|(a & -> & H)]; [reflexivity|].
  unfold fuse_opt_parse, argc, args_list in *.
  destruct (argv a) as [[|argv0 rest]|]; try reflexivity.
  destruct H as [H|H]; discriminate.
Qed.

(** C10.  For the reserved keys [call_proc] does not call the callback:
    with DISCARD it returns 0 and leaves the context as it is, so that the
    token is dropped; with KEEP it goes straight to keeping the token: a
    flag-style token becomes the last string of the output vector, and a
    sub-option is added to the merged group, its commas and backslashes
    escaped, behind a comma when the group is not empty; nothing but that
    and the log changes.  The same holds of an entry without destination
    that carries such a key. *)
Theorem reserved_keys_bypass_callback (ctx : fuse_opt_context) (arg : string) :
  (forall typ, call_proc ctx arg FUSE_OPT_KEY_DISCARD typ = Done (0, ctx))
  /\ call_proc ctx arg FUSE_OPT_KEY_KEEP GOPT_FLAG
     = (match argv (out_args ctx), allocated (out_args ctx) with
        | Some _, false => Abort
        | _, _ => Done (0, set_out_args (add_log ctx (EvKeep GOPT_FLAG arg))
                             (mk_args (Some (args_list (out_args ctx) ++ [arg])) true))
        end)
  /\ (let old := match tmp_opts ctx with Some s => s | None => EmptyString end in
      call_proc ctx arg FUSE_OPT_KEY_KEEP GOPT_OPTION
      = Done (0, set_opts (add_log ctx (EvKeep GOPT_OPTION arg))
                          (Some (old
                                 ++ (if (String.length old =? 0)%nat then EmptyString else ",")
                                 ++ escape_into true arg)%string)))
  /\ (forall o sep typ, offset o = minus_1U -> value o = FUSE_OPT_KEY_DISCARD ->
        process_opt ctx o sep arg typ = Done (0, ctx))
  /\ (forall o sep typ, offset o = minus_1U -> value o = FUSE_OPT_KEY_KEEP ->
        process_opt ctx o sep arg typ = call_proc ctx arg FUSE_OPT_KEY_KEEP typ).
Proof.
  assert (Hkd : (FUSE_OPT_KEY_KEEP =? FUSE_OPT_KEY_DISCARD) = false).
  { apply Z.eqb_neq. pose proof reserved_keys_distinct as H.
    inv H. inv H3. inv H4. intros E. apply H3. rewrite E. now left. }
  assert (Hd : forall typ, call_proc ctx arg FUSE_OPT_KEY_DISCARD typ = Done (0, ctx)).
  { intros typ. unfold call_proc. now rewrite Z.eqb_refl. }
  assert (Hk : forall typ, call_proc ctx arg FUSE_OPT_KEY_KEEP typ = keep_gopt ctx arg typ).
  { intros typ. unfold call_proc. rewrite Hkd, Z.eqb_refl. reflexivity. }
  split; [exact Hd|]. split; [|split; [|split]].
  - rewrite Hk. unfold keep_gopt, fuse_opt_add_arg, obind.
    cbn [out_args add_log].
    destruct (argv (out_args ctx)), (allocated (out_args ctx)); reflexivity.
  - intros old. rewrite Hk. reflexivity.
  - intros o sep typ Ho Hv. unfold process_opt. rewrite Ho, Z.eqb_refl, Hv, Hd. reflexivity.
  - intros o sep typ Ho Hv. unfold process_opt. rewrite Ho, Z.eqb_refl, Hv, Hk.
    unfold obind. destruct (keep_gopt ctx arg typ) as [[r c]| |] eqn:E; try reflexivity.
    apply keep_gopt_log in E. destruct E as [-> _]. reflexivity.
Qed.

(** C1 (amended).  When [call_proc] calls the callback, a return of
    exactly -1 makes it return -1, 0 makes it return 0 with nothing kept,
    and any other value, negative ones included, keeps the token: a
    flag-style token becomes the last string of the output vector, which
    is from then on allocated; a sub-option is added to the merged group,
    with its commas and backslashes escaped, behind a comma when the group
    is not empty.  Over a whole parse, a callback return of -1 is the last
    event of the log, and the parse then returns -1 and leaves the
    caller's [args] as they were. *)
Theorem callback_return_is_ternary :
  (forall ctx arg key typ proc res d o,
     key <> FUSE_OPT_KEY_DISCARD -> key <> FUSE_OPT_KEY_KEEP ->
     in_proc ctx = Some proc ->
     proc (inout_data ctx) arg key (out_args ctx) = (res, d, o) ->
     let ctx1 := add_log (set_out_args (set_data ctx d) o) (EvProc arg key res) in
     let old := match tmp_opts ctx with Some s => s | None => EmptyString end in
     call_proc ctx arg key typ =
       if res =? -1 then Done (-1, ctx1)
       else if res =? 0 then Done (0, ctx1)
       else match typ with
            | GOPT_FLAG =>
                match argv o, allocated o with
                | Some _, false => Abort
                | _, _ =>
                    Done (0, set_out_args (add_log ctx1 (EvKeep GOPT_FLAG arg))
                                          (mk_args (Some (args_list o ++ [arg])) true))
                end
            | GOPT_OPTION =>
                Done (0, set_opts (add_log ctx1 (EvKeep GOPT_OPTION arg))
                                  (Some (old
                                         ++ (if (String.length old =? 0)%nat
                                             then EmptyString else ",")
                                         ++ escape_into true arg)%string))
            end)
  /\
  (forall args d opts proc r,
     fuse_opt_parse args d opts proc = Done r ->
     forall a k, In (EvProc a k (-1)) (res_log r) ->
       res_code r = -1 /\ res_args r = args /\ exists pre, res_log r = pre ++ [EvProc a k (-1)]).
Proof.
  split.
  - intros ctx arg key typ proc res d o Hd Hk Hp Hr ctx1 old. unfold call_proc.
    apply Z.eqb_neq in Hd, Hk. rewrite Hd, Hk. cbn [negb]. rewrite Hp, Hr.
    destruct (res =? -1) eqn:E1; [apply Z.eqb_eq in E1; subst res; reflexivity|].
    destruct (res =? 0) eqn:E0; [apply Z.eqb_eq in E0; subst res; reflexivity|]. cbn [orb].
    unfold keep_gopt. destruct typ.
    + unfold fuse_opt_add_arg, obind.
      cbn [out_args add_log set_out_args set_data].
      destruct (argv o), (allocated o); reflexivity.
    + reflexivity.
  - intros args d opts proc r Hparse a k Hin.
    unfold fuse_opt_parse in Hparse.
    destruct args as [args0|]; [|inv Hparse; contradiction].
    destruct (argv args0) as [[|argv0 rest]|] eqn:Hargv; try (inv Hparse; contradiction).
    unfold obind in Hparse.
    cbn [in_opt in_proc in_args inout_data out_args tmp_argctr tmp_opts tmp_nonopt log
         set_data set_out_args set_argctr set_opts set_nonopt add_log store_field
         fst snd] in *.
    destruct (fuse_opt_add_arg args_zero argv0) as [[r0 o0]| |] eqn:Ha; try discriminate.
    apply add_arg_done in Ha. destruct Ha as [-> ->]. simpl in Hparse.
    match type of Hparse with
    | context [parse_loop ?f ?c] => destruct (parse_loop f c) as [[r1 c1]| |] eqn:Hl
    end; try discriminate.
    apply parse_loop_abort_is_final in Hl. destruct Hl as (new & Hlog & Hlast & Hok).
    simpl in Hlog. subst new.
    destruct (r1 =? -1) eqn:E1.
    + inv Hparse. simpl in *.
      repeat split; auto. eapply abort_event_is_last; eauto.
    + apply Z.eqb_neq in E1. specialize (Hok E1).
      assert (Hnot : ~ In (EvProc a k (-1)) (log c1)).
      { apply no_abort_not_in; auto. }
      destruct (finalize c1) as [[r2 c2]| |] eqn:Hf; try discriminate.
      apply finalize_log in Hf. destruct Hf as [Hf _].
      destruct (r2 =? -1); inv Hparse; simpl in Hin; rewrite Hf in Hin; contradiction.
Qed.

Lemma decode_opts_two_pass s : forall d,
  decode_opts s d = map CStr.until_nul (split_items d (unescape s)).
Proof.
  induction s as [s IH] using string_strong_ind.
  intros d. destruct s as [|c s1]; simpl; [reflexivity|].
  destruct (Ascii.eqb c ",").
  - simpl. f_equal. apply IH. simpl; lia.
  - destruct (Ascii.eqb c "\").
    + destruct s1 as [|c1 s2]; [reflexivity|].
      destruct s2 as [|c2 [|c3 s4]].
      * cbn [split_items]. apply IH. simpl; lia.
      * cbn [split_items]. apply IH. simpl; lia.
      * destruct (is_octal3 c1 c2 c3); cbn [split_items]; apply IH; simpl; lia.
    + simpl. apply IH. simpl; lia.
Qed.

Lemma is_octal3_spec a b c :
  is_octal3 a b c = true <->
  (48 <= nat_of_ascii a <= 51 /\ 48 <= nat_of_ascii b <= 55 /\ 48 <= nat_of_ascii c <= 55)%nat.
Proof.
  unfold is_octal3. rewrite !andb_true_iff, !Nat.leb_le. tauto.
Qed.

Lemma octal3_value a b c :
  is_octal3 a b c = true ->
  nat_of_ascii (octal3 a b c)
  = ((nat_of_ascii a - 48) * 64 + (nat_of_ascii b - 48) * 8 + (nat_of_ascii c - 48))%nat.
Proof.
  intros H. apply is_octal3_spec in H. unfold octal3. apply nat_ascii_embedding. lia.
Qed.

(** C4 (amended).  The "-o" loop hands to [process_gopt], one at a time
    and in order, the sub-options obtained by resolving the escapes of the
    value and splitting the result at the unescaped commas.  A backslash
    followed by three octal digits, the first of them 0 to 3, stands for
    the byte with that octal value; a backslash followed by anything else
    stands for the byte that follows it (so for [,] and for a backslash);
    a backslash that ends the value stands for itself.  A sub-option
    reaches [process_gopt] up to its first NUL byte.  The value
    [a\,b,c] gives the two sub-options [a,b] and [c]. *)
Theorem group_value_decoding :
  (forall v ctx, opts_loop v EmptyString ctx = dispatch_opts (sub_options v) ctx)
  /\ (forall a b c s,
        is_octal3 a b c = true ->
        unescape (String "\" (String a (String b (String c s))))
        = Byte (octal3 a b c) :: unescape s
        /\ nat_of_ascii (octal3 a b c)
           = ((nat_of_ascii a - 48) * 64 + (nat_of_ascii b - 48) * 8
              + (nat_of_ascii c - 48))%nat)
  /\ (forall c s,
        (c = "," \/ c = "\")%char ->
        unescape (String "\" (String c s)) = Byte c :: unescape s)
  /\ (forall s, unescape (String "," s) = Comma :: unescape s)
  /\ (forall c s,
        c <> ","%char -> c <> "\"%char -> unescape (String c s) = Byte c :: unescape s)
  /\ sub_options "a\,b,c" = ["a,b"; "c"].
Proof.
  split; [|split; [|split; [|split; [|split]]]].
  - intros v ctx. rewrite opts_loop_dispatch, decode_opts_two_pass. reflexivity.
  - intros a b c s H. split; [|now apply octal3_value].
    simpl. rewrite H. reflexivity.
  - intros c s [->| ->]; simpl.
    + destruct s as [|c2 [|c3 s4]]; reflexivity.
    + destruct s as [|c2 [|c3 s4]]; reflexivity.
  - reflexivity.
  - intros c s Hc Hb. apply Ascii.eqb_neq in Hc, Hb. simpl. rewrite Hc, Hb. reflexivity.
  - reflexivity.
Qed.

Lemma args_of_list (o : fuse_args) (l : list string) :
  args_list o = l -> l <> [] -> allocated o = true -> o = mk_args (Some l) true.
Proof.
  destruct o as [[l'|] al]; unfold args_list; simpl; intros E Hl Ha; subst; congruence.
Qed.

Lemma finalized_merged m n prog toks :
  (n <= S (List.length toks))%nat ->
  finalized (Some m) n (prog :: toks) = prog :: "-o" :: m :: toks.
Proof.
  intros Hn. unfold finalized. cbn [firstn skipn app List.length].
  replace (n =? S (S (S (List.length toks))))%nat with false
    by (symmetry; apply Nat.eqb_neq; lia).
  rewrite andb_false_r. reflexivity.
Qed.

Lemma fuse_opt_parse_unfold a d opts proc argv0 rest :
  argv a = Some (argv0 :: rest) ->
  fuse_opt_parse (Some a) d opts proc =
  let* (r, c) := parse_loop (argc a) (loop_entry a d opts proc argv0) in
  if r =? -1 then Done (mk_result (-1) (Some a) (inout_data c) (log c))
  else
    let* (r, c) := finalize c in
    if r =? -1 then Done (mk_result (-1) (Some a) (inout_data c) (log c))
    else Done (mk_result 0 (Some (out_args c)) (inout_data c) (log c)).
Proof.
  intros Ha. unfold fuse_opt_parse. rewrite Ha. reflexivity.
Qed.

(** What [fuse_opt_parse] does after its first test, when there is an
    [argv[0]]. *)
Lemma fuse_opt_parse_run a d opts proc r argv0 rest :
  argv a = Some (argv0 :: rest) ->
  fuse_opt_parse (Some a) d opts proc = Done r ->
  exists r1 c1,
    parse_loop (argc a) (loop_entry a d opts proc argv0) = Done (r1, c1)
    /\ ((r1 = -1 /\ r = mk_result (-1) (Some a) (inout_data c1) (log c1))
        \/ (r1 <> -1 /\ exists c2, finalize c1 = Done (0, c2)
                                   /\ r = mk_result 0 (Some (out_args c2))
                                                    (inout_data c2) (log c2))).
Proof.
  intros Ha H. rewrite (@fuse_opt_parse_unfold a d opts proc argv0 rest Ha) in H. unfold obind in H.
  destruct (parse_loop (argc a) (loop_entry a d opts proc argv0)) as [[r1 c1]| |] eqn:Hl;
    try discriminate.
  exists r1, c1. split; [reflexivity|].
  destruct (r1 =? -1) eqn:E.
  - left. apply Z.eqb_eq in E. inv H. auto.
  - right. apply Z.eqb_neq in E. split; [exact E|].
    destruct (finalize c1) as [[r2 c2]| |] eqn:Hf; try discriminate.
    pose proof (finalize_done _ Hf) as (-> & _). change (0 =? -1) with false in H.
    inv H. eauto.
Qed.

(** C2 (amended).  With a callback that leaves the output vector alone,
    a successful parse that kept at least one sub-option yields the
    program name, then "-o", then one string, then the tokens appended
    during the parse (kept flag-style and positional tokens, and "--"):
    nothing else.  The string is the comma-joined list of the kept
    sub-options of all groups, in order, each with its commas and
    backslashes escaped, except that empty sub-options kept before the
    first non-empty one are left out.  Decoding such a string gives the
    sub-options back. *)
Theorem merged_group_emitted_once :
  (forall a d opts proc r,
     (forall p, proc = Some p -> leaves_out_args p) ->
     fuse_opt_parse (Some a) d opts proc = Done r -> res_code r = 0 ->
     kept_opts (res_log r) <> [] ->
     exists prog,
       nth_error (args_list a) 0 = Some prog
       /\ res_args r
          = Some (mk_args
                    (Some (prog :: "-o"
                           :: String.concat ","
                                (map (escape_into true) (drop_empty (kept_opts (res_log r))))
                           :: out_tokens (res_log r))) true))
  /\ (forall k ks,
        Forall nul_free (k :: ks) ->
        sub_options (String.concat "," (map (escape_into true) (k :: ks))) = k :: ks).
Proof.
  split; [|exact sub_options_joined].
  intros a d opts proc r Hpure Hparse Hcode Hkept.
  destruct (argv a) as [[|argv0 rest]|] eqn:Ha;
    try (unfold fuse_opt_parse in Hparse; rewrite Ha in Hparse; inv Hparse;
         simpl in Hkept; congruence).
  destruct (@fuse_opt_parse_run a d opts proc r argv0 rest Ha Hparse)
    as (r1 & c1 & Hl & [[-> ->]|(Hr1 & c2 & Hf & ->)]);
    [simpl in Hcode; discriminate|].
  exists argv0. split; [unfold args_list; rewrite Ha; reflexivity|].
  cbn [res_log res_args] in *. unfold loop_entry in Hl.
  apply parse_loop_output_follows_log in Hl.
  destruct Hl as (new & L & _ & O & M & N); [intros p Hp; apply Hpure; exact Hp|].
  ctx_simpl. change (args_list (mk_args (Some [argv0]) true)) with [argv0] in O.
  specialize (N (Nat.le_0_l _)). simpl in L. subst new.
  pose proof (finalize_done _ Hf) as (_ & L2 & _ & Al & O2).
  rewrite L2 in *. rewrite M, merge_opts_drop_empty in * by exact Hkept.
  rewrite O in O2. cbn [app] in O2. rewrite finalized_merged in O2.
  - f_equal. apply args_of_list; [exact O2 | discriminate | apply Al; discriminate].
  - unfold argc in N. rewrite O in N. simpl in N. lia.
Qed.

Lemma matching_entries optspecs arg :
  map fst (matching optspecs arg) = filter (matches arg) (entries optspecs).
Proof.
  induction optspecs as [|o rest IH]; simpl; [reflexivity|].
  destruct (templ o) as [t|] eqn:Ht; [|reflexivity].
  simpl. unfold matches at 1. rewrite Ht.
  destruct (match_template t arg); simpl; [f_equal|]; exact IH.
Qed.

Lemma matching_sep optspecs arg o sep :
  In (o, sep) (matching optspecs arg) ->
  exists t, templ o = Some t /\ match_template t arg = Some sep.
Proof.
  induction optspecs as [|o' rest IH]; simpl; [contradiction|].
  destruct (templ o') as [t|] eqn:Ht; [|contradiction].
  destruct (match_template t arg) as [sep'|] eqn:Hm; [|exact IH].
  intros [E|Hin]; [|exact (IH Hin)]. inv E. eauto.
Qed.

Lemma char_at_drop n : forall s i, CStr.char_at (CStr.drop n s) i = CStr.char_at s (n + i).
Proof.
  induction n as [|n IH]; intros s i; [reflexivity|].
  destruct s as [|c s]; simpl; [destruct i; reflexivity|]. apply IH.
Qed.

Lemma match_template_valid t arg sep :
  match_template t arg = Some sep -> (sep =? 0)%nat = false ->
  CStr.at_end t (sep + 1) = false ->
  Ascii.eqb (CStr.char_at t (sep + 1)) "%" = true.
Proof.
  unfold match_template. intros H Hs He.
  destruct (match CStr.strchr t "=" with Some i => Some i | None => CStr.strchr t " " end)
    as [i|].
  - destruct (negb (CStr.at_end t (i + 1)) && negb (Ascii.eqb (CStr.char_at t (i + 1)) "%"))
      eqn:Hv.
    + destruct (String.eqb t arg); inv H. discriminate.
    + destruct ((if Ascii.eqb (CStr.char_at t i) "=" then S i else i) <=? String.length arg)%nat;
        [destruct (CStr.strncmp_eq arg t _)|]; simpl in H;
        try (destruct (String.eqb t arg); inv H; discriminate).
      inv H. rewrite He in Hv. simpl in Hv. now apply negb_false_iff in Hv.
  - destruct (String.eqb t arg); inv H. discriminate.
Qed.

(** C5 (amended).  [find_opt] returns the first entry that matches, with
    what follows it in the table, and [process_gopt] goes on from there
    after it has processed the entry: it runs the loop body on the
    matching entries of the table, each once, in table order, until one
    of them returns -1.  When exactly two entries match a token, the first
    with a destination: if the token holds its value itself and the
    second entry carries a key, then, when the first has no value to
    convert or the conversion succeeds, the field is written once and
    [call_proc] is then called once, with that key, and when the
    conversion fails [process_gopt] returns -1 at once, nothing written
    and the second entry not processed; if the token is the bare name of
    a space-separator template for both entries and one argument only
    follows it, the first entry takes that argument for its value, the
    second finds none, and [process_gopt] returns -1 without processing
    it. *)
Theorem lookup_resumes_after_match :
  (forall optspecs arg,
     match find_opt optspecs arg with
     | Some (opt, sep) =>
         exists o next, opt = o :: next
                        /\ matching optspecs arg = (o, sep) :: matching next arg
     | None => matching optspecs arg = []
     end)
  /\ (forall optspecs arg,
        map fst (matching optspecs arg) = filter (matches arg) (entries optspecs))
  /\ (forall ctx arg typ,
        process_gopt ctx arg typ =
        match matching (in_opt ctx) arg with
        | [] => call_proc ctx arg FUSE_OPT_KEY_OPT typ
        | es => run_entries es ctx arg typ
        end)
  /\ (forall ctx arg typ e1 s1 e2 s2,
        matching (in_opt ctx) arg = [(e1, s1); (e2, s2)] ->
        offset e1 <> minus_1U -> offset e2 = minus_1U ->
        bare_space arg (e1, s1) = false -> bare_space arg (e2, s2) = false ->
        let t := templ_str e1 in
        let stored :=
          if negb (s1 =? 0)%nat && negb (CStr.at_end t (s1 + 1)) then
            let param :=
              CStr.drop (if Ascii.eqb (CStr.char_at t s1) "=" then S s1 else s1) arg in
            if Ascii.eqb (CStr.char_at (CStr.drop (s1 + 1) t) 1) "s" then Some (FStr param)
            else match sscanf param (CStr.drop (s1 + 1) t) with
                 | Some v => Some (FScan v)
                 | None => None
                 end
          else Some (FInt (value e1)) in
        process_gopt ctx arg typ =
        match stored with
        | Some v =>
            let* (r, c) := call_proc (store_field ctx (offset e1) v) arg (value e2) typ in
            Done ((if r =? -1 then -1 else 0), c)
        | None => Done (-1, ctx)
        end)
  /\ (forall ctx arg typ e1 s1 e2 s2 val,
        matching (in_opt ctx) arg = [(e1, s1); (e2, s2)] ->
        offset e1 <> minus_1U ->
        bare_space arg (e1, s1) = true -> bare_space arg (e2, s2) = true ->
        nth_error (args_list (in_args ctx)) (tmp_argctr ctx + 1) = Some val ->
        (argc (in_args ctx) <= tmp_argctr ctx + 2)%nat ->
        let t := templ_str e1 in
        let ctx1 := set_argctr ctx (tmp_argctr ctx + 1) in
        let stored :=
          if negb (CStr.at_end t (s1 + 1)) then
            let param := CStr.drop s1 (CStr.take s1 arg ++ val) in
            if Ascii.eqb (CStr.char_at (CStr.drop (s1 + 1) t) 1) "s" then Some (FStr param)
            else match sscanf param (CStr.drop (s1 + 1) t) with
                 | Some v => Some (FScan v)
                 | None => None
                 end
          else Some (FInt (value e1)) in
        process_gopt ctx arg typ =
        Done (-1, match stored with
                  | Some v => store_field ctx1 (offset e1) v
                  | None => ctx1
                  end)).
Proof.
  split; [exact find_opt_matching|]. split; [exact matching_entries|].
  split; [exact process_gopt_entries|]. split; cycle 1.
  { intros ctx arg typ e1 s1 e2 s2 val Hm H1 Hb1 Hb2 Hval Hargc t ctx1 stored.
    assert (Hin : In (e1, s1) (matching (in_opt ctx) arg)) by (rewrite Hm; now left).
    destruct (matching_sep _ _ _ _ Hin) as (t1 & Ht1 & Hmt).
    rewrite process_gopt_entries, Hm.
    apply Z.eqb_neq in H1.
    assert (Hlt : (argc (in_args ctx) <=? tmp_argctr ctx + 1)%nat = false)
      by (apply Nat.leb_gt; unfold argc; apply nth_error_Some; rewrite Hval; discriminate).
    assert (Hge : (argc (in_args ctx1) <=? tmp_argctr ctx1 + 1)%nat = true)
      by (apply Nat.leb_le; subst ctx1; cbn [in_args tmp_argctr set_argctr]; lia).
    assert (Hnext : forall c, in_args c = in_args ctx1 -> tmp_argctr c = tmp_argctr ctx1 ->
                      (let* (res, c') := gopt_body c e2 s2 arg typ in
                       if res =? -1 then Done (-1, c') else run_entries [] c' arg typ)
                      = Done (-1, c)).
    { intros c E1 E2. unfold gopt_body.
      unfold bare_space in Hb2. cbn [fst snd] in Hb2. rewrite Hb2, E1, E2, Hge. reflexivity. }
    unfold bare_space in Hb1. cbn [fst snd] in Hb1.
    cbn [run_entries]. unfold gopt_body at 1. rewrite Hb1, Hlt.
    cbn [in_args tmp_argctr set_argctr]. rewrite Hval. fold ctx1.
    apply andb_prop in Hb1. destruct Hb1 as [Hb1 _]. apply andb_prop in Hb1.
    destruct Hb1 as [Hs1 Hsp]. apply Ascii.eqb_eq in Hsp.
    unfold process_opt. rewrite H1, Hs1. fold t. fold t in Hsp. rewrite Hsp.
    change (Ascii.eqb " " "=") with false. cbv iota. cbn [andb].
    subst stored.
    destruct (negb (CStr.at_end t (s1 + 1))) eqn:Ev.
    - apply negb_true_iff in Ev. apply negb_true_iff in Hs1.
      assert (Hpc : Ascii.eqb (CStr.char_at (CStr.drop (s1 + 1) t) 0) "%" = true).
      { rewrite char_at_drop, Nat.add_0_r. subst t. unfold templ_str in *. rewrite Ht1 in *.
        exact (match_template_valid _ _ Hmt Hs1 Ev). }
      unfold process_opt_param. rewrite Hpc. cbn [negb].
      destruct (Ascii.eqb (CStr.char_at (CStr.drop (s1 + 1) t) 1) "s").
      + cbn [obind]. change (0 =? -1) with false. cbv iota.
        apply Hnext; reflexivity.
      + destruct (sscanf _ _) as [v|]; cbn [obind]; [|reflexivity].
        change (0 =? -1) with false. cbv iota. apply Hnext; reflexivity.
    - cbn [obind]. change (0 =? -1) with false. cbv iota. apply Hnext; reflexivity. }
  intros ctx arg typ e1 s1 e2 s2 Hm H1 H2 Hb1 Hb2 t stored.
  assert (Hin : In (e1, s1) (matching (in_opt ctx) arg)) by (rewrite Hm; now left).
  destruct (matching_sep _ _ _ _ Hin) as (t1 & Ht1 & Hmt).
  rewrite process_gopt_entries, Hm.
  apply Z.eqb_neq in H1. apply Z.eqb_eq in H2.
  unfold bare_space in Hb1, Hb2. cbn [fst snd] in Hb1, Hb2.
  cbn [run_entries]. unfold gopt_body. rewrite Hb1. unfold process_opt at 1. rewrite H1.
  subst stored. fold t.
  destruct (negb (s1 =? 0)%nat && negb (CStr.at_end t (s1 + 1))) eqn:Ev.
  - apply andb_prop in Ev. destruct Ev as [Ev1 Ev2]. apply negb_true_iff in Ev1, Ev2.
    assert (Hpc : Ascii.eqb (CStr.char_at (CStr.drop (s1 + 1) t) 0) "%" = true).
    { rewrite char_at_drop, Nat.add_0_r. subst t. unfold templ_str in *. rewrite Ht1 in *.
      exact (match_template_valid _ _ Hmt Ev1 Ev2). }
    unfold process_opt_param. rewrite Hpc. cbn [negb].
    destruct (Ascii.eqb (CStr.char_at (CStr.drop (s1 + 1) t) 1) "s").
    + cbn [obind]. change (0 =? -1) with false. cbv iota.
      rewrite Hb2. unfold process_opt. rewrite H2.
      unfold obind. destruct (call_proc _ arg (value e2) typ) as [[r c]| |]; try reflexivity.
      destruct (r =? -1); reflexivity.
    + destruct (sscanf _ _) as [v|]; cbn [obind].
      * change (0 =? -1) with false. cbv iota.
        rewrite Hb2. unfold process_opt. rewrite H2.
        unfold obind. destruct (call_proc _ arg (value e2) typ) as [[r c]| |]; try reflexivity.
        destruct (r =? -1); reflexivity.
      * reflexivity.
  - cbn [obind]. change (0 =? -1) with false. cbv iota.
    rewrite Hb2. unfold process_opt. rewrite H2.
    unfold obind. destruct (call_proc _ arg (value e2) typ) as [[r c]| |]; try reflexivity.
    destruct (r =? -1); reflexivity.
Qed.

(** ** The dispatcher with a callback that leaves the output alone *)

(** What the lemmas below assume of a context: the callback does not touch
    the output vector, the output vector has been allocated, and no token
    takes its value from the argument after it. *)
Definition good (c : fuse_opt_context) : Prop :=
  callback_pure c /\ allocated (out_args c) = true
  /\ forall arg, wants_next (in_opt c) arg = false.

Definition keeper (c : fuse_opt_context) : Prop :=
  forall p, in_proc c = Some p -> always_keeps p.

(** [c'] is [c] with [F] appended to the output vector and [K] added to
    the merged group; record and log may differ. *)
Definition added (F K : list string) (c c' : fuse_opt_context) : Prop :=
  in_opt c' = in_opt c /\ in_proc c' = in_proc c /\ in_args c' = in_args c
  /\ tmp_argctr c' = tmp_argctr c /\ tmp_nonopt c' = tmp_nonopt c
  /\ allocated (out_args c') = true
  /\ args_list (out_args c') = args_list (out_args c) ++ F
  /\ tmp_opts c' = merge_opts (tmp_opts c) K.

(** [arg] was kept [n] times. *)
Definition kept (typ : fuse_gopt_type) (arg : string) (n : nat)
                (c c' : fuse_opt_context) : Prop :=
  added (match typ with GOPT_FLAG => repeat arg n | GOPT_OPTION => [] end)
        (match typ with GOPT_OPTION => repeat arg n | GOPT_FLAG => [] end) c c'.

Lemma added_nothing c c' :
  in_opt c' = in_opt c -> in_proc c' = in_proc c -> in_args c' = in_args c ->
  tmp_argctr c' = tmp_argctr c -> tmp_nonopt c' = tmp_nonopt c ->
  out_args c' = out_args c -> tmp_opts c' = tmp_opts c ->
  allocated (out_args c) = true -> added [] [] c c'.
Proof.
  intros. unfold added. rewrite app_nil_r. repeat split; try assumption; congruence.
Qed.

Lemma added_trans F1 K1 F2 K2 c c1 c2 :
  added F1 K1 c c1 -> added F2 K2 c1 c2 -> added (F1 ++ F2) (K1 ++ K2) c c2.
Proof.
  intros (a1 & a2 & a3 & a4 & a5 & a6 & a7 & a8) (b1 & b2 & b3 & b4 & b5 & b6 & b7 & b8).
  unfold added. rewrite merge_opts_app, app_assoc. repeat split; congruence.
Qed.

Lemma kept_zero typ arg c c' : added [] [] c c' -> kept typ arg 0 c c'.
Proof. unfold kept. destruct typ; exact (fun H => H). Qed.

Lemma kept_trans typ arg n1 n2 c c1 c2 :
  kept typ arg n1 c c1 -> kept typ arg n2 c1 c2 -> kept typ arg (n1 + n2) c c2.
Proof.
  unfold kept. intros H1 H2. pose proof (added_trans H1 H2) as H.
  rewrite repeat_app. destruct typ; exact H.
Qed.

Lemma good_added F K c c' : good c -> added F K c c' -> good c'.
Proof.
  intros (Hp & _ & Hs) (a1 & a2 & _ & _ & _ & a6 & _). unfold good, callback_pure.
  rewrite a1, a2. auto.
Qed.

Lemma keeper_added F K c c' : keeper c -> added F K c c' -> keeper c'.
Proof. intros Hk (_ & a2 & _). unfold keeper. rewrite a2. exact Hk. Qed.

Lemma keep_gopt_kept c arg typ :
  allocated (out_args c) = true ->
  exists c', keep_gopt c arg typ = Done (0, c') /\ kept typ arg 1 c c'.
Proof.
  intros Ha. unfold keep_gopt, fuse_opt_add_arg, obind. ctx_simpl. rewrite Ha.
  destruct typ.
  - destruct (argv (out_args c)); eexists; (split; [reflexivity|]);
      unfold kept, added; simpl; repeat split; reflexivity.
  - eexists. split; [reflexivity|]. unfold kept, added. simpl. rewrite app_nil_r.
    repeat split; auto.
Qed.

Lemma call_proc_kept c arg key typ :
  good c ->
  exists r c' n,
    call_proc c arg key typ = Done (r, c') /\ kept typ arg n c c'
    /\ (r = 0 \/ (r = -1 /\ n = 0%nat))
    /\ (n <= if (key =? FUSE_OPT_KEY_DISCARD)%Z then 0 else 1)%nat
    /\ (keeper c -> n = (if (key =? FUSE_OPT_KEY_DISCARD)%Z then 0 else 1)%nat /\ r = 0).
Proof.
  intros (Hp & Ha & _). unfold call_proc.
  destruct (key =? FUSE_OPT_KEY_DISCARD).
  { exists 0, c, 0%nat. split; [reflexivity|]. split; [|auto].
    apply kept_zero. now apply added_nothing. }
  destruct (if negb (key =? FUSE_OPT_KEY_KEEP) then in_proc c else None) as [proc|] eqn:Hproc.
  - assert (Hin : in_proc c = Some proc).
    { destruct (negb (key =? FUSE_OPT_KEY_KEEP)); [exact Hproc | discriminate]. }
    pose proof (Hp _ Hin (inout_data c) arg key (out_args c)) as Hpure.
    destruct (proc (inout_data c) arg key (out_args c)) as [[res d] o] eqn:Hres.
    simpl in Hpure. subst o.
    set (c1 := add_log (set_out_args (set_data c d) (out_args c)) (EvProc arg key res)).
    assert (H1 : added [] [] c c1) by (now apply added_nothing).
    destruct ((res =? -1) || (res =? 0)) eqn:E.
    + exists res, c1, 0%nat. split; [reflexivity|]. split; [now apply kept_zero|].
      split; [|split; [lia|]].
      * apply orb_prop in E. destruct E as [E|E]; apply Z.eqb_eq in E; auto.
      * intros Hk. specialize (Hk _ Hin (inout_data c) arg key (out_args c)).
        rewrite Hres in Hk. simpl in Hk.
        apply orb_prop in E. destruct E as [E|E]; apply Z.eqb_eq in E; lia.
    + destruct (@keep_gopt_kept c1 arg typ Ha) as (c' & Hk & Hkept).
      exists 0, c', 1%nat. split; [exact Hk|].
      split; [exact (kept_trans (kept_zero typ arg H1) Hkept)|]. repeat split; auto.
  - destruct (@keep_gopt_kept c arg typ Ha) as (c' & Hk & Hkept).
    exists 0, c', 1%nat. split; [exact Hk|]. split; [exact Hkept|]. repeat split; auto.
Qed.


Lemma gopt_body_kept c o sep arg typ :
  good c -> In (o, sep) (matching (in_opt c) arg) ->
  exists r c' n,
    gopt_body c o sep arg typ = Done (r, c') /\ kept typ arg n c c'
    /\ (r = 0 \/ r = -1)
    /\ (n <= if entry_keeps o then 1 else 0)%nat
    /\ (r = 0 -> entry_fails arg (o, sep) = false)
    /\ (keeper c -> n = (if entry_keeps o then 1 else 0)%nat
                    /\ (entry_fails arg (o, sep) = false -> r = 0)).
Proof.
  intros Hg Hin. pose proof Hg as (Hp & Ha & Hs).
  assert (Hb : bare_space arg (o, sep) = false).
  { specialize (Hs arg). unfold wants_next in Hs.
    destruct (bare_space arg (o, sep)) eqn:E; [|reflexivity].
    assert (existsb (bare_space arg) (matching (in_opt c) arg) = true)
      by (apply existsb_exists; eauto).
    congruence. }
  unfold bare_space in Hb. cbn [fst snd] in Hb. unfold gopt_body. rewrite Hb.
  destruct (matching_sep _ _ _ _ Hin) as (t & Ht & Hm).
  unfold process_opt, entry_keeps, entry_fails, templ_str. cbn [fst snd]. rewrite Ht.
  destruct (offset o =? minus_1U) eqn:Eo.
  - destruct (@call_proc_kept c arg (value o) typ Hg) as (r & c' & n & Hc & Hk & Hr & Hn & Hkeep).
    unfold obind. rewrite Hc.
    exists (if r =? -1 then -1 else 0), c', n. simpl.
    split; [destruct (r =? -1); reflexivity|]. split; [exact Hk|].
    split; [destruct (r =? -1); auto|].
    split; [destruct (value o =? FUSE_OPT_KEY_DISCARD); exact Hn|].
    split; [reflexivity|]. intros Hkp. destruct (Hkeep Hkp) as [-> ->].
    split; [destruct (value o =? FUSE_OPT_KEY_DISCARD); reflexivity | reflexivity].
  - cbn [negb andb].
    assert (Hst : forall v, kept typ arg 0 c (store_field c (offset o) v)).
    { intros v. apply kept_zero. now apply added_nothing. }
    destruct (negb (sep =? 0)%nat && negb (CStr.at_end t (sep + 1))) eqn:Ev.
    + apply andb_prop in Ev. destruct Ev as [Ev1 Ev2].
      apply negb_true_iff in Ev1, Ev2.
      pose proof (match_template_valid _ _ Hm Ev1 Ev2) as Hpc.
      unfold process_opt_param, obind. rewrite char_at_drop, Nat.add_0_r, Hpc. cbn [negb andb].
      destruct (Ascii.eqb (CStr.char_at (CStr.drop (sep + 1) t) 1) "s").
      * eexists 0, _, 0%nat. split; [reflexivity|]. split; [apply Hst|].
        cbn [negb andb]. repeat split; auto.
      * cbn [negb andb].
        destruct (sscanf _ (CStr.drop (sep + 1) t)) as [v|].
        -- eexists 0, _, 0%nat. split; [reflexivity|]. split; [apply Hst|].
           repeat split; auto.
        -- exists (-1), c, 0%nat. split; [reflexivity|].
           split; [apply kept_zero; now apply added_nothing|].
           split; [now right|]. split; [lia|]. split; [discriminate|].
           intros _. split; [reflexivity | discriminate].
    + exists 0, (store_field c (offset o) (FInt (value o))), 0%nat.
      split; [reflexivity|]. split; [apply Hst|]. repeat split; auto.
Qed.

Lemma run_entries_kept es : forall c arg typ,
  good c -> incl es (matching (in_opt c) arg) ->
  exists r c' n,
    run_entries es c arg typ = Done (r, c') /\ kept typ arg n c c'
    /\ (r = 0 \/ r = -1)
    /\ (r = 0 -> (n <= List.length (filter (fun e => entry_keeps (fst e)) es))%nat
                 /\ existsb (entry_fails arg) es = false)
    /\ (keeper c -> existsb (entry_fails arg) es = false ->
        r = 0 /\ n = List.length (filter (fun e => entry_keeps (fst e)) es)).
Proof.
  induction es as [|[o sep] es IH]; intros c arg typ Hg Hincl.
  - exists 0, c, 0%nat. split; [reflexivity|].
    split; [apply kept_zero; apply added_nothing; auto; apply Hg|]. simpl. auto.
  - assert (Hin : In (o, sep) (matching (in_opt c) arg)) by (apply Hincl; now left).
    destruct (@gopt_body_kept c o sep arg typ Hg Hin) as (r1 & c1 & n1 & Hb & Hk1 & Hr1 & Hn1 & Hf1 & Hkeep1).
    simpl run_entries. unfold obind. rewrite Hb.
    destruct Hr1 as [-> | ->].
    + change (0 =? -1) with false. cbv iota.
      assert (Hg1 : good c1) by (eapply good_added; [exact Hg | exact Hk1]).
      assert (Hincl1 : incl es (matching (in_opt c1) arg)).
      { destruct Hk1 as (-> & _). intros e He. apply Hincl. now right. }
      destruct (IH c1 arg typ Hg1 Hincl1) as (r2 & c2 & n2 & Hrun & Hk2 & Hr2 & Hn2 & Hkeep2).
      exists r2, c2, (n1 + n2)%nat. split; [exact Hrun|].
      split; [exact (kept_trans Hk1 Hk2)|]. split; [exact Hr2|].
      cbn [filter existsb fst]. rewrite (Hf1 eq_refl). cbn [orb]. split.
      * intros E. destruct (Hn2 E) as [Hle Hex]. split; [|exact Hex].
        destruct (entry_keeps o); simpl in *; lia.
      * intros Hkp Hex. destruct (Hkeep1 Hkp) as [-> _].
        destruct (Hkeep2 (keeper_added Hkp Hk1) Hex) as [-> ->].
        split; [reflexivity|]. destruct (entry_keeps o); reflexivity.
    + change (-1 =? -1) with true. cbv iota.
      exists (-1), c1, n1. split; [reflexivity|]. split; [exact Hk1|]. split; [now right|].
      split; [discriminate|]. intros Hkp Hex. cbn [existsb] in Hex.
      apply orb_false_elim in Hex. destruct Hex as [Hex _].
      destruct (Hkeep1 Hkp) as [_ H0]. specialize (H0 Hex). discriminate.
Qed.

Lemma key_opt_not_discard : (FUSE_OPT_KEY_OPT =? FUSE_OPT_KEY_DISCARD) = false.
Proof.
  apply Z.eqb_neq. pose proof reserved_keys_distinct as H. inv H.
  intros E. apply H2. rewrite E. simpl. auto.
Qed.

Lemma key_nonopt_not_discard : (FUSE_OPT_KEY_NONOPT =? FUSE_OPT_KEY_DISCARD) = false.
Proof.
  apply Z.eqb_neq. pose proof reserved_keys_distinct as H.
  apply NoDup_cons_iff in H. destruct H as [_ H].
  apply NoDup_cons_iff in H. destruct H as [H _].
  intros E. apply H. rewrite E. simpl. auto.
Qed.

Lemma process_gopt_kept c arg typ :
  good c ->
  exists r c' n,
    process_gopt c arg typ = Done (r, c') /\ kept typ arg n c c'
    /\ (r = 0 \/ r = -1)
    /\ (r = 0 -> (n <= keep_count (in_opt c) arg)%nat /\ fails (in_opt c) arg = false)
    /\ (keeper c -> fails (in_opt c) arg = false ->
        r = 0 /\ n = keep_count (in_opt c) arg).
Proof.
  intros Hg. rewrite process_gopt_entries. unfold keep_count, fails.
  destruct (matching (in_opt c) arg) as [|e es] eqn:Hm.
  - destruct (@call_proc_kept c arg FUSE_OPT_KEY_OPT typ Hg)
      as (r & c' & n & Hc & Hk & Hr & Hn & Hkeep).
    rewrite key_opt_not_discard in Hn, Hkeep.
    exists r, c', n. split; [exact Hc|]. split; [exact Hk|].
    split; [destruct Hr as [?|[? _]]; auto|]. split; [auto|].
    intros Hkp _. destruct (Hkeep Hkp). auto.
  - apply run_entries_kept; [exact Hg|]. rewrite Hm. apply incl_refl.
Qed.

Lemma dispatch_opts_kept subs : forall c,
  good c ->
  exists r c',
    dispatch_opts subs c = Done (r, c')
    /\ (r = 0 \/ r = -1)
    /\ (r = 0 -> existsb (fails (in_opt c)) subs = false
                 /\ exists K, added [] K c c'
                              /\ Forall (fun k => In k subs /\ accepts (in_opt c) k = true) K)
    /\ (keeper c -> existsb (fails (in_opt c)) subs = false ->
        r = 0 /\ added [] (group_kept (in_opt c) subs) c c').
Proof.
  induction subs as [|a subs IH]; intros c Hg.
  - exists 0, c. split; [reflexivity|]. split; [now left|].
    assert (Hn : added [] [] c c) by (apply added_nothing; auto; apply Hg).
    split; [intros _; split; [reflexivity|]; exists []; split; [exact Hn | constructor]|]. auto.
  - destruct (@process_gopt_kept c a GOPT_OPTION Hg)
      as (r1 & c1 & n1 & Hp & Hk1 & Hr1 & Hn1 & Hkeep1).
    simpl dispatch_opts. unfold obind. rewrite Hp. unfold kept in Hk1.
    destruct Hr1 as [-> | ->].
    + change (0 =? -1) with false. cbv iota.
      assert (Hg1 : good c1) by (eapply good_added; [exact Hg | exact Hk1]).
      assert (Ho : in_opt c1 = in_opt c) by apply Hk1.
      destruct (IH c1 Hg1) as (r2 & c2 & Hd & Hr2 & HK & Hkeep2). rewrite Ho in *.
      exists r2, c2. split; [exact Hd|]. split; [exact Hr2|]. split.
      * intros E. destruct (HK E) as (Hex & K & Hadd & HF). destruct (Hn1 eq_refl) as [Hle Hnf].
        split; [cbn [existsb]; rewrite Hnf, Hex; reflexivity|].
        exists (repeat a n1 ++ K). split; [exact (added_trans Hk1 Hadd)|].
        apply Forall_app. split.
        -- apply Forall_forall. intros k Hk. pose proof (repeat_spec _ _ _ Hk) as ->.
           split; [now left|]. unfold accepts. rewrite Hnf.
           destruct n1; [simpl in Hk; contradiction|]. cbn [negb].
           rewrite andb_true_r. apply Nat.leb_le. lia.
        -- eapply Forall_impl; [|exact HF]. intros k [Hk1' Hk2]. split; [now right | exact Hk2].
      * intros Hkp Hex. cbn [existsb] in Hex. apply orb_false_elim in Hex.
        destruct Hex as [Hex1 Hex2].
        destruct (Hkeep1 Hkp Hex1) as [_ ->].
        destruct (Hkeep2 (keeper_added Hkp Hk1) Hex2) as [-> Hadd].
        split; [reflexivity|]. exact (added_trans Hk1 Hadd).
    + change (-1 =? -1) with true. cbv iota.
      exists (-1), c1. split; [reflexivity|]. split; [now right|]. split; [discriminate|].
      intros Hkp Hex. cbn [existsb] in Hex. apply orb_false_elim in Hex.
      destruct Hex as [Hex1 _]. destruct (Hkeep1 Hkp Hex1). discriminate.
Qed.

Lemma rewrite_loop_step optspecs arg l' st :
  rewrite_loop optspecs (arg :: l') st
  = match rewrite_step optspecs arg l' st with
    | Some (rest, st1) => rewrite_loop optspecs rest st1
    | None => None
    end.
Proof.
  destruct st as [[out opts] nonopt]. cbn [rewrite_loop rewrite_step].
  repeat match goal with
         | |- context [if ?b then _ else _] => destruct b
         | |- context [match ?l with [] => _ | _ :: _ => _ end] => destruct l
         end; reflexivity.
Qed.

Lemma skipn_cons_nth (l : list string) n a l' :
  skipn n l = a :: l' ->
  nth_error l n = Some a /\ skipn (n + 1) l = l' /\ (n < List.length l)%nat.
Proof.
  revert l. induction n as [|n IH]; intros l H.
  - destruct l; inv H. simpl. repeat split; lia.
  - destruct l as [|x l]; [discriminate|]. simpl in H. destruct (IH _ H) as (H1 & H2 & H3).
    simpl. repeat split; auto. lia.
Qed.

Lemma skipn_nil_length (l : list string) n : skipn n l = [] -> (List.length l <= n)%nat.
Proof.
  revert l. induction n as [|n IH]; intros l H.
  - destruct l; [simpl; lia | discriminate].
  - destruct l as [|x l]; [simpl; lia|]. simpl in *. apply IH in H. lia.
Qed.

Lemma view_added F K c c' :
  added F K c c' ->
  view c' = (args_list (out_args c) ++ F, merge_opts (tmp_opts c) K, tmp_nonopt c).
Proof.
  intros (_ & _ & _ & _ & a5 & _ & a7 & a8). unfold view. now rewrite a5, a7, a8.
Qed.

(** [process_one] against one step of [rewrite_loop]. *)
Lemma process_one_rewrite c arg l' :
  good c -> keeper c ->
  skipn (tmp_argctr c) (args_list (in_args c)) = arg :: l' ->
  match rewrite_step (in_opt c) arg l' (view c) with
  | Some (rest, st1) =>
      exists c1, process_one c = Done (0, c1) /\ view c1 = st1
                 /\ good c1 /\ keeper c1
                 /\ in_opt c1 = in_opt c /\ in_args c1 = in_args c
                 /\ skipn (tmp_argctr c1 + 1) (args_list (in_args c1)) = rest
  | None => exists c1, process_one c = Done (-1, c1)
  end.
Proof.
  intros Hg Hk Hskip. destruct (skipn_cons_nth _ _ Hskip) as (Hnth & Hrest & Hlt).
  assert (Hfin : forall F K c1,
             added F K c c1 ->
             exists c2, Done (0, c1) = Done (0, c2)
                        /\ view c2 = (args_list (out_args c) ++ F,
                                      merge_opts (tmp_opts c) K, tmp_nonopt c)
                        /\ good c2 /\ keeper c2
                        /\ in_opt c2 = in_opt c /\ in_args c2 = in_args c
                        /\ skipn (tmp_argctr c2 + 1) (args_list (in_args c2)) = l').
  { intros F K c1 Hadd. exists c1. split; [reflexivity|].
    split; [exact (view_added Hadd)|]. split; [exact (good_added Hg Hadd)|].
    split; [exact (keeper_added Hk Hadd)|].
    destruct Hadd as (a1 & _ & a3 & a4 & _). rewrite a1, a3, a4. auto. }
  unfold process_one, rewrite_step, view. rewrite Hnth.
  destruct (negb (tmp_nonopt c =? 0)%nat || negb (Ascii.eqb (CStr.char_at arg 0) "-")) eqn:E0.
  { destruct (@call_proc_kept c arg FUSE_OPT_KEY_NONOPT GOPT_FLAG Hg)
      as (r & c1 & n & Hc & Hkept & _ & _ & Hkeep).
    rewrite key_nonopt_not_discard in Hkeep. destruct (Hkeep Hk) as [-> ->].
    rewrite Hc. unfold kept in Hkept. apply (Hfin _ _ _ Hkept). }
  destruct (Ascii.eqb (CStr.char_at arg 1) "o").
  { destruct (negb (CStr.at_end arg 2)).
    - rewrite opts_loop_dispatch, decode_opts_two_pass. fold (sub_options (CStr.drop 2 arg)).
      destruct (@dispatch_opts_kept (sub_options (CStr.drop 2 arg)) c Hg)
        as (r & c1 & Hd & Hr & Hok & Hkeep).
      rewrite Hd. destruct (existsb (fails (in_opt c)) _) eqn:Ef.
      + destruct Hr as [-> | ->]; [|eauto]. destruct (Hok eq_refl). congruence.
      + destruct (Hkeep Hk eq_refl) as [-> Hadd].
        destruct (Hfin _ _ _ Hadd) as (c2 & E & Hrest'). rewrite app_nil_r in Hrest'. eauto.
    - destruct l' as [|v l''].
      + assert (Hlast : (tmp_argctr c + 1 <? argc (in_args c))%nat = false).
        { apply Nat.ltb_ge. apply skipn_nil_length in Hrest. exact Hrest. }
        rewrite Hlast. eauto.
      + destruct (skipn_cons_nth _ _ Hrest) as (Hnth2 & Hrest2 & Hlt2).
        apply Nat.ltb_lt in Hlt2. unfold argc. rewrite Hlt2.
        cbn [in_args set_argctr tmp_argctr]. rewrite Hnth2.
        rewrite opts_loop_dispatch, decode_opts_two_pass. fold (sub_options v).
        set (c0 := set_argctr c (tmp_argctr c + 1)).
        assert (Hadd0 : added [] [] c0 c0) by (apply added_nothing; auto; apply Hg).
        assert (Hg0 : good c0) by exact Hg.
        destruct (@dispatch_opts_kept (sub_options v) c0 Hg0)
          as (r & c1 & Hd & Hr & Hok & Hkeep).
        rewrite Hd. change (in_opt c0) with (in_opt c) in *.
        destruct (existsb (fails (in_opt c)) _) eqn:Ef.
        * destruct Hr as [-> | ->]; [|eauto]. destruct (Hok eq_refl). congruence.
        * destruct (Hkeep Hk eq_refl) as [-> Hadd].
          exists c1. split; [reflexivity|].
          split; [pose proof (view_added Hadd) as Hv; unfold view in Hv; rewrite Hv;
                  now rewrite app_nil_r|].
          split; [exact (good_added Hg0 Hadd)|].
          split; [exact (@keeper_added _ _ c0 c1 Hk Hadd)|].
          destruct Hadd as (a1 & _ & a3 & a4 & _).
          split; [exact a1|]. split; [exact a3|]. rewrite a3, a4. exact Hrest2. }
  destruct (Ascii.eqb (CStr.char_at arg 1) "-" && CStr.at_end arg 2) eqn:E1.
  { destruct Hg as (Hp & Ha & Hs).
    unfold fuse_opt_add_arg, obind. rewrite Ha.
    destruct (argv (out_args c)) eqn:Hav; change (0 =? -1) with false; cbv iota;
      (eexists; split; [reflexivity|]); unfold view, argc, args_list; simpl; rewrite ?Hav;
      (split; [reflexivity|]); (split; [repeat split; auto|]); auto. }
  destruct (@process_gopt_kept c arg GOPT_FLAG Hg) as (r & c1 & n & Hp & Hkept & Hr & Hn & Hkeep).
  rewrite Hp. destruct (fails (in_opt c) arg) eqn:Ef.
  - destruct Hr as [-> | ->]; [|eauto]. destruct (Hn eq_refl). congruence.
  - destruct (Hkeep Hk eq_refl) as [-> ->]. unfold kept in Hkept. apply (Hfin _ _ _ Hkept).
Qed.

Lemma rewrite_step_rest optspecs arg l' st rest st1 :
  rewrite_step optspecs arg l' st = Some (rest, st1) ->
  (List.length rest <= List.length l')%nat
  /\ exists F, fst (fst st1) = fst (fst st) ++ F.
Proof.
  destruct st as [[out opts] nonopt]. unfold rewrite_step. intros H.
  repeat match type of H with
         | context [if ?b then _ else _] => destruct b
         | context [match ?l with [] => _ | _ :: _ => _ end] => destruct l
         end; inv H; simpl; split; try lia; eauto; exists []; now rewrite app_nil_r.
Qed.

Lemma rewrite_loop_grows optspecs l : forall st st',
  rewrite_loop optspecs l st = Some st' -> exists F, fst (fst st') = fst (fst st) ++ F.
Proof.
  induction l as [l IH] using (induction_ltof1 _ (@List.length string)). unfold ltof in IH.
  intros st st' H. destruct l as [|arg l'].
  - inv H. exists []. now rewrite app_nil_r.
  - rewrite rewrite_loop_step in H.
    destruct (rewrite_step optspecs arg l' st) as [[rest st1]|] eqn:Hs; [|discriminate].
    destruct (rewrite_step_rest _ _ _ _ Hs) as (Hlen & F1 & E1).
    destruct (IH rest ltac:(simpl; lia) _ _ H) as (F2 & E2).
    exists (F1 ++ F2). rewrite E2, E1. now rewrite app_assoc.
Qed.

(** The loop of [fuse_opt_parse] against [rewrite_loop]. *)
Lemma parse_loop_rewrite fuel : forall c l,
  good c -> keeper c ->
  skipn (tmp_argctr c) (args_list (in_args c)) = l ->
  (List.length l <= fuel)%nat ->
  match rewrite_loop (in_opt c) l (view c) with
  | Some st' =>
      exists c', parse_loop fuel c = Done (0, c') /\ view c' = st'
                 /\ allocated (out_args c') = true
  | None => exists c', parse_loop fuel c = Done (-1, c')
  end.
Proof.
  induction fuel as [|fuel IH]; intros c l Hg Hk Hskip Hlen.
  - destruct l; [|simpl in Hlen; lia]. apply skipn_nil_length in Hskip.
    simpl. replace (tmp_argctr c <? argc (in_args c))%nat with false
      by (symmetry; apply Nat.ltb_ge; exact Hskip).
    exists c. repeat split; auto. apply Hg.
  - destruct l as [|arg l'].
    + apply skipn_nil_length in Hskip.
      simpl. replace (tmp_argctr c <? argc (in_args c))%nat with false
        by (symmetry; apply Nat.ltb_ge; exact Hskip).
      exists c. repeat split; auto. apply Hg.
    + destruct (skipn_cons_nth _ _ Hskip) as (_ & _ & Hlt). apply Nat.ltb_lt in Hlt.
      rewrite rewrite_loop_step. pose proof (@process_one_rewrite c arg l' Hg Hk Hskip) as Hone.
      cbn [parse_loop]. unfold argc. rewrite Hlt. unfold obind.
      destruct (rewrite_step (in_opt c) arg l' (view c)) as [[rest st1]|] eqn:Hs.
      * destruct Hone as (c1 & Hp & Hv & Hg1 & Hk1 & Ho & Ha & Hrest).
        rewrite Hp. change (0 =? -1) with false. cbv iota.
        destruct (rewrite_step_rest _ _ _ _ Hs) as (Hl & _).
        specialize (IH (set_argctr c1 (tmp_argctr c1 + 1)) rest Hg1 Hk1 Hrest
                       ltac:(simpl in Hlen; lia)).
        change (view (set_argctr c1 (tmp_argctr c1 + 1))) with (view c1) in IH.
        change (in_opt (set_argctr c1 (tmp_argctr c1 + 1))) with (in_opt c1) in IH.
        rewrite Hv, Ho in IH. exact IH.
      * destruct Hone as (c1 & Hp). rewrite Hp. exists c1. reflexivity.
Qed.

Lemma finalize_total c :
  allocated (out_args c) = true -> args_list (out_args c) <> [] ->
  exists c2, finalize c = Done (0, c2)
             /\ out_args c2
                = mk_args (Some (finalized (tmp_opts c) (tmp_nonopt c) (args_list (out_args c))))
                          true.
Proof.
  intros Ha Hne.
  assert (Hins : forall o pos arg, allocated o = true -> (pos <= argc o)%nat ->
                 exists o', fuse_opt_insert_arg o pos arg = Done (0, o')).
  { intros o pos arg Hao Hpos.
    unfold fuse_opt_insert_arg, fuse_opt_insert_arg_common, fuse_opt_add_arg, obind.
    apply Nat.ltb_ge in Hpos. rewrite Hpos, Hao.
    destruct (argv o); change (0 =? -1) with false; cbv iota;
      match goal with |- context [if ?b then _ else _] => destruct b end; eauto. }
  assert (Hdone : exists r c2 X, finalize c = Done (r, c2) /\ out_args c2 = mk_args (Some X) true).
  { unfold finalize, obind. destruct (tmp_opts c) as [opts|].
    - destruct (Hins (out_args c) 1%nat "-o" Ha) as (o1 & H1).
      { unfold argc. destruct (args_list (out_args c)); [congruence | simpl; lia]. }
      rewrite H1. change (0 =? -1) with false. cbv iota.
      pose proof (insert_arg_done _ _ _ H1) as (_ & _ & E1).
      destruct (Hins o1 2%nat opts) as (o2 & H2).
      { rewrite E1. reflexivity. }
      { rewrite E1. unfold argc, args_list at 1. cbn [argv].
        destruct (args_list (out_args c)) as [|x l]; [congruence|].
        cbn [firstn skipn app List.length]. lia. }
      rewrite H2. change (0 =? -1) with false. cbv iota.
      pose proof (insert_arg_done _ _ _ H2) as (_ & _ & E2).
      match goal with |- context [if ?b then _ else _] => destruct b end;
        do 3 eexists; (split; [reflexivity|]); cbn [out_args set_out_args]; rewrite E2;
        reflexivity.
    - change (0 =? -1) with false. cbv iota.
      match goal with |- context [if ?b then _ else _] => destruct b end;
        do 3 eexists; (split; [reflexivity|]); cbn [out_args set_out_args].
      + rewrite Ha. reflexivity.
      + apply args_of_list; [reflexivity | exact Hne | exact Ha]. }
  destruct Hdone as (r & c2 & X & Hf & HX).
  pose proof (finalize_done _ Hf) as (-> & _ & _ & _ & Hout).
  exists c2. split; [exact Hf|]. rewrite HX in *. unfold args_list at 1 in Hout.
  cbn [argv] in Hout. now subst X.
Qed.

Lemma allowed_proc_good a d opts proc argv0 :
  (forall p, proc = Some p -> leaves_out_args p) ->
  (forall arg, wants_next opts arg = false) ->
  good (loop_entry a d opts proc argv0).
Proof.
  intros Hp Hs. unfold good, callback_pure, loop_entry. simpl. auto.
Qed.

(** A whole parse against [rewrite_loop], for a callback that keeps
    everything and leaves the output vector alone. *)
Lemma fuse_opt_parse_rewrite a d opts proc argv0 rest :
  argv a = Some (argv0 :: rest) ->
  (forall p, proc = Some p -> leaves_out_args p /\ always_keeps p) ->
  (forall arg, wants_next opts arg = false) ->
  match rewrite_loop opts rest ([argv0], None, 0%nat) with
  | Some (out, o, n) =>
      exists r, fuse_opt_parse (Some a) d opts proc = Done r /\ res_code r = 0
                /\ res_args r = Some (mk_args (Some (finalized o n out)) true)
  | None =>
      exists r, fuse_opt_parse (Some a) d opts proc = Done r /\ res_code r = -1
                /\ res_args r = Some a
  end.
Proof.
  intros Ha Hproc Hs.
  assert (Hg : good (loop_entry a d opts proc argv0)).
  { apply allowed_proc_good; [|exact Hs]. intros p Hp. apply (Hproc p Hp). }
  assert (Hk : keeper (loop_entry a d opts proc argv0)).
  { intros p Hp. apply (Hproc p Hp). }
  assert (Hskip : skipn (tmp_argctr (loop_entry a d opts proc argv0))
                        (args_list (in_args (loop_entry a d opts proc argv0))) = rest).
  { unfold loop_entry, args_list. simpl. rewrite Ha. reflexivity. }
  pose proof (@parse_loop_rewrite (argc a) _ rest Hg Hk Hskip) as Hloop.
  change (in_opt (loop_entry a d opts proc argv0)) with opts in Hloop.
  change (view (loop_entry a d opts proc argv0)) with ([argv0], @None string, 0%nat) in Hloop.
  rewrite (@fuse_opt_parse_unfold a d opts proc argv0 rest Ha). unfold obind.
  destruct (rewrite_loop opts rest ([argv0], None, 0%nat)) as [[[out o] n]|] eqn:Hr.
  - destruct Hloop as (c' & Hl & Hv & Hal).
    { unfold argc, args_list. rewrite Ha. simpl. lia. }
    rewrite Hl. change (0 =? -1) with false. cbv iota.
    unfold view in Hv. inv Hv.
    destruct (rewrite_loop_grows _ _ _ Hr) as (F & HF). simpl in HF.
    destruct (@finalize_total c' Hal) as (c2 & Hf & Hout).
    { rewrite HF. discriminate. }
    rewrite Hf. change (0 =? -1) with false. cbv iota.
    eexists. split; [reflexivity|]. simpl. rewrite Hout. auto.
  - destruct Hloop as (c' & Hl).
    { unfold argc, args_list. rewrite Ha. simpl. lia. }
    rewrite Hl. eexists. split; [reflexivity|]. auto.
Qed.

(** ** The empty table *)

Lemma is_separator_eqb a :
  String.eqb a "--"
  = Ascii.eqb (CStr.char_at a 0) "-" && (Ascii.eqb (CStr.char_at a 1) "-" && CStr.at_end a 2).
Proof.
  destruct a as [|x [|y [|z r]]]; unfold CStr.at_end; simpl;
    repeat match goal with
           | |- context [Ascii.eqb ?c "-"] => destruct (Ascii.eqb c "-")
           end; reflexivity.
Qed.

Lemma group_kept_nil subs : group_kept [] subs = subs.
Proof.
  unfold group_kept. induction subs as [|s subs IH]; [reflexivity|].
  cbn [flat_map]. rewrite IH. reflexivity.
Qed.

Lemma fails_nil subs : existsb (fails []) subs = false.
Proof. induction subs as [|s subs IH]; [reflexivity|]. exact IH. Qed.

Lemma rewrite_loop_split l : forall out opts nonopt,
  rewrite_loop [] l (out, opts, nonopt)
  = match split_groups (negb (nonopt =? 0)%nat) l with
    | None => None
    | Some (vs, os) =>
        Some (out ++ os, merge_opts opts (flat_map sub_options vs),
              if negb (nonopt =? 0)%nat then nonopt
              else match sep_index os with
                   | Some i => (List.length out + i + 1)%nat
                   | None => 0%nat
                   end)
    end.
Proof.
  induction l as [l IH] using (induction_ltof1 _ (@List.length string)). unfold ltof in IH.
  intros out opts nonopt. destruct l as [|arg l'].
  - simpl. rewrite app_nil_r. destruct (negb (nonopt =? 0)%nat) eqn:E; [reflexivity|].
    apply negb_false_iff, Nat.eqb_eq in E. now subst.
  - cbn [rewrite_loop split_groups].
    destruct (negb (nonopt =? 0)%nat) eqn:En; cbn [orb].
    + rewrite (IH l' ltac:(simpl; lia)), En.
      destruct (split_groups true l') as [[vs os]|]; [|reflexivity].
      now rewrite <- app_assoc.
    + apply negb_false_iff in En. pose proof En as En'. apply Nat.eqb_eq in En'. subst nonopt.
      pose proof (is_separator_eqb arg) as Hsep.
      destruct (Ascii.eqb (CStr.char_at arg 0) "-") eqn:E0; cbn [negb andb] in *.
      2:{ rewrite (IH l' ltac:(simpl; lia)). cbn [Nat.eqb negb].
          destruct (split_groups false l') as [[vs os]|]; [|reflexivity].
          cbn [sep_index]. rewrite Hsep, <- app_assoc, length_app. simpl.
          destruct (sep_index os); [do 2 f_equal; lia | reflexivity]. }
      destruct (Ascii.eqb (CStr.char_at arg 1) "o").
      { destruct (negb (CStr.at_end arg 2)).
        - rewrite fails_nil, group_kept_nil, (IH l' ltac:(simpl; lia)). cbn [Nat.eqb negb].
          destruct (split_groups false l') as [[vs os]|]; [|reflexivity].
          cbn [flat_map]. now rewrite merge_opts_app.
        - destruct l' as [|v l'']; [reflexivity|].
          rewrite fails_nil, group_kept_nil, (IH l'' ltac:(simpl; lia)). cbn [Nat.eqb negb].
          destruct (split_groups false l'') as [[vs os]|]; [|reflexivity].
          cbn [flat_map]. now rewrite merge_opts_app. }
      destruct (Ascii.eqb (CStr.char_at arg 1) "-" && CStr.at_end arg 2) eqn:E1.
      * rewrite (IH l' ltac:(simpl; lia)).
        replace (negb (List.length (out ++ [arg]) =? 0)%nat) with true
          by (rewrite length_app; simpl; destruct (List.length out); reflexivity).
        destruct (split_groups true l') as [[vs os]|]; [|reflexivity].
        cbn [sep_index]. rewrite Hsep, <- app_assoc, length_app. simpl.
        do 2 f_equal. lia.
      * change (fails [] arg) with false. cbv iota. change (keep_count [] arg) with 1%nat.
        cbn [repeat]. rewrite (IH l' ltac:(simpl; lia)). cbn [Nat.eqb negb].
        destruct (split_groups false l') as [[vs os]|]; [|reflexivity].
        cbn [sep_index]. rewrite Hsep, <- app_assoc, length_app. simpl.
        destruct (sep_index os); [do 2 f_equal; lia | reflexivity].
Qed.

Lemma sep_index_spec os : forall i,
  sep_index os = Some i -> (i < List.length os)%nat /\ nth i os EmptyString = "--".
Proof.
  induction os as [|a os IH]; intros i H; [discriminate|]. simpl in H.
  destruct (String.eqb a "--") eqn:E.
  - inv H. apply String.eqb_eq in E. subst. simpl. split; [lia | reflexivity].
  - destruct (sep_index os) as [j|]; [|discriminate]. inv H.
    destruct (IH j eq_refl). simpl. split; [lia | assumption].
Qed.

Lemma finalized_plain argv0 os :
  finalized None (match sep_index os with Some i => (1 + i + 1)%nat | None => 0%nat end)
            (argv0 :: os)
  = argv0 :: drop_final_separator os.
Proof.
  unfold finalized, drop_final_separator. destruct (sep_index os) as [i|] eqn:Hi; [|reflexivity].
  destruct (sep_index_spec _ Hi) as [Hlt Hnth].
  replace (1 + i + 1)%nat with (S (S i)) by lia.
  change (List.length (argv0 :: os)) with (S (List.length os)).
  change (negb (S (S i) =? 0)%nat) with true.
  change (S (S i) =? S (List.length os))%nat with (S i =? List.length os)%nat.
  cbn [andb].
  destruct (S i =? List.length os)%nat eqn:E; [|reflexivity].
  apply Nat.eqb_eq in E. cbn [andb].
  replace (S (List.length os) - 1)%nat with (S i) by lia. cbn [nth]. rewrite Hnth.
  rewrite String.eqb_refl. destruct os; [simpl in Hlt; lia|]. reflexivity.
Qed.

Lemma split_groups_no_group l : forall positional os,
  split_groups positional l = Some ([], os) -> os = l.
Proof.
  induction l as [l IH] using (induction_ltof1 _ (@List.length string)). unfold ltof in IH.
  intros positional os H. destruct l as [|arg l']; [now inv H|].
  assert (Hother : forall p,
             match split_groups p l' with
             | Some (vs, os0) => Some (vs, arg :: os0)
             | None => None
             end = Some ([], os) -> os = arg :: l').
  { intros p H1. destruct (split_groups p l') as [[vs os0]|] eqn:E; [|discriminate].
    inv H1. f_equal. eapply IH; [|exact E]. simpl; lia. }
  assert (Hgroup : forall p v l0,
             match split_groups p l0 with
             | Some (vs, os0) => Some (v :: vs, os0)
             | None => None
             end = Some ([], os) -> os = arg :: l').
  { intros p v l0 H1. destruct (split_groups p l0) as [[vs os0]|]; discriminate. }
  cbn [split_groups] in H.
  destruct (positional || negb (Ascii.eqb (CStr.char_at arg 0) "-")); [exact (Hother _ H)|].
  destruct (Ascii.eqb (CStr.char_at arg 1) "o").
  - destruct (negb (CStr.at_end arg 2)); [exact (Hgroup _ _ _ H)|].
    destruct l' as [|v l'']; [discriminate | exact (Hgroup _ _ _ H)].
  - destruct (Ascii.eqb (CStr.char_at arg 1) "-" && CStr.at_end arg 2); exact (Hother _ H).
Qed.

(** C6 (amended).  With an empty table and a callback that keeps every
    token (and leaves the output vector alone), the parse returns the
    input with its groups merged: the program name, then, when the input
    holds group options, "-o" and the merged list of their sub-options,
    then every other token in input order, a "--" that would be the last
    token being left out when no group is inserted.  The parse fails, and
    the caller's [args] stay, when a "-o" that needs a value is the last
    token.  Without group options the other tokens are all the tokens. *)
Theorem keep_all_recoalesces :
  (forall a d proc argv0 rest,
     argv a = Some (argv0 :: rest) ->
     (forall p, proc = Some p -> leaves_out_args p /\ always_keeps p) ->
     match recoalesced argv0 rest with
     | Some out =>
         exists r, fuse_opt_parse (Some a) d [] proc = Done r /\ res_code r = 0
                   /\ res_args r = Some (mk_args (Some out) true)
     | None =>
         exists r, fuse_opt_parse (Some a) d [] proc = Done r /\ res_code r = -1
                   /\ res_args r = Some a
     end)
  /\ (forall rest os, split_groups false rest = Some ([], os) -> os = rest).
Proof.
  split; [|intros rest os; apply split_groups_no_group].
  intros a d proc argv0 rest Ha Hproc.
  pose proof (@fuse_opt_parse_rewrite a d [] proc argv0 rest Ha Hproc (fun _ => eq_refl)) as H.
  rewrite rewrite_loop_split in H. unfold recoalesced. cbn [Nat.eqb negb] in H.
  destruct (split_groups false rest) as [[vs os]|]; [|exact H].
  destruct H as (r & Hr & Hc & Hout). exists r. split; [exact Hr|]. split; [exact Hc|].
  rewrite Hout. do 3 f_equal. cbn [app List.length].
  destruct (merge_opts None (flat_map sub_options vs)) as [m|].
  - apply finalized_merged. destruct (sep_index os) as [i|] eqn:Hi; [|lia].
    destruct (sep_index_spec _ Hi). lia.
  - apply finalized_plain.
Qed.

(** ** The normal form is an invariant of a parse *)

Lemma until_nul_idem s : CStr.until_nul (CStr.until_nul s) = CStr.until_nul s.
Proof.
  induction s as [|c s IH]; [reflexivity|]. simpl.
  destruct (Ascii.eqb c CStr.NUL) eqn:E; [reflexivity|]. simpl. rewrite E, IH. reflexivity.
Qed.

Lemma sub_options_nul_free v : Forall nul_free (sub_options v).
Proof.
  unfold sub_options. apply Forall_forall. intros k Hk. apply in_map_iff in Hk.
  destruct Hk as (x & <- & _). apply until_nul_idem.
Qed.

Lemma nf_append_pre optspecs argv0 out opts F :
  normal_form optspecs argv0 (out, opts, 0%nat) -> forallb (token_ok optspecs) F = true ->
  normal_form optspecs argv0 (out ++ F, opts, 0%nat).
Proof.
  intros (pre & post & K & Ho & Hpre & Hsep & Hk & HK) HF. simpl in *.
  destruct Hsep as [[_ ->]|[Hn _]]; [|discriminate].
  exists (pre ++ F), [], K. simpl. rewrite Ho, !app_nil_r, forallb_app, Hpre, HF.
  repeat split; auto.
Qed.

Lemma nf_append_post optspecs argv0 out opts n F :
  normal_form optspecs argv0 (out, opts, n) -> n <> 0%nat ->
  normal_form optspecs argv0 (out ++ F, opts, n).
Proof.
  intros (pre & post & K & Ho & Hpre & Hsep & Hk & HK) Hn. simpl in *.
  destruct Hsep as [[Hz _]|[Hs (post' & ->)]]; [contradiction|].
  exists pre, (("--" :: post') ++ F), K. simpl. rewrite Ho. simpl. rewrite <- app_assoc.
  repeat split; eauto.
Qed.

Lemma nf_append_group optspecs argv0 out opts n K' :
  normal_form optspecs argv0 (out, opts, n) ->
  Forall (fun k => nul_free k /\ accepts optspecs k = true) K' ->
  normal_form optspecs argv0 (out, merge_opts opts K', n).
Proof.
  intros (pre & post & K & Ho & Hpre & Hsep & Hk & HK) HK'. simpl in *.
  exists pre, post, (K ++ K'). simpl. rewrite merge_opts_app, <- Hk.
  repeat split; auto. apply Forall_app. auto.
Qed.

Lemma nf_separator optspecs argv0 out opts :
  normal_form optspecs argv0 (out, opts, 0%nat) ->
  normal_form optspecs argv0 (out ++ ["--"], opts, List.length (out ++ ["--"])).
Proof.
  intros (pre & post & K & Ho & Hpre & Hsep & Hk & HK). simpl in *.
  destruct Hsep as [[_ ->]|[Hn _]]; [|discriminate].
  exists pre, ["--"], K. simpl. rewrite Ho, app_nil_r.
  split; [reflexivity|]. split; [exact Hpre|]. split; [|auto].
  right. split; [|eauto]. simpl. rewrite length_app. simpl. lia.
Qed.

Lemma token_ok_repeat optspecs arg n :
  (n = 0%nat \/ token_ok optspecs arg = true) ->
  forallb (token_ok optspecs) (repeat arg n) = true.
Proof.
  intros [->|H]; [reflexivity|]. induction n; simpl; [reflexivity|]. now rewrite H.
Qed.

Lemma process_one_normal c r c1 argv0 :
  good c -> normal_form (in_opt c) argv0 (view c) ->
  process_one c = Done (r, c1) -> r <> -1 ->
  normal_form (in_opt c) argv0 (view c1) /\ good c1
  /\ in_opt c1 = in_opt c /\ in_args c1 = in_args c.
Proof.
  intros Hg Hnf H Hr. unfold process_one in H.
  destruct (nth_error (args_list (in_args c)) (tmp_argctr c)) as [arg|]; [|discriminate].
  assert (Hfin : forall F K c',
             added F K c c' ->
             normal_form (in_opt c) argv0
               (args_list (out_args c) ++ F, merge_opts (tmp_opts c) K, tmp_nonopt c) ->
             normal_form (in_opt c) argv0 (view c') /\ good c'
             /\ in_opt c' = in_opt c /\ in_args c' = in_args c).
  { intros F K c' Hadd Hn. rewrite (view_added Hadd). split; [exact Hn|].
    split; [exact (good_added Hg Hadd)|]. destruct Hadd as (a1 & _ & a3 & _). auto. }
  assert (Hgroup : forall subs c0 c',
             good c0 -> in_opt c0 = in_opt c -> in_args c0 = in_args c -> view c0 = view c ->
             dispatch_opts subs c0 = Done (r, c') -> Forall nul_free subs ->
             normal_form (in_opt c) argv0 (view c') /\ good c'
             /\ in_opt c' = in_opt c /\ in_args c' = in_args c).
  { intros subs c0 c' Hg0 Ho0 Ha0 Hv0 Hd Hnul.
    destruct (@dispatch_opts_kept subs c0 Hg0) as (r' & c'' & Hd' & Hr' & Hok & _).
    rewrite Hd in Hd'. inv Hd'. destruct Hr' as [-> | ->]; [|contradiction].
    destruct (Hok eq_refl) as (_ & K & Hadd & HK).
    rewrite (view_added Hadd). unfold view in Hv0. inv Hv0. rewrite Ho0 in *.
    rewrite app_nil_r. split.
    - unfold view in Hnf. rewrite H1, H2, H3. apply nf_append_group.
      + exact Hnf.
      + eapply Forall_impl; [|exact HK]. intros k [Hin Hacc]. split; [|exact Hacc].
        rewrite Forall_forall in Hnul. auto.
    - split; [exact (good_added Hg0 Hadd)|]. destruct Hadd as (a1 & _ & a3 & _).
      split; congruence. }
  unfold view in Hnf.
  destruct (negb (tmp_nonopt c =? 0)%nat || negb (Ascii.eqb (CStr.char_at arg 0) "-")) eqn:E0.
  { destruct (@call_proc_kept c arg FUSE_OPT_KEY_NONOPT GOPT_FLAG Hg)
      as (r' & c' & n & Hc & Hkept & _ & Hn & _).
    rewrite H in Hc. inv Hc. rewrite key_nonopt_not_discard in Hn.
    unfold kept in Hkept. apply (Hfin _ _ _ Hkept). cbn [merge_opts fold_left].
    destruct (tmp_nonopt c =? 0)%nat eqn:En.
    - apply Nat.eqb_eq in En. rewrite En in *. apply nf_append_pre; [exact Hnf|].
      apply token_ok_repeat. right. unfold token_ok. simpl in E0. rewrite E0. reflexivity.
    - apply Nat.eqb_neq in En. now apply nf_append_post. }
  apply orb_false_elim in E0. destruct E0 as [En E0].
  apply negb_false_iff in En, E0. apply Nat.eqb_eq in En.
  destruct (Ascii.eqb (CStr.char_at arg 1) "o") eqn:Eo.
  { destruct (negb (CStr.at_end arg 2)).
    - rewrite opts_loop_dispatch, decode_opts_two_pass in H.
      apply (Hgroup _ c c1 Hg eq_refl eq_refl eq_refl H).
      apply sub_options_nul_free.
    - destruct (tmp_argctr c + 1 <? argc (in_args c))%nat; [|inv H; contradiction].
      cbn [in_args set_argctr tmp_argctr] in H.
      destruct (nth_error (args_list (in_args c)) (tmp_argctr c + 1)) as [v|]; [|discriminate].
      rewrite opts_loop_dispatch, decode_opts_two_pass in H.
      apply (Hgroup _ (set_argctr c (tmp_argctr c + 1)) c1 Hg eq_refl eq_refl eq_refl H).
      apply sub_options_nul_free. }
  destruct (Ascii.eqb (CStr.char_at arg 1) "-" && CStr.at_end arg 2) eqn:E1.
  { pose proof (separator_token _ E0 E1) as ->. unfold obind in H.
    destruct (fuse_opt_add_arg (out_args c) "--") as [[r0 o]| |] eqn:Hadd; try discriminate.
    apply add_arg_done in Hadd. destruct Hadd as [-> ->]. change (0 =? -1) with false in H.
    cbv iota in H. inv H. unfold view, argc, args_list at 1 2. simpl.
    rewrite En in Hnf. split; [now apply nf_separator|].
    destruct Hg as (Hp & Ha & Hs). repeat split; auto. }
  destruct (@process_gopt_kept c arg GOPT_FLAG Hg) as (r' & c' & n & Hp & Hkept & Hr' & Hn & _).
  rewrite H in Hp. inv Hp. destruct Hr' as [-> | ->]; [|contradiction].
  destruct (Hn eq_refl) as [Hle Hnf'].
  unfold kept in Hkept. apply (Hfin _ _ _ Hkept). cbn [merge_opts fold_left].
  rewrite En in *. apply nf_append_pre; [exact Hnf|]. apply token_ok_repeat.
  destruct n; [now left|]. right. unfold token_ok, accepts. rewrite Eo, E1, Hnf'.
  replace (1 <=? keep_count (in_opt c) arg)%nat with true
    by (symmetry; apply Nat.leb_le; lia).
  cbn [negb andb]. apply orb_true_r.
Qed.

Lemma parse_loop_normal fuel argv0 : forall c r c',
  good c -> normal_form (in_opt c) argv0 (view c) ->
  parse_loop fuel c = Done (r, c') -> r <> -1 ->
  normal_form (in_opt c) argv0 (view c') /\ allocated (out_args c') = true.
Proof.
  induction fuel as [|fuel IH]; intros c r c' Hg Hnf H Hr; simpl in H.
  - destruct (tmp_argctr c <? argc (in_args c))%nat; [discriminate|]. inv H.
    split; [exact Hnf | apply Hg].
  - destruct (tmp_argctr c <? argc (in_args c))%nat; [|inv H; split; [exact Hnf | apply Hg]].
    unfold obind in H. destruct (process_one c) as [[r1 c1]| |] eqn:Hp; try discriminate.
    destruct (r1 =? -1) eqn:E; [inv H; contradiction|]. apply Z.eqb_neq in E.
    destruct (@process_one_normal c r1 c1 argv0 Hg Hnf Hp E) as (Hnf1 & Hg1 & Ho1 & _).
    rewrite <- Ho1. apply (IH (set_argctr c1 (tmp_argctr c1 + 1)) r c'); auto.
    change (in_opt (set_argctr c1 (tmp_argctr c1 + 1))) with (in_opt c1). rewrite Ho1.
    exact Hnf1.
Qed.

Lemma finalized_none_keep n out :
  n = 0%nat \/ n <> List.length out -> finalized None n out = out.
Proof.
  unfold finalized. intros [->|H]; [reflexivity|].
  apply Nat.eqb_neq in H. rewrite H, andb_false_r. reflexivity.
Qed.

Lemma finalized_none_strip out :
  finalized None (S (List.length out)) (out ++ ["--"]) = out.
Proof.
  unfold finalized.
  assert (E1 : negb (S (List.length out) =? 0)%nat = true) by reflexivity.
  assert (E2 : (S (List.length out) =? List.length (out ++ ["--"]))%nat = true)
    by (apply Nat.eqb_eq; rewrite length_app; simpl; lia).
  assert (E3 : nth (List.length (out ++ ["--"]) - 1) (out ++ ["--"]) EmptyString = "--").
  { rewrite length_app. simpl.
    replace (List.length out + 1 - 1)%nat with (List.length out) by lia. apply nth_middle. }
  rewrite E1, E2, E3, String.eqb_refl. cbn [andb]. apply removelast_last.
Qed.

(** ** Parsing a normal form again *)

Section SecondPass.

Variable optspecs : list fuse_opt.

(** No token can be kept through more than one entry. *)
Hypothesis single_keeper : forall arg, (keep_count optspecs arg <= 1)%nat.

Lemma accepts_once arg :
  accepts optspecs arg = true -> keep_count optspecs arg = 1%nat /\ fails optspecs arg = false.
Proof.
  unfold accepts. intros H. apply andb_prop in H. destruct H as [H1 H2].
  apply Nat.leb_le in H1. apply negb_true_iff in H2. specialize (single_keeper arg).
  split; [lia | exact H2].
Qed.

Lemma group_kept_accepted subs :
  Forall (fun k => accepts optspecs k = true) subs ->
  group_kept optspecs subs = subs /\ existsb (fails optspecs) subs = false.
Proof.
  unfold group_kept. induction 1 as [|k subs Hk _ [IH1 IH2]]; [split; reflexivity|].
  destruct (accepts_once _ Hk) as [Hc Hf]. cbn [flat_map existsb].
  rewrite Hc, Hf, IH1, IH2. split; reflexivity.
Qed.

Lemma rewrite_pre pre : forall rest out opts,
  forallb (token_ok optspecs) pre = true ->
  rewrite_loop optspecs (pre ++ rest) (out, opts, 0%nat)
  = rewrite_loop optspecs rest (out ++ pre, opts, 0%nat).
Proof.
  induction pre as [|a pre IH]; intros rest out opts H; [now rewrite app_nil_r|].
  cbn [forallb] in H. apply andb_prop in H. destruct H as [Ha Hpre].
  replace (out ++ a :: pre) with ((out ++ [a]) ++ pre) by (now rewrite <- app_assoc).
  cbn [app rewrite_loop Nat.eqb negb orb]. unfold token_ok in Ha.
  destruct (Ascii.eqb (CStr.char_at a 0) "-"); cbn [negb orb] in *; [|now apply IH].
  apply andb_prop in Ha. destruct Ha as [Ha Hacc]. apply andb_prop in Ha.
  destruct Ha as [Ho Hs]. apply negb_true_iff in Ho, Hs. rewrite Ho, Hs.
  destruct (accepts_once _ Hacc) as [-> ->]. now apply IH.
Qed.

Lemma rewrite_post post : forall out opts n,
  n <> 0%nat ->
  rewrite_loop optspecs post (out, opts, n) = Some (out ++ post, opts, n).
Proof.
  induction post as [|a post IH]; intros out opts n Hn; [simpl; now rewrite app_nil_r|].
  cbn [rewrite_loop]. apply Nat.eqb_neq in Hn. rewrite Hn. cbn [negb orb].
  apply Nat.eqb_neq in Hn. rewrite IH by exact Hn. now rewrite <- app_assoc.
Qed.

Lemma rewrite_separator post' out opts :
  rewrite_loop optspecs ("--" :: post') (out, opts, 0%nat)
  = Some (out ++ "--" :: post', opts, S (List.length out)).
Proof.
  cbn. rewrite rewrite_post.
  - rewrite <- app_assoc, length_app. simpl. do 2 f_equal. lia.
  - rewrite length_app. simpl. lia.
Qed.

Lemma drop_empty_forall (P : string -> Prop) K : Forall P K -> Forall P (drop_empty K).
Proof.
  induction 1 as [|k K Hk HK IH]; [constructor|]. destruct k; [exact IH|]. now constructor.
Qed.

Lemma drop_empty_idem K : drop_empty (drop_empty K) = drop_empty K.
Proof. induction K as [|k K IH]; [reflexivity|]. destruct k; [exact IH | reflexivity]. Qed.

Lemma drop_empty_nil (P : string -> Prop) K :
  K <> [] -> drop_empty K = [] -> Forall P K -> P EmptyString.
Proof.
  destruct K as [|k K]; [congruence|]. intros _ H HF. inv HF.
  destruct k; [assumption | discriminate].
Qed.

(** The merged group of a normal form is read back as the same group. *)
Lemma group_roundtrip K :
  K <> [] -> Forall (fun k => nul_free k /\ accepts optspecs k = true) K ->
  let m := String.concat "," (map (escape_into true) (drop_empty K)) in
  existsb (fails optspecs) (sub_options m) = false
  /\ merge_opts None (group_kept optspecs (sub_options m)) = Some m.
Proof.
  intros Hne HK m. subst m.
  destruct (drop_empty K) as [|k ks] eqn:Hd.
  - pose proof (@drop_empty_nil _ K Hne Hd HK) as [_ Hacc].
    change (sub_options (String.concat "," (map (escape_into true) []))) with [EmptyString].
    destruct (@group_kept_accepted [EmptyString]) as [-> ->]; [now constructor|].
    split; reflexivity.
  - pose proof (@drop_empty_forall _ K HK) as HK'. rewrite Hd in HK'.
    rewrite sub_options_joined
      by (eapply Forall_impl; [|exact HK']; intros x [Hx _]; exact Hx).
    destruct (@group_kept_accepted (k :: ks)) as [-> ->].
    { eapply Forall_impl; [|exact HK']. intros x [_ Hx]. exact Hx. }
    split; [reflexivity|]. rewrite merge_opts_drop_empty by discriminate.
    rewrite <- Hd, drop_empty_idem. reflexivity.
Qed.

Lemma rewrite_group m rest out opts :
  rewrite_loop optspecs ("-o" :: m :: rest) (out, opts, 0%nat)
  = if existsb (fails optspecs) (sub_options m) then None
    else rewrite_loop optspecs rest
           (out, merge_opts opts (group_kept optspecs (sub_options m)), 0%nat).
Proof. reflexivity. Qed.

(** The end of [fuse_opt_parse] applied to a normal form gives an
    argument vector that a second parse leaves as it is. *)
Lemma normal_form_fixed argv0 out opts nonopt :
  normal_form optspecs argv0 (out, opts, nonopt) ->
  exists tl1 out2 opts2 n2,
    finalized opts nonopt out = argv0 :: tl1
    /\ rewrite_loop optspecs tl1 ([argv0], None, 0%nat) = Some (out2, opts2, n2)
    /\ finalized opts2 n2 out2 = argv0 :: tl1.
Proof.
  intros (pre & post & K & Ho & Hpre & Hsep & Hk & HK). simpl in *. subst out opts.
  destruct K as [|k0 K0].
  - (* no merged group *)
    cbn [merge_opts fold_left].
    destruct Hsep as [[-> ->]|[-> (post' & ->)]].
    + exists pre, (argv0 :: pre), None, 0%nat. rewrite app_nil_r.
      split; [reflexivity|]. split; [|reflexivity].
      rewrite <- (app_nil_r pre) at 1. rewrite rewrite_pre by exact Hpre. reflexivity.
    + destruct post' as [|p ps].
      * exists pre, (argv0 :: pre), None, 0%nat.
        split; [|split; [|reflexivity]].
        -- apply (finalized_none_strip (argv0 :: pre)).
        -- rewrite <- (app_nil_r pre) at 1. rewrite rewrite_pre by exact Hpre. reflexivity.
      * exists (pre ++ "--" :: p :: ps), (argv0 :: pre ++ "--" :: p :: ps), None,
               (S (S (List.length pre))).
        assert (Hfin : finalized None (S (S (List.length pre))) (argv0 :: pre ++ "--" :: p :: ps)
                       = argv0 :: pre ++ "--" :: p :: ps).
        { apply finalized_none_keep. right. simpl. rewrite length_app. simpl. lia. }
        split; [exact Hfin|]. split; [|exact Hfin].
        rewrite rewrite_pre by exact Hpre. rewrite rewrite_separator. reflexivity.
  - (* a merged group *)
    assert (Hne : k0 :: K0 <> []) by discriminate.
    rewrite (merge_opts_drop_empty Hne).
    set (m := String.concat "," (map (escape_into true) (drop_empty (k0 :: K0)))).
    destruct (group_roundtrip Hne HK) as [Hnofail Hmerge]. fold m in Hnofail, Hmerge.
    assert (Hlen : (nonopt <= S (List.length (pre ++ post)))%nat).
    { rewrite length_app. destruct Hsep as [[-> _]|[-> (post' & ->)]]; simpl; lia. }
    exists ("-o" :: m :: pre ++ post).
    assert (Hsecond : rewrite_loop optspecs ("-o" :: m :: pre ++ post) ([argv0], None, 0%nat)
                      = rewrite_loop optspecs post (argv0 :: pre, Some m, 0%nat)).
    { rewrite rewrite_group, Hnofail, Hmerge. now rewrite rewrite_pre by exact Hpre. }
    rewrite (finalized_merged _ _ _ Hlen). rewrite Hsecond.
    destruct Hsep as [[-> ->]|[-> (post' & ->)]].
    + exists (argv0 :: pre), (Some m), 0%nat. split; [reflexivity|]. split; [reflexivity|].
      rewrite app_nil_r. apply finalized_merged. lia.
    + exists (argv0 :: pre ++ "--" :: post'), (Some m), (S (S (List.length pre))).
      split; [reflexivity|]. split; [apply (rewrite_separator post' (argv0 :: pre))|].
      apply finalized_merged. rewrite length_app. simpl. lia.
Qed.

End SecondPass.

Lemma strchr_none s c :
  CStr.strchr s c = None -> Ascii.eqb CStr.NUL c = false ->
  forall i, Ascii.eqb (CStr.char_at s i) c = false.
Proof.
  intros H Hc. induction s as [|a s IH]; intros i; [destruct i; exact Hc|].
  simpl in H. destruct (Ascii.eqb a c) eqn:E; [discriminate|].
  destruct (CStr.strchr s c); [discriminate|].
  destruct i as [|i]; simpl; [exact E | now apply IH].
Qed.

Lemma matching_in optspecs arg o sep : In (o, sep) (matching optspecs arg) -> In o optspecs.
Proof.
  induction optspecs as [|o' rest IH]; simpl; [contradiction|].
  destruct (templ o'); [|contradiction].
  destruct (match_template s arg); [|now right; apply IH].
  intros [E|H]; [inv E; now left | right; now apply IH].
Qed.

Lemma space_free_no_next optspecs :
  space_free optspecs = true -> forall arg, wants_next optspecs arg = false.
Proof.
  intros Hs arg. unfold wants_next.
  destruct (existsb (bare_space arg) (matching optspecs arg)) eqn:E; [|reflexivity].
  apply existsb_exists in E. destruct E as ([o sep] & Hin & Hb).
  apply matching_in in Hin. unfold space_free in Hs. rewrite forallb_forall in Hs.
  specialize (Hs _ Hin). destruct (CStr.strchr (templ_str o) " ") eqn:Hc; [discriminate|].
  unfold bare_space in Hb. cbn [fst snd] in Hb.
  rewrite (strchr_none _ _ Hc eq_refl sep) in Hb. rewrite andb_false_r in Hb. discriminate.
Qed.

Lemma matching_keepers optspecs arg :
  (List.length (filter (fun e => entry_keeps (fst e)) (matching optspecs arg))
   <= List.length (filter entry_keeps optspecs))%nat.
Proof.
  induction optspecs as [|o rest IH]; simpl; [lia|].
  destruct (templ o).
  - destruct (match_template s arg); simpl; destruct (entry_keeps o); simpl; lia.
  - simpl. lia.
Qed.

(** A table with at most one entry that keeps keeps no token twice. *)
Lemma one_keeping_entry optspecs :
  (List.length (filter entry_keeps optspecs) <= 1)%nat ->
  forall arg, (keep_count optspecs arg <= 1)%nat.
Proof.
  intros H arg. unfold keep_count. pose proof (matching_keepers optspecs arg) as Hm.
  destruct (matching optspecs arg); [lia|]. lia.
Qed.

(** C7 (amended).  Let the table hold no template with a space, and let no
    token be kept through more than one of its entries.  If a parse with a
    callback that leaves the output vector alone succeeds, then parsing
    its output with the same table and a callback that keeps every token
    (and leaves the output vector alone) succeeds and returns that output
    unchanged. *)
Theorem reparse_is_identity (optspecs : list fuse_opt) (args : option fuse_args)
    (d1 d2 : data) (proc1 proc2 : option fuse_opt_proc_t) (r1 : parse_result) :
  space_free optspecs = true ->
  (forall arg, (keep_count optspecs arg <= 1)%nat) ->
  (forall p, proc1 = Some p -> leaves_out_args p) ->
  (forall p, proc2 = Some p -> leaves_out_args p /\ always_keeps p) ->
  fuse_opt_parse args d1 optspecs proc1 = Done r1 -> res_code r1 = 0 ->
  exists r2, fuse_opt_parse (res_args r1) d2 optspecs proc2 = Done r2
             /\ res_code r2 = 0 /\ res_args r2 = res_args r1.
Proof.
  intros Hsf Hone Hp1 Hp2 Hparse Hcode.
  pose proof (space_free_no_next _ Hsf) as Hnext.
  destruct args as [a|]; [|inv Hparse; simpl; eexists; split; [reflexivity|]; auto].
  destruct (argv a) as [[|argv0 rest]|] eqn:Ha;
    try (unfold fuse_opt_parse in Hparse; rewrite Ha in Hparse; inv Hparse; simpl;
         unfold fuse_opt_parse; rewrite Ha; eexists; split; [reflexivity|]; auto).
  destruct (@fuse_opt_parse_run a d1 optspecs proc1 r1 argv0 rest Ha Hparse)
    as (r & c1 & Hl & [[_ ->]|(Hr & c2 & Hf & ->)]); [simpl in Hcode; discriminate|].
  cbn [res_args].
  assert (Hg : good (loop_entry a d1 optspecs proc1 argv0))
    by (now apply allowed_proc_good).
  assert (Hnf0 : normal_form optspecs argv0 (view (loop_entry a d1 optspecs proc1 argv0))).
  { exists [], [], []. simpl. repeat split; auto. }
  destruct (@parse_loop_normal (argc a) argv0 _ r c1 Hg Hnf0 Hl Hr) as [Hnf Hal].
  change (in_opt (loop_entry a d1 optspecs proc1 argv0)) with optspecs in Hnf.
  assert (Hne : args_list (out_args c1) <> []).
  { destruct Hnf as (pre & post & K & Ho & _). simpl in Ho. rewrite Ho. discriminate. }
  destruct (@finalize_total c1 Hal Hne) as (c2' & Hf' & Hout).
  rewrite Hf in Hf'. inv Hf'.
  destruct (@normal_form_fixed optspecs Hone argv0 _ _ _ Hnf)
    as (tl1 & out2 & opts2 & n2 & Hfin1 & Hrw & Hfin2).
  rewrite Hout, Hfin1.
  pose proof (@fuse_opt_parse_rewrite (mk_args (Some (argv0 :: tl1)) true) d2 optspecs proc2
                argv0 tl1 eq_refl Hp2 Hnext) as H2.
  rewrite Hrw in H2. destruct H2 as (r2 & H2 & Hc2 & Ha2).
  exists r2. split; [exact H2|]. split; [exact Hc2|]. rewrite Ha2, Hfin2. reflexivity.
Qed.

(** ** Missing arguments *)

Lemma run_entries_missing es : forall c arg typ r c',
  existsb (bare_space arg) es = true ->
  (argc (in_args c) <= tmp_argctr c + 1)%nat ->
  run_entries es c arg typ = Done (r, c') -> r = -1.
Proof.
  induction es as [|[o sep] es IH]; intros c arg typ r c' Hex Hlast H; [discriminate|].
  simpl in Hex, H. unfold obind in H.
  destruct (gopt_body c o sep arg typ) as [[r1 c1]| |] eqn:Hb; try discriminate.
  destruct (r1 =? -1) eqn:E; [inv H; reflexivity|].
  apply orb_prop in Hex. destruct Hex as [Hex|Hex].
  - unfold bare_space in Hex. cbn [fst snd] in Hex. unfold gopt_body in Hb. rewrite Hex in Hb.
    apply Nat.leb_le in Hlast. rewrite Hlast in Hb. inv Hb. discriminate.
  - apply gopt_body_continues in Hb. destruct Hb as (_ & _ & Ha & Hc & _).
    eapply IH; [exact Hex | rewrite Ha; lia | exact H].
Qed.

Lemma process_gopt_missing c arg typ r c' :
  wants_next (in_opt c) arg = true ->
  (argc (in_args c) <= tmp_argctr c + 1)%nat ->
  process_gopt c arg typ = Done (r, c') -> r = -1.
Proof.
  unfold wants_next. rewrite process_gopt_entries. intros Hw Hlast.
  destruct (matching (in_opt c) arg) as [|e es]; [discriminate|].
  now apply run_entries_missing.
Qed.

Lemma dispatch_opts_missing subs : forall c r c',
  existsb (wants_next (in_opt c)) subs = true ->
  (argc (in_args c) <= tmp_argctr c + 1)%nat ->
  dispatch_opts subs c = Done (r, c') -> r = -1.
Proof.
  induction subs as [|a subs IH]; intros c r c' Hex Hlast H; [discriminate|].
  simpl in Hex, H. unfold obind in H.
  destruct (process_gopt c a GOPT_OPTION) as [[r1 c1]| |] eqn:Hg; try discriminate.
  destruct (r1 =? -1) eqn:E; [inv H; reflexivity|].
  apply orb_prop in Hex. destruct Hex as [Hex|Hex].
  - apply (process_gopt_missing _ _ _ Hex Hlast) in Hg. subst r1. discriminate.
  - apply process_gopt_continues in Hg. destruct Hg as (Ho & _ & Ha & Hc & _).
    eapply IH; [rewrite Ho; exact Hex | rewrite Ha; lia | exact H].
Qed.

Lemma process_one_missing c r c' :
  missing_argument c = true -> process_one c = Done (r, c') -> r = -1.
Proof.
  unfold missing_argument, process_one.
  destruct (nth_error (args_list (in_args c)) (tmp_argctr c)) as [arg|]; [|discriminate].
  intros Hm H. apply andb_prop in Hm. destruct Hm as [Hm Hcase].
  apply andb_prop in Hm. destruct Hm as [Hn H0]. rewrite Hn, H0 in H. cbn [negb orb] in H.
  destruct (Ascii.eqb (CStr.char_at arg 1) "o").
  - destruct (negb (CStr.at_end arg 2)).
    + apply andb_prop in Hcase. destruct Hcase as [Hlast Hex]. apply Nat.leb_le in Hlast.
      rewrite opts_loop_dispatch, decode_opts_two_pass in H.
      eapply dispatch_opts_missing; [exact Hex | exact Hlast | exact H].
    + destruct (tmp_argctr c + 1 <? argc (in_args c))%nat eqn:Hlt; [|inv H; reflexivity].
      cbn [in_args set_argctr tmp_argctr] in H.
      destruct (nth_error (args_list (in_args c)) (tmp_argctr c + 1)) as [v|]; [|discriminate].
      apply andb_prop in Hcase. destruct Hcase as [Hlast Hex]. apply Nat.leb_le in Hlast.
      rewrite opts_loop_dispatch, decode_opts_two_pass in H.
      apply (@dispatch_opts_missing (sub_options v) (set_argctr c (tmp_argctr c + 1)) r c');
        [exact Hex | cbn [in_args set_argctr tmp_argctr]; lia | exact H].
  - destruct (Ascii.eqb (CStr.char_at arg 1) "-" && CStr.at_end arg 2); [discriminate|].
    apply andb_prop in Hcase. destruct Hcase as [Hlast Hex]. apply Nat.leb_le in Hlast.
    eapply process_gopt_missing; eassumption.
Qed.

Lemma reaches_in_args c c' : loop_reaches c c' -> in_args c' = in_args c.
Proof.
  induction 1 as [|c r c1 c' _ Hp _ _ IH]; [reflexivity|].
  apply process_one_continues in Hp. destruct Hp as (_ & _ & Ha & _). rewrite IH. exact Ha.
Qed.

Lemma loop_fails_where_reached c c' :
  loop_reaches c c' ->
  (tmp_argctr c' < argc (in_args c'))%nat ->
  (forall r c2, process_one c' = Done (r, c2) -> r = -1) ->
  forall fuel r c2, parse_loop fuel c = Done (r, c2) -> r = -1.
Proof.
  induction 1 as [c|c r1 c1 c' Hlt Hp Hr _ IH]; intros Hlt' Hfail fuel r c2 H.
  - destruct fuel as [|fuel]; simpl in H; apply Nat.ltb_lt in Hlt'; rewrite Hlt' in H;
      [discriminate|].
    unfold obind in H. destruct (process_one c) as [[r1 c1]| |] eqn:Hp; try discriminate.
    specialize (Hfail r1 c1 eq_refl). subst r1. simpl in H. inv H. reflexivity.
  - destruct fuel as [|fuel]; simpl in H; apply Nat.ltb_lt in Hlt; rewrite Hlt in H;
      [discriminate|].
    unfold obind in H. rewrite Hp in H. apply Z.eqb_neq in Hr. rewrite Hr in H.
    eapply IH; eassumption.
Qed.

(** The loop gets to [c'], and there [process_one] returns -1: with the
    fuel that [fuse_opt_parse] gives it, the loop returns that. *)
Lemma loop_returns_failure c c' :
  loop_reaches c c' ->
  (tmp_argctr c' < argc (in_args c'))%nat ->
  forall c2, process_one c' = Done (-1, c2) ->
  forall fuel, (argc (in_args c) - tmp_argctr c <= fuel)%nat ->
  parse_loop fuel c = Done (-1, c2).
Proof.
  induction 1 as [c|c r1 c1 c' Hlt Hp Hr _ IH]; intros Hlt' c2 Hfail fuel Hfuel.
  - destruct fuel as [|fuel]; [lia|]. simpl. apply Nat.ltb_lt in Hlt'. rewrite Hlt'.
    unfold obind. rewrite Hfail. reflexivity.
  - destruct fuel as [|fuel]; [lia|]. simpl. apply Nat.ltb_lt in Hlt. rewrite Hlt.
    unfold obind. rewrite Hp. apply Z.eqb_neq in Hr. rewrite Hr.
    apply IH; [exact Hlt' | exact Hfail|].
    apply process_one_continues in Hp. destruct Hp as (_ & _ & Ha & Hc & _).
    cbn [in_args set_argctr tmp_argctr]. rewrite Ha. apply Nat.ltb_lt in Hlt. lia.
Qed.


End Parser.

(** * Further properties of the helpers and of the parser *)

(** ** The helpers on [struct fuse_args] *)

Lemma add_arg_ok (a : fuse_args) (arg : string) :
  (argv a = None \/ allocated a = true) ->
  fuse_opt_add_arg a arg = Done (0, mk_args (Some (args_list a ++ [arg])) true).
Proof.
  unfold fuse_opt_add_arg. intros [H|H]; rewrite H; [reflexivity|].
  destruct (argv a); reflexivity.
Qed.

Lemma nth_error_insert (l : list string) (pos : nat) (arg : string) :
  (pos <= List.length l)%nat ->
  let l' := firstn pos l ++ arg :: skipn pos l in
  nth_error l' pos = Some arg
  /\ (forall i, (i < pos)%nat -> nth_error l' i = nth_error l i)
  /\ (forall i, (pos <= i)%nat -> nth_error l' (S i) = nth_error l i).
Proof.
  intros Hp l'. subst l'.
  assert (Hl : List.length (firstn pos l) = pos) by (rewrite length_firstn; lia).
  split; [|split].
  - rewrite nth_error_app2 by lia. rewrite Hl, Nat.sub_diag. reflexivity.
  - intros i Hi. rewrite nth_error_app1 by lia. rewrite nth_error_firstn.
    replace (i <? pos)%nat with true by (symmetry; apply Nat.ltb_lt; exact Hi). reflexivity.
  - intros i Hi. rewrite nth_error_app2 by lia. rewrite Hl.
    replace (S i - pos)%nat with (S (i - pos)) by lia. cbn [nth_error].
    rewrite nth_error_skipn. f_equal. lia.
Qed.

Lemma insert_arg_ok (a : fuse_args) (pos : nat) (arg : string) :
  (argv a = None \/ allocated a = true) -> (pos <= argc a)%nat ->
  fuse_opt_insert_arg a pos arg
  = Done (0, mk_args (Some (firstn pos (args_list a) ++ arg :: skipn pos (args_list a))) true).
Proof.
  intros Ha Hp. unfold fuse_opt_insert_arg, fuse_opt_insert_arg_common.
  replace (argc a <? pos)%nat with false by (symmetry; apply Nat.ltb_ge; exact Hp).
  rewrite (add_arg_ok a arg Ha). unfold obind. change (0 =? -1) with false. cbv iota.
  unfold argc at 1, args_list at 1. cbn [argv allocated]. rewrite length_app. cbn [List.length].
  destruct (pos =? List.length (args_list a) + 1 - 1)%nat eqn:E; cbn [negb]; [|reflexivity].
  apply Nat.eqb_eq in E. unfold argc in Hp.
  replace pos with (List.length (args_list a)) by lia.
  rewrite firstn_all, skipn_all. reflexivity.
Qed.

(** X1.  [fuse_opt_insert_arg] on a vector that is empty (NULL [argv]) or owned
    by the library, at a position inside it or right after its end:
    it returns 0; the vector is one longer and owned; the new string is at
    [pos], what was in front of [pos] stays where it was and what was at
    [pos] or behind has moved up by one. *)
Theorem insert_arg_places (a : fuse_args) (pos : nat) (arg : string) :
  (argv a = None \/ allocated a = true) -> (pos <= argc a)%nat ->
  exists a',
    fuse_opt_insert_arg a pos arg = Done (0, a')
    /\ allocated a' = true
    /\ argc a' = S (argc a)
    /\ nth_error (args_list a') pos = Some arg
    /\ (forall i, (i < pos)%nat -> nth_error (args_list a') i = nth_error (args_list a) i)
    /\ (forall i, (pos <= i)%nat ->
          nth_error (args_list a') (S i) = nth_error (args_list a) i).
Proof.
  intros Ha Hp.
  exists (mk_args (Some (firstn pos (args_list a) ++ arg :: skipn pos (args_list a))) true).
  split; [exact (insert_arg_ok a arg Ha Hp)|]. split; [reflexivity|].
  unfold argc in *. set (L := args_list a) in *. unfold args_list. cbn [argv].
  split.
  - rewrite length_app. cbn [List.length]. rewrite length_firstn, length_skipn. lia.
  - apply nth_error_insert. exact Hp.
Qed.

(** X2.  Inserting at the end is appending: at position [argc],
    [fuse_opt_insert_arg] does what [fuse_opt_add_arg] does, the failed
    assertion included. *)
Theorem insert_at_end_is_add (a : fuse_args) (arg : string) :
  fuse_opt_insert_arg a (argc a) arg = fuse_opt_add_arg a arg
  /\ fuse_opt_insert_arg_compat a (argc a) arg = fuse_opt_add_arg a arg.
Proof.
  assert (H : fuse_opt_insert_arg_common a (argc a) arg = fuse_opt_add_arg a arg).
  { unfold fuse_opt_insert_arg_common. rewrite Nat.ltb_irrefl.
    destruct (fuse_opt_add_arg a arg) as [[r a1]| |] eqn:E; try reflexivity.
    apply add_arg_done in E. destruct E as [-> ->]. unfold obind.
    change (0 =? -1) with false. cbv iota.
    unfold argc at 2, args_list at 1. cbn [argv]. rewrite length_app. cbn [List.length].
    unfold argc. replace (List.length (args_list a) + 1 - 1)%nat with (List.length (args_list a))
      by lia.
    rewrite Nat.eqb_refl. reflexivity. }
  split; exact H.
Qed.


(** X4.  After [fuse_opt_free_args], whatever the vector was, it can be built
    anew: adding the strings of a list one by one with [fuse_opt_add_arg]
    never fails and gives a vector that holds exactly the list and is
    marked as allocated. *)
Theorem add_args_after_free (a : fuse_args) (x : string) (l : list string) :
  exists z, fuse_opt_free_args (Some a) = Some z
            /\ argc z = 0%nat
            /\ add_args z (x :: l) = Done (0, mk_args (Some (x :: l)) true).
Proof.
  exists args_zero. split; [reflexivity|]. split; [reflexivity|].
  assert (H : forall l acc, add_args (mk_args (Some acc) true) l
                            = Done (0, mk_args (Some (acc ++ l)) true)).
  { induction l0 as [|y l0 IH]; intros acc; cbn [add_args].
    - now rewrite app_nil_r.
    - rewrite add_arg_ok by (now right). unfold obind. change (0 =? -1) with false. cbv iota.
      unfold args_list. cbn [argv]. rewrite IH, <- app_assoc. reflexivity. }
  cbn [add_args]. rewrite add_arg_ok by (now left). unfold obind.
  change (0 =? -1) with false. cbv iota. unfold args_list. cbn [argv app]. apply H.
Qed.

(** ** The option list *)

Lemma escape_into_length esc opt :
  (String.length opt <= String.length (escape_into esc opt) <= 2 * String.length opt)%nat.
Proof.
  induction opt as [|c opt IH]; cbn [escape_into String.length]; [lia|].
  destruct (esc && (Ascii.eqb c "," || Ascii.eqb c "\")%char); cbn [String.length]; lia.
Qed.

Lemma escape_into_false opt : escape_into false opt = opt.
Proof. induction opt as [|c opt IH]; cbn [escape_into andb]; [reflexivity | now rewrite IH]. Qed.

(** X5.  What [add_opt_common] writes fits the block it asked [realloc] for:
    the new list with its terminating NUL is not longer than
    [oldlen + 1 + strlen(opt) * 2 + 1] bytes, whether it escapes or not;
    and it never makes the list shorter. *)
Theorem add_opt_fits (opts : option string) (opt : string) (esc : bool) :
  exists s,
    add_opt_common opts opt esc = Some s
    /\ (String.length s + 1 <= add_opt_alloc opts opt)%nat
    /\ (String.length (match opts with Some o => o | None => EmptyString end) + String.length opt
        <= String.length s)%nat.
Proof.
  unfold add_opt_common, add_opt_alloc. eexists. split; [reflexivity|].
  pose proof (escape_into_length esc opt) as He.
  rewrite !string_length_app.
  destruct opts as [o|]; cbn [String.length].
  - destruct (String.length o =? 0)%nat; cbn [String.length]; lia.
  - cbn [Nat.eqb String.length]. lia.
Qed.

(** X6.  [fuse_opt_add_opt] copies the option as it is: the list becomes the
    option when it was NULL or empty, and the old list, a comma and the
    option otherwise.  [fuse_opt_add_opt_escaped] does the same to an
    option that holds neither a comma nor a backslash. *)
Theorem add_opt_verbatim (opts : option string) (opt : string) :
  let old := match opts with Some o => o | None => EmptyString end in
  let joined := if (String.length old =? 0)%nat then opt else (old ++ "," ++ opt)%string in
  fuse_opt_add_opt opts opt = Some joined
  /\ (CStr.strchr opt "," = None -> CStr.strchr opt "\" = None ->
      fuse_opt_add_opt_escaped opts opt = Some joined).
Proof.
  intros old joined.
  assert (Hj : forall e, escape_into e opt = opt -> add_opt_common opts opt e = Some joined).
  { intros e He. unfold add_opt_common. rewrite He. fold old. subst joined.
    destruct old as [|c o]; reflexivity. }
  split; [apply Hj, escape_into_false|].
  intros Hc Hb. apply Hj. clear Hj joined.
  induction opt as [|c opt IH]; [reflexivity|]. cbn [escape_into andb].
  cbn [CStr.strchr] in Hc, Hb.
  destruct (Ascii.eqb c ","); [discriminate|]. destruct (Ascii.eqb c "\"); [discriminate|].
  cbn [orb]. rewrite IH; [reflexivity| |].
  - destruct (CStr.strchr opt ","); [discriminate | reflexivity].
  - destruct (CStr.strchr opt "\"); [discriminate | reflexivity].
Qed.

(** ** Templates *)

Lemma strchr_some s c i :
  CStr.strchr s c = Some i ->
  (i < String.length s)%nat /\ CStr.char_at s i = c
  /\ CStr.strchr (CStr.take i s) c = None.
Proof.
  revert i. induction s as [|a s IH]; intros i H; cbn [CStr.strchr] in H; [discriminate|].
  destruct (Ascii.eqb a c) eqn:E.
  - inv H. apply Ascii.eqb_eq in E. cbn. split; [lia | auto].
  - destruct (CStr.strchr s c) as [j|]; [|discriminate]. inv H.
    destruct (IH j eq_refl) as (H1 & H2 & H3). cbn [String.length CStr.char_at CStr.take].
    split; [lia|]. split; [exact H2|]. cbn [CStr.strchr]. rewrite E, H3. reflexivity.
Qed.

Lemma strchr_app s1 s2 c :
  CStr.strchr (s1 ++ s2) c
  = match CStr.strchr s1 c with
    | Some i => Some i
    | None => match CStr.strchr s2 c with
              | Some j => Some (String.length s1 + j)%nat
              | None => None
              end
    end.
Proof.
  induction s1 as [|a s1 IH]; cbn [String.append CStr.strchr String.length].
  - destruct (CStr.strchr s2 c); reflexivity.
  - destruct (Ascii.eqb a c); [reflexivity|]. rewrite IH.
    destruct (CStr.strchr s1 c); [reflexivity|]. destruct (CStr.strchr s2 c); reflexivity.
Qed.

Lemma char_at_app s1 s2 i : CStr.char_at (s1 ++ s2) (String.length s1 + i) = CStr.char_at s2 i.
Proof. induction s1 as [|a s1 IH]; [reflexivity | exact IH]. Qed.

Lemma take_app s1 s2 : CStr.take (String.length s1) (s1 ++ s2) = s1.
Proof. induction s1 as [|a s1 IH]; cbn; [destruct s2; reflexivity | now rewrite IH]. Qed.

Lemma take_all s : CStr.take (String.length s) s = s.
Proof. induction s as [|a s IH]; cbn; [reflexivity | now rewrite IH]. Qed.

Lemma drop_app s1 s2 : CStr.drop (String.length s1) (s1 ++ s2) = s2.
Proof. induction s1 as [|a s1 IH]; [reflexivity | exact IH]. Qed.

Lemma strncmp_eq_refl n : forall s, CStr.strncmp_eq s s n = true.
Proof.
  induction n as [|n IH]; intros s; destruct s as [|c s]; try reflexivity.
  cbn [CStr.strncmp_eq]. rewrite Ascii.eqb_refl. apply IH.
Qed.

Lemma strncmp_eq_prefix p : forall a b, CStr.strncmp_eq (p ++ a) (p ++ b) (String.length p) = true.
Proof.
  induction p as [|c p IH]; intros a b; [destruct a; reflexivity|].
  cbn [String.append String.length CStr.strncmp_eq]. rewrite Ascii.eqb_refl. apply IH.
Qed.

Lemma strncmp_eq_take n : forall a b,
  (n <= String.length a)%nat -> CStr.strncmp_eq a b n = true ->
  CStr.take n a = CStr.take n b /\ (n <= String.length b)%nat.
Proof.
  induction n as [|n IH]; intros a b Hn H; [split; [reflexivity | lia]|].
  destruct a as [|x a]; [simpl in Hn; lia|]. destruct b as [|y b]; [discriminate|].
  cbn [CStr.strncmp_eq] in H. apply andb_prop in H. destruct H as [Hx H].
  apply Ascii.eqb_eq in Hx. subst y. cbn [String.length] in Hn.
  destruct (IH a b) as [E Hb]; [lia | exact H |].
  cbn [CStr.take String.length]. rewrite E. split; [reflexivity | lia].
Qed.

Lemma char_at_take n : forall s i, (i < n)%nat -> CStr.char_at (CStr.take n s) i = CStr.char_at s i.
Proof.
  induction n as [|n IH]; intros s i Hi; [lia|]. destruct s as [|c s]; [reflexivity|].
  destruct i as [|i]; [reflexivity|]. cbn [CStr.take CStr.char_at]. apply IH. lia.
Qed.

Lemma take_take n : forall m s, (n <= m)%nat -> CStr.take n (CStr.take m s) = CStr.take n s.
Proof.
  induction n as [|n IH]; intros m s Hm; [destruct (CStr.take m s); destruct s; reflexivity|].
  destruct m as [|m]; [lia|]. destruct s as [|c s]; [reflexivity|].
  cbn [CStr.take]. rewrite IH by lia. reflexivity.
Qed.

Lemma match_template_sep t arg :
  match_template t arg =
  match (match template_sep t with
         | Some i =>
             if ((if Ascii.eqb (CStr.char_at t i) "=" then S i else i) <=? String.length arg)%nat
                && CStr.strncmp_eq arg t (if Ascii.eqb (CStr.char_at t i) "=" then S i else i)
             then Some i else None
         | None => None
         end) with
  | Some i => Some i
  | None => if String.eqb t arg then Some 0%nat else None
  end.
Proof. reflexivity. Qed.

Lemma template_sep_some t i :
  template_sep t = Some i ->
  (i < String.length t)%nat
  /\ (CStr.char_at t i = "="%char \/ CStr.char_at t i = " "%char)
  /\ (CStr.at_end t (i + 1) = true \/ CStr.char_at t (i + 1) = "%"%char).
Proof.
  unfold template_sep. intros H.
  destruct (match CStr.strchr t "=" with Some i => Some i | None => CStr.strchr t " " end)
    as [j|] eqn:E; [|discriminate].
  destruct (negb (CStr.at_end t (j + 1)) && negb (Ascii.eqb (CStr.char_at t (j + 1)) "%"))
    eqn:Ev; inv H.
  assert (Hj : (i < String.length t)%nat
               /\ (CStr.char_at t i = "="%char \/ CStr.char_at t i = " "%char)).
  { destruct (CStr.strchr t "=") as [k|] eqn:Ek.
    - inv E. apply strchr_some in Ek. destruct Ek as (? & ? & _). auto.
    - apply strchr_some in E. destruct E as (? & ? & _). auto. }
  destruct Hj as [H1 H2]. split; [exact H1|]. split; [exact H2|].
  apply andb_false_iff in Ev. destruct Ev as [Ev|Ev]; apply negb_false_iff in Ev.
  - now left.
  - right. now apply Ascii.eqb_eq.
Qed.

(** X7.  What a match tells.  When [match_template] accepts an argument, then
    either it returns 0 and the argument is the template itself, or it
    returns the index of a separator of the template: a "=" or a " ",
    followed in the template by nothing or by "%"; the argument is at
    least that long and begins with the name in front of the separator,
    and for "=" the argument has the "=" as well, so that the value,
    which [process_opt] takes to start behind the separator index, starts
    inside the argument. *)
Theorem match_template_sound (t arg : string) (sep : nat) :
  match_template t arg = Some sep ->
  (sep = 0%nat /\ t = arg)
  \/ ((sep < String.length t)%nat
      /\ (CStr.char_at t sep = "="%char \/ CStr.char_at t sep = " "%char)
      /\ (CStr.at_end t (sep + 1) = true \/ CStr.char_at t (sep + 1) = "%"%char)
      /\ (sep <= String.length arg)%nat
      /\ CStr.take sep arg = CStr.take sep t
      /\ (CStr.char_at t sep = "="%char ->
          CStr.char_at arg sep = "="%char /\ (sep < String.length arg)%nat)).
Proof.
  rewrite match_template_sep. intros H.
  destruct (template_sep t) as [i|] eqn:Es.
  - set (stemlen := if Ascii.eqb (CStr.char_at t i) "=" then S i else i) in *.
    destruct ((stemlen <=? String.length arg)%nat && CStr.strncmp_eq arg t stemlen) eqn:Em.
    + inv H. right. apply template_sep_some in Es. destruct Es as (H1 & H2 & H3).
      apply andb_prop in Em. destruct Em as [Hl Hc]. apply Nat.leb_le in Hl.
      destruct (@strncmp_eq_take _ _ _ Hl Hc) as [Ht _].
      assert (Hi : (sep <= stemlen)%nat) by (subst stemlen; destruct (Ascii.eqb _ _); lia).
      split; [exact H1|]. split; [exact H2|]. split; [exact H3|]. split; [lia|]. split.
      * rewrite <- (take_take arg Hi), <- (take_take t Hi), Ht. reflexivity.
      * intros He. subst stemlen. rewrite He in Ht, Hl.
        change (Ascii.eqb "=" "=") with true in Ht, Hl. cbv iota in Ht, Hl.
        split; [|lia].
        rewrite <- (char_at_take (n:=S sep) arg) by lia.
        rewrite Ht, char_at_take by lia. exact He.
    + destruct (String.eqb t arg) eqn:E; inv H. apply String.eqb_eq in E. now left.
  - destruct (String.eqb t arg) eqn:E; inv H. apply String.eqb_eq in E. now left.
Qed.

(** X8.  A template "name=" or "name=%conv" matches every argument that begins
    with "name=", whatever follows the "=", and reports the index of the
    "=". *)
Theorem eq_template_matches (name fmt v : string) :
  CStr.strchr name "=" = None ->
  (fmt = EmptyString \/ CStr.char_at fmt 0 = "%"%char) ->
  match_template (name ++ "=" ++ fmt) (name ++ "=" ++ v) = Some (String.length name).
Proof.
  intros Hn Hf. rewrite match_template_sep.
  assert (Hs : template_sep (name ++ "=" ++ fmt) = Some (String.length name)).
  { unfold template_sep. rewrite strchr_app, Hn. cbn [String.append CStr.strchr].
    change (Ascii.eqb "=" "=") with true. cbv iota. rewrite Nat.add_0_r.
    change (String "=" fmt) with ("=" ++ fmt)%string.
    replace (String.length name + 1)%nat with (String.length (name ++ "=") + 0)%nat
      by (rewrite string_length_app; simpl; lia).
    rewrite <- string_app_assoc, char_at_app.
    unfold CStr.at_end. rewrite !string_length_app. cbn [String.length].
    destruct Hf as [-> | Hf].
    - cbn [String.length]. replace (_ <=? _)%nat with true by (symmetry; apply Nat.leb_le; lia).
      reflexivity.
    - rewrite Hf. rewrite andb_false_r. reflexivity. }
  rewrite Hs.
  replace (CStr.char_at (name ++ "=" ++ fmt) (String.length name)) with "="%char
    by (rewrite <- (Nat.add_0_r (String.length name)), char_at_app; reflexivity).
  change (Ascii.eqb "=" "=") with true. cbv iota.
  replace (S (String.length name)) with (String.length (name ++ "="))
    by (rewrite string_length_app; simpl; lia).
  rewrite <- !string_app_assoc, strncmp_eq_prefix, !string_length_app.
  replace (_ <=? _)%nat with true by (symmetry; apply Nat.leb_le; lia).
  reflexivity.
Qed.

(** X9.  A template "name " or "name %conv" matches every argument that begins
    with the name: the name alone (the value is then the next argument)
    and the name with anything right behind it. *)
Theorem space_template_matches (name fmt v : string) :
  CStr.strchr name "=" = None -> CStr.strchr name " " = None ->
  CStr.strchr fmt "=" = None ->
  (fmt = EmptyString \/ CStr.char_at fmt 0 = "%"%char) ->
  match_template (name ++ " " ++ fmt) (name ++ v) = Some (String.length name).
Proof.
  intros Hn Hsp Hfe Hf. rewrite match_template_sep.
  assert (Hs : template_sep (name ++ " " ++ fmt) = Some (String.length name)).
  { unfold template_sep. rewrite !strchr_app, Hn, Hsp. cbn [String.append CStr.strchr].
    change (Ascii.eqb " " "=") with false. change (Ascii.eqb " " " ") with true. cbv iota.
    rewrite Hfe, Nat.add_0_r.
    change (String " " fmt) with (" " ++ fmt)%string.
    replace (String.length name + 1)%nat with (String.length (name ++ " ") + 0)%nat
      by (rewrite string_length_app; simpl; lia).
    rewrite <- string_app_assoc, char_at_app.
    unfold CStr.at_end. rewrite !string_length_app. cbn [String.length].
    destruct Hf as [-> | Hf].
    - cbn [String.length]. replace (_ <=? _)%nat with true by (symmetry; apply Nat.leb_le; lia).
      reflexivity.
    - rewrite Hf. rewrite andb_false_r. reflexivity. }
  rewrite Hs.
  replace (CStr.char_at (name ++ " " ++ fmt) (String.length name)) with " "%char
    by (rewrite <- (Nat.add_0_r (String.length name)), char_at_app; reflexivity).
  change (Ascii.eqb " " "=") with false. cbv iota.
  rewrite strncmp_eq_prefix, string_length_app.
  replace (_ <=? _)%nat with true by (symmetry; apply Nat.leb_le; lia).
  reflexivity.
Qed.

(** X10.  A template without "=" and without " " matches the argument that is
    equal to it and no other: there is no matching by prefix. *)
Theorem plain_template_is_exact (t arg : string) :
  CStr.strchr t "=" = None -> CStr.strchr t " " = None ->
  (match_template t arg = Some 0%nat <-> t = arg)
  /\ (match_template t arg = None <-> t <> arg).
Proof.
  intros He Hs. rewrite match_template_sep. unfold template_sep. rewrite He, Hs.
  destruct (String.eqb t arg) eqn:E.
  - apply String.eqb_eq in E. split; split; intros H; auto; congruence.
  - apply String.eqb_neq in E. split; split; intros H; auto; congruence.
Qed.

(** X11.  Every template matches itself, with or without a separator. *)
Theorem template_matches_itself (t : string) :
  exists sep, match_template t t = Some sep /\ (sep < String.length t \/ sep = 0)%nat.
Proof.
  rewrite match_template_sep. destruct (template_sep t) as [i|] eqn:Es.
  - apply template_sep_some in Es. destruct Es as (Hi & _).
    rewrite strncmp_eq_refl, andb_true_r.
    replace (_ <=? _)%nat with true
      by (symmetry; apply Nat.leb_le; destruct (Ascii.eqb _ _); lia).
    exists i. auto.
  - rewrite String.eqb_refl. exists 0%nat. auto.
Qed.

(** ** [fuse_opt_match] *)

Lemma entries_terminated l1 off v l2 :
  entries (l1 ++ mk_opt None off v :: l2) = entries l1.
Proof.
  induction l1 as [|o l1 IH]; [reflexivity|]. cbn [app entries].
  destruct (templ o); [now rewrite IH | reflexivity].
Qed.

(** X12.  [fuse_opt_match] has a result only when no entry in front of the
    first entry without template (FUSE_OPT_END) matches the argument, and
    the result is then 0; what is behind the terminator is never looked
    at.  When an entry matches, [match_template] has stored a [size_t]
    through the address of the [unsigned dummy], and the call has no
    result to speak of. *)
Theorem fuse_opt_match_spec (optspecs : list fuse_opt) (arg : string) :
  (fuse_opt_match optspecs arg = Some 0
   <-> existsb (matches arg) (entries optspecs) = false)
  /\ (fuse_opt_match optspecs arg = None
      <-> existsb (matches arg) (entries optspecs) = true)
  /\ (forall off v behind,
        fuse_opt_match (optspecs ++ mk_opt None off v :: behind) arg
        = fuse_opt_match optspecs arg).
Proof.
  assert (H : forall l, fuse_opt_match l arg
                        = if existsb (matches arg) (entries l) then None else Some 0).
  { unfold fuse_opt_match. induction l as [|o l IH]; [reflexivity|].
    cbn [find_opt entries].
    destruct (templ o) as [t|] eqn:Ht; [|reflexivity]. cbn [existsb]. unfold matches at 1.
    rewrite Ht. destruct (match_template t arg); [reflexivity | exact IH]. }
  split; [|split].
  - rewrite H. destruct (existsb _ _); split; intros E; congruence.
  - rewrite H. destruct (existsb _ _); split; intros E; congruence.
  - intros off v behind. rewrite !H, entries_terminated. reflexivity.
Qed.

Section ParserProperties.

Context {keys : fuse_opt_h} {C : libc}.

Ltac fields :=
  cbn [in_opt in_proc in_args inout_data out_args tmp_argctr tmp_opts tmp_nonopt log
       set_data set_out_args set_argctr set_opts set_nonopt add_log store_field
       fst snd] in *.

(** ** No assertion fails, no read goes past the arguments *)

Lemma returns_now c r c' :
  (r = 0 \/ r = -1) ->
  in_opt c' = in_opt c -> in_proc c' = in_proc c -> in_args c' = in_args c ->
  allocated (out_args c') = true -> tmp_argctr c' = tmp_argctr c ->
  returns c (Done (r, c')).
Proof.
  intros Hr H1 H2 H3 H4 H5. exists r, c'. rewrite H5. repeat split; auto.
Qed.

(** Sequencing as the code does it: a -1 is passed on, anything else
    continues with [k]. *)
Lemma returns_then c m (k : fuse_opt_context -> outcome (Z * fuse_opt_context)) :
  returns c m ->
  (forall c1, in_opt c1 = in_opt c -> in_proc c1 = in_proc c -> in_args c1 = in_args c ->
              allocated (out_args c1) = true -> (tmp_argctr c <= tmp_argctr c1)%nat ->
              ((tmp_argctr c < argc (in_args c))%nat ->
               (tmp_argctr c1 < argc (in_args c))%nat) ->
              returns c1 (k c1)) ->
  returns c (let* (r, c1) := m in if r =? -1 then Done (-1, c1) else k c1).
Proof.
  intros (r & c1 & -> & Hr & H1 & H2 & H3 & H4 & H5 & H6) Hk. unfold obind.
  destruct Hr as [-> | ->].
  - change (0 =? -1) with false. cbv iota.
    destruct (Hk c1 H1 H2 H3 H4 H5 H6) as (r2 & c2 & -> & Hr2 & G1 & G2 & G3 & G4 & G5 & G6).
    exists r2, c2. rewrite G1, G2, G3, H1, H2, H3. rewrite H3 in G6.
    repeat split; auto; lia.
  - change (-1 =? -1) with true. cbv iota. exists (-1), c1. repeat split; auto.
Qed.

Lemma keep_gopt_returns c arg typ :
  allocated (out_args c) = true -> returns c (keep_gopt c arg typ).
Proof.
  intros Ha. destruct (keep_gopt_kept c arg typ Ha) as (c' & -> & Hk).
  destruct Hk as (H1 & H2 & H3 & H4 & _ & H6 & _). now apply returns_now; auto.
Qed.

Lemma call_proc_returns c arg key typ :
  callback_pure c -> allocated (out_args c) = true -> returns c (call_proc c arg key typ).
Proof.
  intros Hp Ha. unfold call_proc.
  destruct (key =? FUSE_OPT_KEY_DISCARD); [now apply returns_now; auto|].
  destruct (if negb (key =? FUSE_OPT_KEY_KEEP) then in_proc c else None) as [proc|] eqn:Hproc;
    [|now apply keep_gopt_returns].
  assert (Hin : in_proc c = Some proc).
  { destruct (negb (key =? FUSE_OPT_KEY_KEEP)); [exact Hproc | discriminate]. }
  pose proof (Hp _ Hin (inout_data c) arg key (out_args c)) as Hpure.
  destruct (proc (inout_data c) arg key (out_args c)) as [[res d] o]. simpl in Hpure. subst o.
  destruct ((res =? -1) || (res =? 0)) eqn:E.
  - apply returns_now; auto.
    apply orb_prop in E. destruct E as [E|E]; apply Z.eqb_eq in E; auto.
  - match goal with |- returns c (keep_gopt ?c1 arg typ) =>
      destruct (@keep_gopt_returns c1 arg typ Ha)
        as (r & c' & -> & Hr & H1 & H2 & H3 & H4 & H5 & H6)
    end.
    exists r, c'. fields. repeat split; auto.
Qed.

Lemma done_or_fail c (m : outcome (Z * fuse_opt_context)) :
  returns c m -> returns c (let* (r, c1) := m in if r =? -1 then Done (-1, c1) else Done (0, c1)).
Proof.
  intros H. apply (@returns_then c m (fun c1 => Done (0, c1)) H).
  intros c1 H1 H2 H3 H4 H5 H6. now apply returns_now; auto.
Qed.

Lemma process_opt_returns c o sep arg typ :
  callback_pure c -> allocated (out_args c) = true ->
  ((sep =? 0)%nat = false -> CStr.at_end (templ_str o) (sep + 1) = false ->
   Ascii.eqb (CStr.char_at (templ_str o) (sep + 1)) "%" = true) ->
  returns c (process_opt c o sep arg typ).
Proof.
  intros Hp Ha Hv. unfold process_opt.
  destruct (offset o =? minus_1U).
  - apply done_or_fail. now apply call_proc_returns.
  - destruct (negb (sep =? 0)%nat && negb (CStr.at_end (templ_str o) (sep + 1))) eqn:E.
    + apply andb_prop in E. destruct E as [E1 E2]. apply negb_true_iff in E1, E2.
      apply done_or_fail. unfold process_opt_param.
      rewrite char_at_drop, Nat.add_0_r, (Hv E1 E2). cbn [negb].
      destruct (Ascii.eqb _ "s"); [now apply returns_now; auto|].
      destruct (sscanf _ _); now apply returns_now; auto.
    + now apply returns_now; auto.
Qed.

Lemma gopt_body_returns c o sep arg typ t arg0 :
  callback_pure c -> allocated (out_args c) = true ->
  templ o = Some t -> match_template t arg0 = Some sep ->
  returns c (gopt_body c o sep arg typ).
Proof.
  intros Hp Ha Ht Hm.
  assert (Hv : (sep =? 0)%nat = false -> CStr.at_end (templ_str o) (sep + 1) = false ->
               Ascii.eqb (CStr.char_at (templ_str o) (sep + 1)) "%" = true).
  { unfold templ_str. rewrite Ht. intros E1 E2. exact (match_template_valid _ _ Hm E1 E2). }
  unfold gopt_body.
  destruct (negb (sep =? 0)%nat && Ascii.eqb (CStr.char_at (templ_str o) sep) " "
            && CStr.at_end arg sep); [|now apply process_opt_returns].
  destruct (argc (in_args c) <=? tmp_argctr c + 1)%nat eqn:E; [now apply returns_now; auto|].
  apply Nat.leb_gt in E. fields.
  destruct (nth_error (args_list (in_args c)) (tmp_argctr c + 1)) as [val|] eqn:Hn.
  - match goal with |- returns c (process_opt ?c1 o sep ?m typ) =>
      destruct (@process_opt_returns c1 o sep m typ Hp Ha Hv)
        as (r & c' & -> & Hr & H1 & H2 & H3 & H4 & H5 & H6)
    end.
    fields. exists r, c'. repeat split; auto; lia.
  - apply nth_error_None in Hn. unfold argc in E. lia.
Qed.

Lemma run_entries_returns es : forall c arg typ arg0,
  callback_pure c -> allocated (out_args c) = true ->
  incl es (matching (in_opt c) arg0) ->
  returns c (run_entries es c arg typ).
Proof.
  induction es as [|[o sep] es IH]; intros c arg typ arg0 Hp Ha Hincl.
  - now apply returns_now; auto.
  - cbn [run_entries].
    destruct (matching_sep _ _ _ _ (Hincl _ (or_introl eq_refl))) as (t & Ht & Hm).
    apply (@returns_then c (gopt_body c o sep arg typ) (fun c1 => run_entries es c1 arg typ)).
    + exact (@gopt_body_returns c o sep arg typ t arg0 Hp Ha Ht Hm).
    + intros c1 H1 H2 H3 H4 _ _. apply (IH c1 arg typ arg0); auto.
      * unfold callback_pure. rewrite H2. exact Hp.
      * rewrite H1. intros e He. apply Hincl. now right.
Qed.

Lemma process_gopt_returns c arg typ :
  callback_pure c -> allocated (out_args c) = true -> returns c (process_gopt c arg typ).
Proof.
  intros Hp Ha. rewrite process_gopt_entries.
  destruct (matching (in_opt c) arg) as [|e es] eqn:Hm.
  - now apply call_proc_returns.
  - apply (@run_entries_returns (e :: es) c arg typ arg Hp Ha). rewrite Hm. apply incl_refl.
Qed.

Lemma dispatch_opts_returns subs : forall c,
  callback_pure c -> allocated (out_args c) = true -> returns c (dispatch_opts subs c).
Proof.
  induction subs as [|a subs IH]; intros c Hp Ha; [now apply returns_now; auto|].
  cbn [dispatch_opts].
  apply (@returns_then c (process_gopt c a GOPT_OPTION) (fun c1 => dispatch_opts subs c1)).
  - now apply process_gopt_returns.
  - intros c1 _ H2 _ H4 _ _. apply IH; [|exact H4]. unfold callback_pure. rewrite H2. exact Hp.
Qed.

Lemma process_one_returns c :
  callback_pure c -> allocated (out_args c) = true ->
  (tmp_argctr c < argc (in_args c))%nat ->
  returns c (process_one c).
Proof.
  intros Hp Ha Hlt. unfold process_one.
  destruct (nth_error (args_list (in_args c)) (tmp_argctr c)) as [arg|] eqn:Hn;
    [|apply nth_error_None in Hn; unfold argc in Hlt; lia].
  destruct (negb (tmp_nonopt c =? 0)%nat || negb (Ascii.eqb (CStr.char_at arg 0) "-"));
    [now apply call_proc_returns|].
  destruct (Ascii.eqb (CStr.char_at arg 1) "o").
  - destruct (negb (CStr.at_end arg 2)).
    + rewrite opts_loop_dispatch. now apply dispatch_opts_returns.
    + destruct (tmp_argctr c + 1 <? argc (in_args c))%nat eqn:E; [|now apply returns_now; auto].
      apply Nat.ltb_lt in E. fields.
      destruct (nth_error (args_list (in_args c)) (tmp_argctr c + 1)) as [v|] eqn:Hv;
        [|apply nth_error_None in Hv; unfold argc in E; lia].
      rewrite opts_loop_dispatch.
      match goal with |- returns c (dispatch_opts ?s ?c1) =>
        destruct (@dispatch_opts_returns s c1 Hp Ha)
          as (r & c' & -> & Hr & H1 & H2 & H3 & H4 & H5 & H6)
      end.
      fields. exists r, c'. repeat split; auto; lia.
  - destruct (Ascii.eqb (CStr.char_at arg 1) "-" && CStr.at_end arg 2).
    + rewrite add_arg_ok by (now right). unfold obind. change (0 =? -1) with false. cbv iota.
      now apply returns_now; auto.
    + now apply process_gopt_returns.
Qed.

Lemma parse_loop_returns fuel : forall c,
  callback_pure c -> allocated (out_args c) = true ->
  (argc (in_args c) - tmp_argctr c <= fuel)%nat ->
  exists r c',
    parse_loop fuel c = Done (r, c') /\ (r = 0 \/ r = -1)
    /\ allocated (out_args c') = true.
Proof.
  induction fuel as [|fuel IH]; intros c Hp Ha Hf; cbn [parse_loop].
  - replace (tmp_argctr c <? argc (in_args c))%nat with false
      by (symmetry; apply Nat.ltb_ge; lia).
    exists 0, c. auto.
  - destruct (tmp_argctr c <? argc (in_args c))%nat eqn:E; [|exists 0, c; auto].
    apply Nat.ltb_lt in E.
    destruct (process_one_returns Hp Ha E) as (r & c1 & -> & Hr & H1 & H2 & H3 & H4 & H5 & H6).
    unfold obind. destruct Hr as [-> | ->].
    + change (0 =? -1) with false. cbv iota.
      apply IH; fields; auto.
      * unfold callback_pure. fields. rewrite H2. exact Hp.
      * rewrite H3. specialize (H6 E). lia.
    + change (-1 =? -1) with true. cbv iota. exists (-1), c1. auto.
Qed.

(** X13.  With a callback that leaves the output vector alone (or with none),
    [fuse_opt_parse] returns, and returns 0 or -1, whatever the arguments
    and the table are: none of the assertions of the file fails, and
    [argv] is never read at or behind [argc]. *)
Theorem parse_returns (args : option fuse_args) (d : data)
    (opts : list fuse_opt) (proc : option fuse_opt_proc_t) :
  (forall p, proc = Some p -> leaves_out_args p) ->
  exists r, fuse_opt_parse args d opts proc = Done r /\ (res_code r = 0 \/ res_code r = -1).
Proof.
  intros Hp.
  destruct args as [a|]; [|eexists; split; [reflexivity | now left]].
  destruct (argv a) as [[|argv0 rest]|] eqn:Ha;
    try (unfold fuse_opt_parse; rewrite Ha; eexists; split; [reflexivity | now left]).
  rewrite (fuse_opt_parse_unfold a d opts proc Ha).
  destruct (@parse_loop_returns (argc a) (loop_entry a d opts proc argv0))
    as (r & c1 & Hl & Hr & Hal); [exact Hp | reflexivity | cbn; lia |].
  rewrite Hl. unfold obind. destruct Hr as [-> | ->].
  - change (0 =? -1) with false. cbv iota.
    destruct (finalize_total c1 Hal) as (c2 & -> & _).
    + apply parse_loop_output_follows_log in Hl. destruct (Hl Hp) as (new & _ & _ & O & _).
      rewrite O. discriminate.
    + change (0 =? -1) with false. cbv iota. eexists. split; [reflexivity | now left].
  - change (-1 =? -1) with true. cbv iota. eexists. split; [reflexivity | now right].
Qed.

(** ** Missing arguments: the parse returns *)

Lemma reaches_sound c c' :
  loop_reaches c c' -> callback_pure c -> allocated (out_args c) = true ->
  callback_pure c' /\ allocated (out_args c') = true.
Proof.
  induction 1 as [c|c r c1 c' Hlt Hp Hr _ IH]; intros Hpure Ha; [auto|].
  destruct (process_one_returns Hpure Ha Hlt) as (r' & c1' & E & _ & _ & H2 & _ & H4 & _).
  rewrite Hp in E. inv E. apply IH; fields; [|exact H4].
  unfold callback_pure. fields. rewrite H2. exact Hpure.
Qed.

(** C8 (amended).  When the loop gets to a token that needs an argument
    after it and the input has none left (a bare "-o" while the positional
    flag is unset, a flag-style option that matches a space-separator
    template with nothing after the stem, or a group holding such a
    sub-option): with a callback that leaves the output vector alone, or
    without callback, [process_one] returns -1 there and [fuse_opt_parse]
    returns -1, with the caller's [args] as they were; with any callback,
    whatever the call returns is -1 with the caller's [args] as they
    were; and for the bare "-o" it returns -1 whatever the callback is. *)
Theorem missing_argument_fails (a : fuse_args) (d : data) (opts : list fuse_opt)
    (proc : option fuse_opt_proc_t) (argv0 : string) (rest : list string)
    (c : fuse_opt_context) :
  argv a = Some (argv0 :: rest) ->
  loop_reaches (loop_entry a d opts proc argv0) c ->
  (tmp_argctr c < argc (in_args c))%nat ->
  missing_argument c = true ->
  ((forall p, proc = Some p -> leaves_out_args p) ->
   exists c2,
     process_one c = Done (-1, c2)
     /\ fuse_opt_parse (Some a) d opts proc
        = Done (mk_result (-1) (Some a) (inout_data c2) (log c2)))
  /\ (forall r, fuse_opt_parse (Some a) d opts proc = Done r ->
                res_code r = -1 /\ res_args r = Some a)
  /\ (nth_error (args_list (in_args c)) (tmp_argctr c) = Some "-o" ->
      (argc (in_args c) <= tmp_argctr c + 1)%nat ->
      fuse_opt_parse (Some a) d opts proc
      = Done (mk_result (-1) (Some a) (inout_data c) (log c))).
Proof.
  intros Ha Hreach Hlt Hm.
  assert (Hrun : forall c2, process_one c = Done (-1, c2) ->
                 fuse_opt_parse (Some a) d opts proc
                 = Done (mk_result (-1) (Some a) (inout_data c2) (log c2))).
  { intros c2 Hone.
    assert (Hloop : parse_loop (argc a) (loop_entry a d opts proc argv0) = Done (-1, c2)).
    { apply (loop_returns_failure Hreach Hlt Hone). unfold loop_entry. fields. lia. }
    rewrite (fuse_opt_parse_unfold a d opts proc Ha), Hloop. reflexivity. }
  split; [|split].
  - intros Hpure.
    destruct (reaches_sound Hreach) as [Hp Hal]; [exact Hpure | reflexivity|].
    destruct (process_one_returns Hp Hal Hlt) as (r & c2 & Hone & _).
    pose proof (process_one_missing _ Hm Hone) as ->.
    exists c2. split; [exact Hone | exact (Hrun c2 Hone)].
  - intros r Hparse.
    destruct (fuse_opt_parse_run a d opts proc Ha Hparse)
      as (r1 & c1 & Hl & [[_ ->]|(Hr1 & _)]); [auto|].
    exfalso. apply Hr1.
    eapply (loop_fails_where_reached Hreach Hlt); [|exact Hl].
    intros r0 c2. now apply process_one_missing.
  - intros Harg Hlast. apply Hrun.
    unfold missing_argument in Hm. unfold process_one. rewrite Harg in *.
    apply andb_prop in Hm. destruct Hm as [Hm _]. apply andb_prop in Hm.
    destruct Hm as [Hn _]. rewrite Hn.
    assert (Hge : (tmp_argctr c + 1 <? argc (in_args c))%nat = false)
      by (apply Nat.ltb_ge; exact Hlast).
    change (CStr.char_at "-o" 0) with "-"%char. change (CStr.char_at "-o" 1) with "o"%char.
    change (CStr.at_end "-o" 2) with true. cbn [negb orb Ascii.eqb Bool.eqb].
    rewrite Hge. reflexivity.
Qed.


(** ** Failure and success of a parse *)

(** X14.  [fuse_opt_parse] returns 0 or -1 when it returns, and a parse that
    returns -1 has not touched the caller's argument vector, whatever the
    callback did. *)
Theorem failure_leaves_args (args : option fuse_args) (d : data)
    (opts : list fuse_opt) (proc : option fuse_opt_proc_t) (r : parse_result) :
  fuse_opt_parse args d opts proc = Done r ->
  (res_code r = 0 \/ res_code r = -1) /\ (res_code r = -1 -> res_args r = args).
Proof.
  intros H. destruct args as [a|]; [|inv H; cbn; split; [now left | reflexivity]].
  destruct (argv a) as [[|argv0 rest]|] eqn:Ha;
    try (unfold fuse_opt_parse in H; rewrite Ha in H; inv H; cbn;
         split; [now left | reflexivity]).
  destruct (fuse_opt_parse_run a d opts proc Ha H)
    as (r1 & c1 & _ & [[_ ->]|(_ & c2 & _ & ->)]); cbn.
  - split; [now right | reflexivity].
  - split; [now left | discriminate].
Qed.

Lemma call_proc_nonopt c arg key typ r c' :
  call_proc c arg key typ = Done (r, c') -> tmp_nonopt c' = tmp_nonopt c.
Proof.
  assert (Hk : forall c0, keep_gopt c0 arg typ = Done (r, c') -> tmp_nonopt c' = tmp_nonopt c0).
  { intros c0 H. unfold keep_gopt in H. destruct typ.
    - unfold obind in H. destruct (fuse_opt_add_arg _ arg) as [[r1 o]| |]; inv H. reflexivity.
    - inv H. reflexivity. }
  unfold call_proc. intros H.
  destruct (key =? FUSE_OPT_KEY_DISCARD); [inv H; reflexivity|].
  destruct (if negb (key =? FUSE_OPT_KEY_KEEP) then in_proc c else None) as [proc|];
    [|exact (Hk _ H)].
  destruct (proc (inout_data c) arg key (out_args c)) as [[res d] o].
  destruct ((res =? -1) || (res =? 0)); [inv H; reflexivity|].
  apply Hk in H. exact H.
Qed.


(** ** Where the separator ends up *)

Lemma call_proc_no_separator c arg key typ r c' :
  call_proc c arg key typ = Done (r, c') ->
  exists new, log c' = log c ++ new /\ no_separator new = true.
Proof.
  assert (Hk : forall c0, keep_gopt c0 arg typ = Done (r, c') ->
                          log c' = log c0 ++ [EvKeep typ arg])
    by (intros c0 H; apply keep_gopt_log in H; apply H).
  unfold call_proc. intros H.
  destruct (key =? FUSE_OPT_KEY_DISCARD).
  { inv H. exists []. split; [now rewrite app_nil_r | reflexivity]. }
  destruct (if negb (key =? FUSE_OPT_KEY_KEEP) then in_proc c else None) as [p|].
  - destruct (p (inout_data c) arg key (out_args c)) as [[res d] o].
    destruct ((res =? -1) || (res =? 0)).
    + inv H. exists [EvProc arg key r]. split; reflexivity.
    + apply Hk in H. fields. exists [EvProc arg key res; EvKeep typ arg].
      rewrite H, <- app_assoc. split; reflexivity.
  - apply Hk in H. exists [EvKeep typ arg]. split; [exact H | reflexivity].
Qed.


Lemma keeps_separator_seq c r1 c1 r2 c2 :
  keeps_separator c r1 c1 -> r1 <> -1 -> keeps_separator c1 r2 c2 -> keeps_separator c r2 c2.
Proof.
  intros (N1 & n1 & L1 & S1) _ (N2 & n2 & L2 & S2). split; [congruence|].
  exists (n1 ++ n2). rewrite L2, L1, app_assoc. split; [reflexivity|].
  unfold no_separator in *. rewrite forallb_app, S1, S2. reflexivity.
Qed.

Lemma keeps_separator_call_proc c arg key typ r c' :
  call_proc c arg key typ = Done (r, c') -> keeps_separator c r c'.
Proof.
  intros H. split; [eapply call_proc_nonopt; exact H | eapply call_proc_no_separator; exact H].
Qed.

Lemma keeps_separator_stay c r : keeps_separator c r c.
Proof. split; [reflexivity|]. exists []. split; [now rewrite app_nil_r | reflexivity]. Qed.

Lemma process_gopt_keeps_separator c arg typ r c' :
  process_gopt c arg typ = Done (r, c') -> keeps_separator c r c'.
Proof.
  apply (process_gopt_R keeps_separator).
  - apply keeps_separator_stay.
  - apply keeps_separator_seq.
  - intros c0 r0 c0' r0' H _. exact H.
  - apply keeps_separator_call_proc.
  - intros c0 var v. split; [reflexivity|]. exists [EvStore var v]. split; reflexivity.
  - intros c0. split; [reflexivity|]. exists []. fields. split; [now rewrite app_nil_r | reflexivity].
Qed.

Lemma dispatch_opts_keeps_separator subs c r c' :
  dispatch_opts subs c = Done (r, c') -> keeps_separator c r c'.
Proof.
  apply (dispatch_opts_R keeps_separator).
  - apply keeps_separator_stay.
  - apply keeps_separator_seq.
  - intros c0 r0 c0' r0' H _. exact H.
  - apply keeps_separator_call_proc.
  - intros c0 var v. split; [reflexivity|]. exists [EvStore var v]. split; reflexivity.
  - intros c0. split; [reflexivity|]. exists []. fields. split; [now rewrite app_nil_r | reflexivity].
Qed.

(** What one turn of the loop does to [tmp_nonopt] and to the log. *)
Lemma process_one_separator c r c' :
  process_one c = Done (r, c') ->
  exists new,
    log c' = log c ++ new
    /\ ((tmp_nonopt c' = tmp_nonopt c /\ no_separator new = true)
        \/ (tmp_nonopt c = 0%nat /\ new = [EvSeparator]
            /\ tmp_nonopt c' = S (argc (out_args c)))).
Proof.
  assert (Hks : forall c0, keeps_separator c0 r c' ->
                tmp_nonopt c0 = tmp_nonopt c -> log c0 = log c ->
                exists new,
                  log c' = log c ++ new
                  /\ ((tmp_nonopt c' = tmp_nonopt c /\ no_separator new = true)
                      \/ (tmp_nonopt c = 0%nat /\ new = [EvSeparator]
                          /\ tmp_nonopt c' = S (argc (out_args c))))).
  { intros c0 (N & new & L & S) E1 E2. exists new. rewrite <- E1, <- E2. auto. }
  unfold process_one. intros H.
  destruct (nth_error (args_list (in_args c)) (tmp_argctr c)) as [arg|]; [|discriminate].
  destruct (negb (tmp_nonopt c =? 0)%nat || negb (Ascii.eqb (CStr.char_at arg 0) "-")) eqn:E0.
  { apply keeps_separator_call_proc in H. now apply (Hks c). }
  apply orb_false_elim in E0. destruct E0 as [En E0].
  apply negb_false_iff in En, E0. apply Nat.eqb_eq in En.
  destruct (Ascii.eqb (CStr.char_at arg 1) "o").
  { destruct (negb (CStr.at_end arg 2)).
    - rewrite opts_loop_dispatch in H. apply dispatch_opts_keeps_separator in H.
      now apply (Hks c).
    - destruct (tmp_argctr c + 1 <? argc (in_args c))%nat;
        [|inv H; apply (Hks c'); [apply keeps_separator_stay | reflexivity | reflexivity]].
      fields. destruct (nth_error _ _); [|discriminate].
      rewrite opts_loop_dispatch in H. apply dispatch_opts_keeps_separator in H.
      now apply (Hks (set_argctr c (tmp_argctr c + 1))). }
  destruct (Ascii.eqb (CStr.char_at arg 1) "-" && CStr.at_end arg 2) eqn:E1.
  - pose proof (separator_token _ E0 E1) as ->.
    unfold obind in H.
    destruct (fuse_opt_add_arg (out_args c) "--") as [[r1 o]| |] eqn:Ha; try discriminate.
    apply add_arg_done in Ha. destruct Ha as [-> ->]. change (0 =? -1) with false in H.
    cbv iota in H. inv H. fields. exists [EvSeparator]. split; [reflexivity|]. right.
    split; [exact En|]. split; [reflexivity|].
    unfold argc. change (args_list (mk_args (Some (args_list (out_args c) ++ ["--"])) true))
      with (args_list (out_args c) ++ ["--"]).
    rewrite length_app. cbn [List.length]. lia.
  - apply process_gopt_keeps_separator in H. now apply (Hks c).
Qed.

Lemma nonopt_of_found n l new : nonopt_of n l <> 0%nat -> nonopt_of n (l ++ new) = nonopt_of n l.
Proof.
  revert n. induction l as [|e l IH]; intros n H; [cbn in H; congruence|].
  destruct e as [a k r|off v|[|] a|]; cbn [app nonopt_of] in *; auto.
Qed.

Lemma nonopt_of_pending n l new :
  nonopt_of n l = 0%nat ->
  nonopt_of n (l ++ new) = nonopt_of (n + List.length (out_tokens l)) new.
Proof.
  revert n. induction l as [|e l IH]; intros n H; [cbn; now rewrite Nat.add_0_r|].
  destruct e as [a k r|off v|[|] a|]; cbn [app nonopt_of out_tokens List.length] in *;
    try (now apply IH); try discriminate.
  rewrite IH by exact H. f_equal. lia.
Qed.

Lemma nonopt_of_no_separator new : forall n, no_separator new = true -> nonopt_of n new = 0%nat.
Proof.
  induction new as [|e new IH]; intros n H; [reflexivity|].
  destruct e as [a k r|off v|[|] a|]; cbn in *; try discriminate; now apply IH.
Qed.


Lemma process_one_told_by_log argv0 c r c' :
  process_one c = Done (r, c') -> callback_pure c ->
  told_by_log argv0 c -> told_by_log argv0 c'.
Proof.
  intros H Hp [Ho Hn].
  assert (Hout : output_follows_log c r c').
  { revert H. apply process_one_R.
    - apply output_follows_log_stay.
    - apply output_follows_log_seq.
    - apply output_follows_log_ret.
    - apply call_proc_output_follows_log.
    - intros c0 var v _. exists [EvStore var v]. simpl. rewrite app_nil_r. auto.
    - intros c0 _. exists []. simpl. rewrite !app_nil_r. auto.
    - intros c0 o _. exists [EvSeparator]. simpl. repeat split; auto. }
  destruct (Hout Hp) as (new & L & _ & O & _).
  pose proof H as Hsep. apply process_one_separator in Hsep.
  destruct Hsep as (new' & L' & Hcase).
  assert (new' = new) by (rewrite L in L'; exact (app_inv_head _ _ _ (eq_sym L'))). subst new'.
  split.
  - rewrite O, Ho, L, out_tokens_app. reflexivity.
  - rewrite L. destruct Hcase as [[N S]|(N & -> & N')].
    + rewrite N, Hn. destruct (Nat.eq_dec (nonopt_of 1 (log c)) 0) as [E|E].
      * rewrite nonopt_of_pending by exact E. rewrite E. symmetry.
        apply nonopt_of_no_separator. exact S.
      * symmetry. now apply nonopt_of_found.
    + rewrite N', nonopt_of_pending by congruence. cbn [nonopt_of].
      unfold argc. rewrite Ho. cbn [List.length]. reflexivity.
Qed.

Lemma parse_loop_told_by_log argv0 fuel : forall c r c',
  parse_loop fuel c = Done (r, c') -> callback_pure c ->
  told_by_log argv0 c -> told_by_log argv0 c'.
Proof.
  induction fuel as [|fuel IH]; intros c r c' H Hp Ht; cbn [parse_loop] in H.
  - destruct (tmp_argctr c <? argc (in_args c))%nat; inv H. exact Ht.
  - destruct (tmp_argctr c <? argc (in_args c))%nat; [|inv H; exact Ht].
    unfold obind in H. destruct (process_one c) as [[r1 c1]| |] eqn:H1; try discriminate.
    assert (Ht1 : told_by_log argv0 c1)
      by (eapply process_one_told_by_log; [exact H1 | exact Hp | exact Ht]).
    destruct (r1 =? -1); [inv H; exact Ht1|].
    apply process_one_continues in H1. destruct H1 as (_ & P & _).
    eapply IH; [exact H | unfold callback_pure; fields; rewrite P; exact Hp | exact Ht1].
Qed.

Lemma separator_is_last_nonopt l : forall n,
  negb (nonopt_of n l =? 0)%nat && (nonopt_of n l =? n + List.length (out_tokens l))%nat
  = separator_is_last l.
Proof.
  induction l as [|e l IH]; intros n; [reflexivity|].
  destruct e as [a k r|off v|[|] a|]; cbn [nonopt_of out_tokens separator_is_last List.length];
    try apply IH.
  - replace (n + S (List.length (out_tokens l)))%nat
      with (S n + List.length (out_tokens l))%nat by lia.
    apply IH.
  - change (S n =? 0)%nat with false. cbn [negb andb].
    destruct (out_tokens l) as [|x xs]; cbn [List.length].
    + apply Nat.eqb_eq. lia.
    + apply Nat.eqb_neq. lia.
Qed.

Lemma separator_is_last_token l :
  separator_is_last l = true -> exists pre, out_tokens l = pre ++ ["--"].
Proof.
  induction l as [|e l IH]; intros H; [discriminate|].
  destruct e as [a k r|off v|[|] a|]; cbn [separator_is_last out_tokens] in *; auto.
  - destruct (IH H) as (pre & ->). exists (a :: pre). reflexivity.
  - destruct (out_tokens l); [|discriminate]. exists []. reflexivity.
Qed.

Lemma finalized_told_by_log (argv0 : string) (l : list event) :
  finalized None (nonopt_of 1 l) (argv0 :: out_tokens l)
  = argv0 :: (if separator_is_last l then removelast (out_tokens l) else out_tokens l).
Proof.
  unfold finalized. pose proof (separator_is_last_nonopt l 1) as E.
  change (List.length (argv0 :: out_tokens l)) with (1 + List.length (out_tokens l))%nat.
  rewrite E. destruct (separator_is_last l) eqn:S; [|reflexivity].
  destruct (separator_is_last_token _ S) as (pre & ->).
  rewrite length_app. cbn [List.length andb].
  replace (1 + (List.length pre + 1) - 1)%nat with (List.length (argv0 :: pre))
    by (cbn [List.length]; lia).
  change (argv0 :: pre ++ ["--"]) with ((argv0 :: pre) ++ ["--"]).
  rewrite nth_middle, String.eqb_refl, !removelast_last. reflexivity.
Qed.

(** X15.  A successful parse, with a callback that leaves the output vector
    alone, hands back a vector that the library owns and whose first
    string is the program name of the input.  When no sub-option was
    kept, what follows the name is the list of the tokens that the parse
    appended, without its last one exactly when the separator "--" was
    appended and no token was appended behind it; a "--" kept as a
    positional argument behind the separator stays. *)
Theorem success_shape (a : fuse_args) (d : data) (opts : list fuse_opt)
    (proc : option fuse_opt_proc_t) (r : parse_result) (argv0 : string) (rest : list string) :
  (forall p, proc = Some p -> leaves_out_args p) ->
  argv a = Some (argv0 :: rest) ->
  fuse_opt_parse (Some a) d opts proc = Done r -> res_code r = 0 ->
  exists tl,
    res_args r = Some (mk_args (Some (argv0 :: tl)) true)
    /\ (kept_opts (res_log r) = [] ->
        tl = if separator_is_last (res_log r) then removelast (out_tokens (res_log r))
             else out_tokens (res_log r)).
Proof.
  intros Hp Ha H Hcode.
  destruct (fuse_opt_parse_run a d opts proc Ha H)
    as (r1 & c1 & Hl & [[_ ->]|(_ & c2 & Hf & ->)]); [discriminate|].
  cbn [res_args res_log].
  assert (Hp0 : callback_pure (loop_entry a d opts proc argv0)) by exact Hp.
  destruct (parse_loop_output_follows_log _ Hl Hp0) as (new & L & _ & O & M & N).
  assert (Ht : told_by_log argv0 c1)
    by (eapply parse_loop_told_by_log; [exact Hl | exact Hp0 | split; reflexivity]).
  destruct Ht as [To Tn].
  assert (Hret : exists r' c', parse_loop (argc a) (loop_entry a d opts proc argv0)
                               = Done (r', c')
                               /\ (r' = 0 \/ r' = -1) /\ allocated (out_args c') = true)
    by (apply parse_loop_returns; [exact Hp0 | reflexivity | cbn; lia]).
  destruct Hret as (r' & c' & Hl' & _ & Hal).
  rewrite Hl in Hl'. inv Hl'.
  cbn [loop_entry log out_args tmp_opts tmp_nonopt] in L, O, M, N.
  change (args_list (mk_args (Some [argv0]) true)) with [argv0] in O.
  cbn [app] in L, O. subst new. specialize (N (Nat.le_0_l _)).
  destruct (finalize_total c' Hal) as (c2' & Hf' & Hout); [rewrite O; discriminate|].
  rewrite Hf in Hf'. inv Hf'. rewrite Hout, O.
  pose proof (finalize_done _ Hf) as (_ & L2 & _). rewrite L2.
  destruct (kept_opts (log c')) as [|k ks] eqn:Hk.
  - rewrite M, Tn. cbn [merge_opts fold_left]. rewrite finalized_told_by_log.
    eexists. split; [reflexivity | intros _; reflexivity].
  - destruct (merge_opts_some (escape_into true k) ks) as (m & Hm).
    assert (Hm' : tmp_opts c' = Some m).
    { rewrite M. unfold merge_opts in *. cbn [fold_left]. exact Hm. }
    rewrite Hm', finalized_merged.
    + eexists. split; [reflexivity | discriminate].
    + unfold argc in N. rewrite O in N. cbn [List.length] in N. lia.
Qed.

(** ** Behind the separator *)

Lemma call_proc_positional c arg r c' :
  call_proc c arg FUSE_OPT_KEY_NONOPT GOPT_FLAG = Done (r, c') ->
  exists new, log c' = log c ++ new /\ forallb positional_event new = true
              /\ tmp_nonopt c' = tmp_nonopt c /\ tmp_opts c' = tmp_opts c
              /\ in_args c' = in_args c /\ tmp_argctr c' = tmp_argctr c.
Proof.
  assert (Hk : forall c0, keep_gopt c0 arg GOPT_FLAG = Done (r, c') ->
                          log c' = log c0 ++ [EvKeep GOPT_FLAG arg]
                          /\ tmp_nonopt c' = tmp_nonopt c0 /\ tmp_opts c' = tmp_opts c0
                          /\ in_args c' = in_args c0 /\ tmp_argctr c' = tmp_argctr c0).
  { intros c0 H. unfold keep_gopt, obind in H.
    destruct (fuse_opt_add_arg _ arg) as [[r1 o]| |]; inv H. cbn. repeat split; reflexivity. }
  unfold call_proc. intros H.
  destruct (FUSE_OPT_KEY_NONOPT =? FUSE_OPT_KEY_DISCARD);
    [inv H; exists []; rewrite app_nil_r; repeat split; reflexivity|].
  destruct (if negb (FUSE_OPT_KEY_NONOPT =? FUSE_OPT_KEY_KEEP) then in_proc c else None)
    as [proc|].
  - destruct (proc (inout_data c) arg FUSE_OPT_KEY_NONOPT (out_args c)) as [[res d] o].
    destruct ((res =? -1) || (res =? 0)).
    + inv H. exists [EvProc arg FUSE_OPT_KEY_NONOPT r]. cbn. rewrite Z.eqb_refl.
      repeat split; reflexivity.
    + apply Hk in H. destruct H as (L & H1 & H2 & H3 & H4).
      exists [EvProc arg FUSE_OPT_KEY_NONOPT res; EvKeep GOPT_FLAG arg].
      rewrite L. cbn. rewrite Z.eqb_refl, <- app_assoc. repeat split; assumption.
  - apply Hk in H. destruct H as (L & H1 & H2 & H3 & H4).
    exists [EvKeep GOPT_FLAG arg]. repeat split; assumption.
Qed.

(** X16.  Once "--" has been met ([tmp_nonopt] is not 0), the rest of the parse
    treats every argument as positional, "-o" and "--" included: the
    callback is asked with the key NONOPT and the token is appended to the
    output vector or not; no table entry is applied, nothing is written
    to the record by the parser, the merged group does not change. *)
Theorem behind_separator_all_positional (fuel : nat) :
  forall (c : fuse_opt_context) (r : Z) (c' : fuse_opt_context),
  tmp_nonopt c <> 0%nat ->
  parse_loop fuel c = Done (r, c') ->
  exists new, log c' = log c ++ new /\ forallb positional_event new = true
              /\ tmp_nonopt c' = tmp_nonopt c /\ tmp_opts c' = tmp_opts c.
Proof.
  induction fuel as [|fuel IH]; intros c r c' Hn H; cbn [parse_loop] in H.
  - destruct (tmp_argctr c <? argc (in_args c))%nat; inv H.
    exists []. rewrite app_nil_r. repeat split; reflexivity.
  - destruct (tmp_argctr c <? argc (in_args c))%nat;
      [|inv H; exists []; rewrite app_nil_r; repeat split; reflexivity].
    unfold obind, process_one in H.
    destruct (nth_error (args_list (in_args c)) (tmp_argctr c)) as [arg|]; [|discriminate].
    replace (negb (tmp_nonopt c =? 0)%nat) with true in H
      by (symmetry; apply negb_true_iff, Nat.eqb_neq; exact Hn).
    cbn [orb] in H.
    destruct (call_proc c arg FUSE_OPT_KEY_NONOPT GOPT_FLAG) as [[r1 c1]| |] eqn:Hc;
      try discriminate.
    apply call_proc_positional in Hc. destruct Hc as (new1 & L1 & F1 & N1 & O1 & _).
    destruct (r1 =? -1).
    + inv H. exists new1. repeat split; assumption.
    + apply IH in H; [|fields; congruence].
      destruct H as (new2 & L2 & F2 & N2 & O2). fields.
      exists (new1 ++ new2). rewrite L2, L1, app_assoc, forallb_app, F1, F2.
      repeat split; congruence.
Qed.

(** ** Entries with a destination *)

(** X17.  An entry with a destination ([offset] other than -1U) never reaches
    the callback and is never kept: [process_opt] writes the field and
    returns 0, or, when the conversion of the value fails, returns -1 and
    changes nothing.  Without a separator in the match, or with nothing
    behind the separator in the template, what it writes is the entry's
    [value]. *)
Theorem destination_entry_consumes (c : fuse_opt_context) (o : fuse_opt) (sep : nat)
    (arg : string) (typ : fuse_gopt_type) (r : Z) (c' : fuse_opt_context) :
  offset o <> minus_1U ->
  process_opt c o sep arg typ = Done (r, c') ->
  ((r = 0 /\ exists v, c' = store_field c (offset o) v) \/ (r = -1 /\ c' = c))
  /\ (sep = 0%nat \/ CStr.at_end (templ_str o) (sep + 1) = true ->
      r = 0 /\ c' = store_field c (offset o) (FInt (value o))).
Proof.
  intros Ho H. apply Z.eqb_neq in Ho. unfold process_opt in H. rewrite Ho in H.
  destruct (negb (sep =? 0)%nat && negb (CStr.at_end (templ_str o) (sep + 1))) eqn:E.
  - split.
    + unfold process_opt_param, obind in H.
      destruct (negb (Ascii.eqb _ "%")); [discriminate|].
      destruct (Ascii.eqb _ "s"); [inv H; left; eauto|].
      destruct (sscanf _ _); inv H; [left; eauto | right; auto].
    + apply andb_prop in E. destruct E as [E1 E2]. apply negb_true_iff in E1, E2.
      intros [->|E']; [discriminate | congruence].
  - inv H. split; [left; eauto | auto].
Qed.

(** ** The value of a "name value" option *)

(** X18.  For an entry "name %s" with a destination, the value may be glued to
    the name or be the next argument: both store the same string.  In the
    second form the cursor moves on to the value, so that the main loop
    does not read it again. *)
Theorem space_value_glued_or_next (c : fuse_opt_context) (o : fuse_opt)
    (name v : string) (typ : fuse_gopt_type) :
  templ o = Some (name ++ " %s")%string -> name <> EmptyString -> offset o <> minus_1U ->
  (v <> EmptyString ->
   gopt_body c o (String.length name) (name ++ v)%string typ
   = Done (0, store_field c (offset o) (FStr v)))
  /\ (nth_error (args_list (in_args c)) (tmp_argctr c + 1) = Some v ->
      gopt_body c o (String.length name) name typ
      = Done (0, store_field (set_argctr c (tmp_argctr c + 1)) (offset o) (FStr v))).
Proof.
  intros Ht Hname Ho. apply Z.eqb_neq in Ho.
  assert (Hn0 : (String.length name =? 0)%nat = false).
  { destruct name; [congruence | reflexivity]. }
  assert (Hsp : CStr.char_at (templ_str o) (String.length name) = " "%char).
  { unfold templ_str. rewrite Ht, <- (Nat.add_0_r (String.length name)), char_at_app.
    reflexivity. }
  assert (Hend : CStr.at_end (templ_str o) (String.length name + 1) = false).
  { unfold templ_str, CStr.at_end. rewrite Ht, string_length_app. cbn [String.length].
    apply Nat.leb_gt. lia. }
  assert (Hfmt : CStr.drop (String.length name + 1) (templ_str o) = "%s").
  { unfold templ_str. rewrite Ht.
    replace (String.length name + 1)%nat with (String.length (name ++ " ")%string)
      by (rewrite string_length_app; reflexivity).
    change (name ++ " %s")%string with (name ++ " " ++ "%s")%string.
    rewrite <- string_app_assoc. apply drop_app. }
  assert (Hopt : forall c0 arg0,
             process_opt c0 o (String.length name) (name ++ arg0)%string typ
             = Done (0, store_field c0 (offset o) (FStr arg0))).
  { intros c0 arg0. unfold process_opt. rewrite Ho, Hn0, Hend, Hsp, Hfmt. cbn [negb andb].
    change (Ascii.eqb " " "=") with false. cbv iota. rewrite drop_app. reflexivity. }
  split.
  - intros Hv. unfold gopt_body. rewrite Hn0, Hsp. cbn [negb andb].
    change (Ascii.eqb " " " ") with true. cbn [andb].
    replace (CStr.at_end (name ++ v)%string (String.length name)) with false.
    + apply Hopt.
    + symmetry. unfold CStr.at_end. rewrite string_length_app. apply Nat.leb_gt.
      destruct v; [congruence | cbn [String.length]; lia].
  - intros Hnext. unfold gopt_body. rewrite Hn0, Hsp. cbn [negb andb].
    change (Ascii.eqb " " " ") with true. cbn [andb].
    replace (CStr.at_end name (String.length name)) with true
      by (symmetry; apply Nat.leb_le; lia).
    replace (argc (in_args c) <=? tmp_argctr c + 1)%nat with false.
    + fields. rewrite Hnext.
      replace (CStr.take (String.length name) name) with name.
      * apply Hopt.
      * symmetry. apply take_all.
    + symmetry. apply Nat.leb_gt. unfold argc.
      apply nth_error_Some. rewrite Hnext. discriminate.
Qed.

(** ** A second proof rule: runs that differ by a change of context

    A transformation [T] of contexts that commutes with the steps of the
    dispatcher commutes with the dispatcher: the run from [T c] is the
    run from [c], transformed.  [ok] is what the commutation of the steps
    needs of a context, [cur] says that the argument under the cursor is
    the same in [c] and in [T c]. *)

Section Transport.

Variable T : fuse_opt_context -> fuse_opt_context.
Variables ok cur : fuse_opt_context -> Prop.

Hypothesis T_matching : forall c arg,
  ok c -> matching (in_opt (T c)) arg = matching (in_opt c) arg.
Hypothesis T_out : forall c, out_args (T c) = out_args c.
Hypothesis T_opts : forall c, tmp_opts (T c) = tmp_opts c.
Hypothesis T_nonopt : forall c, tmp_nonopt (T c) = tmp_nonopt c.
Hypothesis T_store : forall c var v, T (store_field c var v) = store_field (T c) var v.
Hypothesis T_set_out : forall c o, T (set_out_args c o) = set_out_args (T c) o.
Hypothesis T_argctr : forall c,
  T (set_argctr c (tmp_argctr c + 1)) = set_argctr (T c) (tmp_argctr (T c) + 1).
Hypothesis T_separator : forall c o n,
  T (set_nonopt (add_log (set_out_args c o) EvSeparator) n)
  = set_nonopt (add_log (set_out_args (T c) o) EvSeparator) n.
Hypothesis T_call_proc : forall c arg key typ,
  ok c -> call_proc (T c) arg key typ = lift T (call_proc c arg key typ).
Hypothesis T_next : forall c,
  ok c ->
  nth_error (args_list (in_args (T c))) (tmp_argctr (T c) + 1)
  = nth_error (args_list (in_args c)) (tmp_argctr c + 1)
  /\ (argc (in_args (T c)) <=? tmp_argctr (T c) + 1)%nat
     = (argc (in_args c) <=? tmp_argctr c + 1)%nat.
Hypothesis T_cur : forall c,
  cur c ->
  nth_error (args_list (in_args (T c))) (tmp_argctr (T c))
  = nth_error (args_list (in_args c)) (tmp_argctr c)
  /\ (tmp_argctr (T c) <? argc (in_args (T c)))%nat
     = (tmp_argctr c <? argc (in_args c))%nat.
Hypothesis ok_call_proc : forall c arg key typ r c',
  call_proc c arg key typ = Done (r, c') -> ok c -> ok c'.
Hypothesis ok_store : forall c var v, ok c -> ok (store_field c var v).
Hypothesis ok_argctr : forall c,
  ok c -> ok (set_argctr c (tmp_argctr c + 1)) /\ cur (set_argctr c (tmp_argctr c + 1)).
Hypothesis ok_separator : forall c o n,
  ok c -> ok (set_nonopt (add_log (set_out_args c o) EvSeparator) n).

Lemma lift_bind (m : outcome (Z * fuse_opt_context))
    (k k' : Z * fuse_opt_context -> outcome (Z * fuse_opt_context)) :
  (forall r c, m = Done (r, c) -> k' (r, T c) = lift T (k (r, c))) ->
  obind (lift T m) k' = lift T (obind m k).
Proof.
  intros H. destruct m as [[r c]| |]; cbn; [apply H; reflexivity | reflexivity | reflexivity].
Qed.

Lemma lift_fail (m : outcome (Z * fuse_opt_context)) :
  (let* (r, c) := lift T m in if r =? -1 then Done (-1, c) else Done (0, c))
  = lift T (let* (r, c) := m in if r =? -1 then Done (-1, c) else Done (0, c)).
Proof. apply lift_bind. intros r c _. destruct (r =? -1); reflexivity. Qed.

Lemma ok_process_opt c o sep arg typ r c' :
  process_opt c o sep arg typ = Done (r, c') -> ok c -> ok c'.
Proof.
  apply (process_opt_R (fun c r c' => ok c -> ok c')); eauto.
Qed.

Lemma ok_stepwise :
  (forall c r c' es arg typ, run_entries es c arg typ = Done (r, c') -> ok c -> ok c')
  /\ (forall c r c' arg typ, process_gopt c arg typ = Done (r, c') -> ok c -> ok c')
  /\ (forall c r c', process_one c = Done (r, c') -> ok c -> ok c').
Proof.
  assert (H4 : forall c arg key typ r c',
             call_proc c arg key typ = Done (r, c') -> ok c -> ok c')
    by (intros c arg key typ r c' H; exact (ok_call_proc _ _ _ H)).
  assert (H6 : forall c, ok c -> ok (set_argctr c (tmp_argctr c + 1)))
    by (intros c Hc; apply ok_argctr; exact Hc).
  split; [|split].
  - intros c r c' es arg typ.
    apply (run_entries_R (fun c r c' => ok c -> ok c')); auto.
  - intros c r c' arg typ.
    apply (process_gopt_R (fun c r c' => ok c -> ok c')); auto.
  - intros c r c'.
    apply (process_one_R (fun c r c' => ok c -> ok c')); auto.
Qed.

Lemma process_opt_T c o sep arg typ :
  ok c -> process_opt (T c) o sep arg typ = lift T (process_opt c o sep arg typ).
Proof.
  intros Hok. unfold process_opt.
  destruct (offset o =? minus_1U).
  - rewrite T_call_proc by exact Hok. apply lift_fail.
  - destruct (negb (sep =? 0)%nat && negb (CStr.at_end (templ_str o) (sep + 1))).
    + rewrite <- lift_fail. f_equal. unfold process_opt_param.
      destruct (negb (Ascii.eqb _ "%")); [reflexivity|].
      destruct (Ascii.eqb _ "s"); [cbn [lift]; now rewrite T_store|].
      destruct (sscanf _ _); cbn [lift]; [now rewrite T_store | reflexivity].
    + cbn [lift]. now rewrite T_store.
Qed.

Lemma gopt_body_T c o sep arg typ :
  ok c -> gopt_body (T c) o sep arg typ = lift T (gopt_body c o sep arg typ).
Proof.
  intros Hok. unfold gopt_body.
  destruct (negb (sep =? 0)%nat && Ascii.eqb (CStr.char_at (templ_str o) sep) " "
            && CStr.at_end arg sep); [|now apply process_opt_T].
  destruct (T_next Hok) as [Hn Ht]. rewrite Ht.
  destruct (argc (in_args c) <=? tmp_argctr c + 1)%nat; [reflexivity|].
  fields. rewrite Hn.
  destruct (nth_error (args_list (in_args c)) (tmp_argctr c + 1)) as [val|]; [|reflexivity].
  rewrite <- T_argctr. apply process_opt_T. now apply ok_argctr.
Qed.

Lemma run_entries_T es : forall c arg typ,
  ok c -> run_entries es (T c) arg typ = lift T (run_entries es c arg typ).
Proof.
  induction es as [|[o sep] es IH]; intros c arg typ Hok; [reflexivity|].
  cbn [run_entries]. rewrite gopt_body_T by exact Hok. apply lift_bind.
  intros r c1 H1. destruct (r =? -1); [reflexivity|]. apply IH.
  destruct (gopt_body c o sep arg typ) as [[r0 c0]| |] eqn:Hb; inv H1.
  revert Hb Hok. apply (gopt_body_R (fun c r c' => ok c -> ok c')); eauto.
  intros c0 Hc. now apply ok_argctr.
Qed.

Lemma process_gopt_T c arg typ :
  ok c -> process_gopt (T c) arg typ = lift T (process_gopt c arg typ).
Proof.
  intros Hok. rewrite !process_gopt_entries, T_matching by exact Hok.
  destruct (matching (in_opt c) arg); [now apply T_call_proc | now apply run_entries_T].
Qed.

Lemma dispatch_opts_T subs : forall c,
  ok c -> dispatch_opts subs (T c) = lift T (dispatch_opts subs c).
Proof.
  induction subs as [|a subs IH]; intros c Hok; [reflexivity|].
  cbn [dispatch_opts]. rewrite process_gopt_T by exact Hok. apply lift_bind.
  intros r c1 H1. destruct (r =? -1); [reflexivity|]. apply IH.
  destruct ok_stepwise as (_ & Hg & _). exact (Hg _ _ _ _ _ H1 Hok).
Qed.

Lemma process_one_T c :
  ok c -> cur c -> process_one (T c) = lift T (process_one c).
Proof.
  intros Hok Hcur. unfold process_one.
  destruct (T_cur Hcur) as [Hn _]. rewrite Hn, T_nonopt.
  destruct (nth_error (args_list (in_args c)) (tmp_argctr c)) as [arg|]; [|reflexivity].
  destruct (negb (tmp_nonopt c =? 0)%nat || negb (Ascii.eqb (CStr.char_at arg 0) "-"));
    [now apply T_call_proc|].
  destruct (Ascii.eqb (CStr.char_at arg 1) "o").
  - destruct (negb (CStr.at_end arg 2)).
    + rewrite !opts_loop_dispatch. now apply dispatch_opts_T.
    + destruct (T_next Hok) as [Hx Ht].
      assert (Hlt : forall a b, (a + 1 <? b)%nat = negb (b <=? a + 1)%nat).
      { intros a b. destruct (b <=? a + 1)%nat eqn:E.
        - apply Nat.leb_le in E. apply Nat.ltb_ge. lia.
        - apply Nat.leb_gt in E. apply Nat.ltb_lt. lia. }
      rewrite !Hlt, Ht.
      destruct (argc (in_args c) <=? tmp_argctr c + 1)%nat; [reflexivity|]. cbn [negb].
      fields. rewrite Hx.
      destruct (nth_error (args_list (in_args c)) (tmp_argctr c + 1)) as [v|]; [|reflexivity].
      rewrite !opts_loop_dispatch, <- T_argctr. apply dispatch_opts_T. now apply ok_argctr.
  - destruct (Ascii.eqb (CStr.char_at arg 1) "-" && CStr.at_end arg 2);
      [|now apply process_gopt_T].
    rewrite T_out. unfold obind.
    destruct (fuse_opt_add_arg (out_args c) arg) as [[r1 o]| |]; try reflexivity.
    destruct (r1 =? -1); cbn [lift]; [now rewrite T_set_out|].
    fields. now rewrite T_separator.
Qed.

Lemma parse_loop_T fuel : forall c,
  ok c -> cur c -> parse_loop fuel (T c) = lift T (parse_loop fuel c).
Proof.
  induction fuel as [|fuel IH]; intros c Hok Hcur; cbn [parse_loop];
    destruct (T_cur Hcur) as [_ Ht]; rewrite Ht.
  - destruct (tmp_argctr c <? argc (in_args c))%nat; reflexivity.
  - destruct (tmp_argctr c <? argc (in_args c))%nat; [|reflexivity].
    rewrite process_one_T by assumption. apply lift_bind.
    intros r c1 H1. destruct (r =? -1); [reflexivity|].
    destruct ok_stepwise as (_ & _ & Hone). pose proof (Hone _ _ _ H1 Hok) as Hok1.
    rewrite <- T_argctr. apply IH; now apply ok_argctr.
Qed.

Lemma finalize_T c : finalize (T c) = lift T (finalize c).
Proof.
  unfold finalize. rewrite T_opts, T_out.
  match goal with
  | |- obind ?m ?k = lift T (obind ?m' ?k') =>
      assert (Hin : m = lift T m'); [|rewrite Hin; apply lift_bind]
  end.
  - destruct (tmp_opts c) as [opts|]; [|reflexivity]. unfold obind.
    destruct (fuse_opt_insert_arg (out_args c) 1 "-o") as [[r1 o1]| |]; try reflexivity.
    destruct (r1 =? -1); cbn [lift]; [now rewrite T_set_out|].
    destruct (fuse_opt_insert_arg o1 2 opts) as [[r2 o2]| |]; try reflexivity.
    cbn [lift]. now rewrite T_set_out.
  - intros r c1 _. destruct (r =? -1); [reflexivity|]. rewrite T_nonopt, T_out.
    match goal with |- context [if ?b then _ else _] => destruct b end; cbn [lift];
      rewrite ?T_set_out; reflexivity.
Qed.

End Transport.

(** ** A NULL callback *)

Ltac without_callback_eq :=
  unfold store_field, without_callback, set_out_args, set_opts, set_data, set_nonopt, add_log;
  cbn [in_opt in_proc in_args inout_data out_args tmp_argctr tmp_opts tmp_nonopt log];
  rewrite ?filter_app; cbn [filter is_proc negb]; rewrite ?app_nil_r; reflexivity.

Lemma keep_gopt_without_callback c arg typ :
  keep_gopt (without_callback c) arg typ = lift without_callback (keep_gopt c arg typ).
Proof.
  unfold keep_gopt. destruct typ.
  - unfold obind. cbn [out_args add_log without_callback].
    destruct (fuse_opt_add_arg (out_args c) arg) as [[r o]| |]; try reflexivity.
    cbn [lift]. do 2 f_equal. without_callback_eq.
  - cbn [lift]. do 2 f_equal. without_callback_eq.
Qed.

Lemma call_proc_without_callback c arg key typ :
  in_proc c = Some keep_all ->
  call_proc (without_callback c) arg key typ = lift without_callback (call_proc c arg key typ).
Proof.
  intros Hp. unfold call_proc. destruct (key =? FUSE_OPT_KEY_DISCARD); [reflexivity|].
  rewrite Hp. cbn [without_callback in_proc].
  destruct (negb (key =? FUSE_OPT_KEY_KEEP)); [|apply keep_gopt_without_callback].
  cbn [keep_all]. change ((1 =? -1) || (1 =? 0)) with false. cbv iota.
  rewrite <- keep_gopt_without_callback. f_equal. without_callback_eq.
Qed.

Lemma parse_loop_without_callback fuel c :
  in_proc c = Some keep_all ->
  parse_loop fuel (without_callback c) = lift without_callback (parse_loop fuel c).
Proof.
  intros Hp.
  apply (@parse_loop_T without_callback (fun c => in_proc c = Some keep_all) (fun _ => True));
    try (intros; without_callback_eq); try (intros; split; reflexivity); auto.
  - intros c0 arg key typ. apply call_proc_without_callback.
  - intros c0 arg key typ r c' H Hp0. apply call_proc_continues in H.
    destruct H as (_ & -> & _). exact Hp0.
Qed.

(** X19.  A parse without callback is the parse with a callback that returns 1
    for every token and touches nothing: it fails an assertion when that
    one does, and otherwise returns the same value, the same argument
    vector and the same record; its log is the log of that parse without
    the calls of the callback. *)
Theorem null_callback_is_keep_all (args : option fuse_args) (d : data)
    (opts : list fuse_opt) :
  fuse_opt_parse args d opts None
  = match fuse_opt_parse args d opts (Some keep_all) with
    | Done r =>
        Done (mk_result (res_code r) (res_args r) (res_data r)
                        (filter (fun e => negb (is_proc e)) (res_log r)))
    | Abort => Abort
    | OutOfFuel => OutOfFuel
    end.
Proof.
  destruct args as [a|]; [|reflexivity].
  destruct (argv a) as [[|argv0 rest]|] eqn:Ha;
    try (unfold fuse_opt_parse; rewrite Ha; reflexivity).
  rewrite (fuse_opt_parse_unfold a d opts (Some keep_all) Ha).
  rewrite (fuse_opt_parse_unfold a d opts None Ha).
  change (loop_entry a d opts None argv0)
    with (without_callback (loop_entry a d opts (Some keep_all) argv0)).
  rewrite parse_loop_without_callback by reflexivity.
  unfold obind.
  destruct (parse_loop (argc a) (loop_entry a d opts (Some keep_all) argv0))
    as [[r c1]| |]; try reflexivity.
  cbn [lift]. destruct (r =? -1); [reflexivity|].
  rewrite (@finalize_T without_callback); try reflexivity.
  destruct (finalize c1) as [[r2 c2]| |]; try reflexivity.
  cbn [lift]. destruct (r2 =? -1); reflexivity.
Qed.

(** ** "-oGROUP" and "-o GROUP" *)

Lemma parse_loop_S fuel c :
  parse_loop (S fuel) c
  = if (tmp_argctr c <? argc (in_args c))%nat then
      let* (r, c1) := process_one c in
      if r =? -1 then Done (-1, c1) else parse_loop fuel (set_argctr c1 (tmp_argctr c1 + 1))
    else Done (0, c).
Proof. reflexivity. Qed.

(** Any fuel that covers the arguments left gives the same run. *)
Lemma parse_loop_any_fuel f1 : forall f2 c,
  (argc (in_args c) - tmp_argctr c <= f1)%nat ->
  (argc (in_args c) - tmp_argctr c <= f2)%nat ->
  parse_loop f1 c = parse_loop f2 c.
Proof.
  induction f1 as [|f1 IH]; intros f2 c H1 H2.
  - destruct f2; cbn [parse_loop];
      replace (tmp_argctr c <? argc (in_args c))%nat with false
        by (symmetry; apply Nat.ltb_ge; lia); reflexivity.
  - destruct f2 as [|f2].
    + cbn [parse_loop]. replace (tmp_argctr c <? argc (in_args c))%nat with false
        by (symmetry; apply Nat.ltb_ge; lia). reflexivity.
    + rewrite !parse_loop_S.
      destruct (tmp_argctr c <? argc (in_args c))%nat eqn:E; [|reflexivity].
      apply Nat.ltb_lt in E. unfold obind.
      destruct (process_one c) as [[r c1]| |] eqn:Hp; try reflexivity.
      destruct (r =? -1); [reflexivity|].
      apply process_one_continues in Hp. destruct Hp as (_ & _ & Ha & Hc & _).
      apply IH; fields; rewrite Ha; lia.
Qed.

Lemma call_proc_moved_on a2 c arg key typ :
  call_proc (moved_on a2 c) arg key typ = lift (moved_on a2) (call_proc c arg key typ).
Proof.
  assert (Hk : forall c0, keep_gopt (moved_on a2 c0) arg typ
                          = lift (moved_on a2) (keep_gopt c0 arg typ)).
  { intros c0. unfold keep_gopt. destruct typ; [|reflexivity].
    unfold obind. cbn [out_args add_log moved_on].
    destruct (fuse_opt_add_arg (out_args c0) arg) as [[r o]| |]; reflexivity. }
  unfold call_proc. destruct (key =? FUSE_OPT_KEY_DISCARD); [reflexivity|].
  cbn [moved_on in_proc inout_data out_args].
  destruct (if negb (key =? FUSE_OPT_KEY_KEEP) then in_proc c else None) as [p|]; [|apply Hk].
  destruct (p (inout_data c) arg key (out_args c)) as [[res d] o].
  destruct ((res =? -1) || (res =? 0)); [reflexivity|].
  exact (Hk (add_log (set_out_args (set_data c d) o) (EvProc arg key res))).
Qed.

Section Attached.

Variables (argv0 g : string) (post : list string) (al1 al2 : bool).

Let a1 := mk_args (Some (argv0 :: ("-o" ++ g)%string :: post)) al1.
Let a2 := mk_args (Some (argv0 :: "-o" :: g :: post)) al2.

Let ok (c : fuse_opt_context) : Prop := in_args c = a1 /\ (1 <= tmp_argctr c)%nat.
Let cur (c : fuse_opt_context) : Prop := in_args c = a1 /\ (2 <= tmp_argctr c)%nat.

Lemma moved_on_next c :
  ok c ->
  nth_error (args_list (in_args (moved_on a2 c))) (tmp_argctr (moved_on a2 c) + 1)
  = nth_error (args_list (in_args c)) (tmp_argctr c + 1)
  /\ (argc (in_args (moved_on a2 c)) <=? tmp_argctr (moved_on a2 c) + 1)%nat
     = (argc (in_args c) <=? tmp_argctr c + 1)%nat.
Proof.
  intros [Ha Hn]. rewrite Ha. cbn [moved_on in_args tmp_argctr].
  destruct (tmp_argctr c) as [|n]; [lia|].
  replace (S n + 1 + 1)%nat with (S (S (S n))) by lia.
  replace (S n + 1)%nat with (S (S n)) by lia.
  split; reflexivity.
Qed.

Lemma moved_on_cur c :
  cur c ->
  nth_error (args_list (in_args (moved_on a2 c))) (tmp_argctr (moved_on a2 c))
  = nth_error (args_list (in_args c)) (tmp_argctr c)
  /\ (tmp_argctr (moved_on a2 c) <? argc (in_args (moved_on a2 c)))%nat
     = (tmp_argctr c <? argc (in_args c))%nat.
Proof.
  intros [Ha Hn]. rewrite Ha. cbn [moved_on in_args tmp_argctr].
  destruct (tmp_argctr c) as [|[|n]]; try lia.
  replace (S (S n) + 1)%nat with (S (S (S n))) by lia.
  split; reflexivity.
Qed.

Lemma ok_kept_by_call_proc c arg key typ r c' :
  call_proc c arg key typ = Done (r, c') -> ok c -> ok c'.
Proof.
  intros H [Ha Hn]. apply call_proc_continues in H. destruct H as (_ & _ & Ha' & Hc & _).
  split; [congruence | lia].
Qed.

Lemma dispatch_opts_moved_on subs c :
  ok c -> dispatch_opts subs (moved_on a2 c) = lift (moved_on a2) (dispatch_opts subs c).
Proof.
  apply (@dispatch_opts_T (moved_on a2) ok cur); try reflexivity.
  - intros c0 arg key typ _. apply call_proc_moved_on.
  - exact moved_on_next.
  - exact ok_kept_by_call_proc.
  - intros c0 var v H. exact H.
  - intros c0 [Ha Hn]. unfold ok, cur. cbn [set_argctr in_args tmp_argctr]. split; split; auto; lia.
  - intros c0 o n H. exact H.
Qed.

Lemma parse_loop_moved_on fuel c :
  ok c -> cur c ->
  parse_loop fuel (moved_on a2 c) = lift (moved_on a2) (parse_loop fuel c).
Proof.
  apply (@parse_loop_T (moved_on a2) ok cur); try reflexivity.
  - intros c0 arg key typ _. apply call_proc_moved_on.
  - exact moved_on_next.
  - exact moved_on_cur.
  - exact ok_kept_by_call_proc.
  - intros c0 var v H. exact H.
  - intros c0 [Ha Hn]. unfold ok, cur. cbn [set_argctr in_args tmp_argctr]. split; split; auto; lia.
  - intros c0 o n H. exact H.
Qed.

Hypothesis g_not_empty : g <> EmptyString.

Lemma attached_first (d : data) (opts : list fuse_opt) (proc : option fuse_opt_proc_t) :
  process_one (loop_entry a1 d opts proc argv0)
  = opts_loop g EmptyString (loop_entry a1 d opts proc argv0).
Proof.
  unfold process_one. cbn [loop_entry in_args tmp_argctr tmp_nonopt a1 args_list argv nth_error].
  cbn [Nat.eqb negb orb String.append CStr.char_at].
  change (Ascii.eqb "-" "-") with true. change (Ascii.eqb "o" "o") with true.
  cbn [negb orb]. cbv iota.
  replace (CStr.at_end (String "-" (String "o" g)) 2) with false; [reflexivity|].
  symmetry. unfold CStr.at_end. apply Nat.leb_gt. destruct g; [congruence | cbn; lia].
Qed.

Lemma detached_first (d : data) (opts : list fuse_opt) (proc : option fuse_opt_proc_t) :
  process_one (loop_entry a2 d opts proc argv0)
  = opts_loop g EmptyString (moved_on a2 (loop_entry a1 d opts proc argv0)).
Proof. reflexivity. Qed.

Lemma attached_loop (d : data) (opts : list fuse_opt) (proc : option fuse_opt_proc_t) :
  parse_loop (argc a2) (loop_entry a2 d opts proc argv0)
  = lift (moved_on a2) (parse_loop (argc a1) (loop_entry a1 d opts proc argv0)).
Proof.
  change (argc a2) with (S (S (S (List.length post)))).
  change (argc a1) with (S (S (List.length post))).
  rewrite (parse_loop_S (S (S (List.length post)))), (parse_loop_S (S (List.length post))).
  change (tmp_argctr (loop_entry a2 d opts proc argv0)
          <? argc (in_args (loop_entry a2 d opts proc argv0)))%nat with true.
  change (tmp_argctr (loop_entry a1 d opts proc argv0)
          <? argc (in_args (loop_entry a1 d opts proc argv0)))%nat with true.
  cbv iota. rewrite attached_first, detached_first, !opts_loop_dispatch.
  rewrite dispatch_opts_moved_on by (split; [reflexivity | cbn; lia]).
  destruct (dispatch_opts _ (loop_entry a1 d opts proc argv0)) as [[r c1]| |] eqn:Hd;
    try reflexivity.
  cbn [lift obind]. destruct (r =? -1); [reflexivity|].
  rewrite <- opts_loop_dispatch in Hd. apply opts_loop_continues in Hd.
  destruct Hd as (_ & _ & Ha & Hc & _). cbn [loop_entry in_args tmp_argctr] in Ha, Hc.
  change (set_argctr (moved_on a2 c1) (tmp_argctr (moved_on a2 c1) + 1))
    with (moved_on a2 (set_argctr c1 (tmp_argctr c1 + 1))).
  rewrite (@parse_loop_any_fuel (S (S (List.length post))) (S (List.length post))).
  - apply parse_loop_moved_on; split; cbn [set_argctr in_args tmp_argctr]; auto; lia.
  - cbn [moved_on set_argctr in_args tmp_argctr]. change (argc a2) with (3 + List.length post)%nat.
    lia.
  - cbn [moved_on set_argctr in_args tmp_argctr]. change (argc a2) with (3 + List.length post)%nat.
    lia.
Qed.

Lemma attached_parse (d : data) (opts : list fuse_opt) (proc : option fuse_opt_proc_t) :
  fuse_opt_parse (Some a2) d opts proc
  = match fuse_opt_parse (Some a1) d opts proc with
    | Done r1 =>
        Done (if res_code r1 =? 0 then r1
              else mk_result (res_code r1) (Some a2) (res_data r1) (res_log r1))
    | Abort => Abort
    | OutOfFuel => OutOfFuel
    end.
Proof.
  rewrite (fuse_opt_parse_unfold a2 d opts proc (argv0:=argv0) (rest:="-o" :: g :: post) eq_refl).
  rewrite (fuse_opt_parse_unfold a1 d opts proc (argv0:=argv0)
             (rest:=("-o" ++ g)%string :: post) eq_refl).
  rewrite attached_loop. unfold obind.
  destruct (parse_loop (argc a1) (loop_entry a1 d opts proc argv0)) as [[r c1]| |];
    try reflexivity.
  cbn [lift]. destruct (r =? -1); [reflexivity|].
  rewrite (@finalize_T (moved_on a2)); try reflexivity.
  destruct (finalize c1) as [[r2 c2]| |]; try reflexivity.
  cbn [lift]. destruct (r2 =? -1); reflexivity.
Qed.

End Attached.

(** X20.  A group option is read in the same way whether its value is glued
    to "-o" or is the next argument.  For every table and every callback,
    the parse of [prog -oGROUP rest] and the parse of [prog -o GROUP rest]
    run alike: both fail an assertion, or both return, with the same
    return value, the same record and the same log, and on success the
    same argument vector. *)
Theorem attached_group_value (argv0 g : string) (post : list string) (al1 al2 : bool)
    (d : data) (opts : list fuse_opt) (proc : option fuse_opt_proc_t) :
  g <> EmptyString ->
  fuse_opt_parse (Some (mk_args (Some (argv0 :: "-o" :: g :: post)) al2)) d opts proc
  = match fuse_opt_parse (Some (mk_args (Some (argv0 :: ("-o" ++ g)%string :: post)) al1))
                         d opts proc with
    | Done r1 =>
        Done (if res_code r1 =? 0 then r1
              else mk_result (res_code r1)
                             (Some (mk_args (Some (argv0 :: "-o" :: g :: post)) al2))
                             (res_data r1) (res_log r1))
    | Abort => Abort
    | OutOfFuel => OutOfFuel
    end.
Proof. intros Hg. now apply attached_parse. Qed.

(** ** Where option processing ends *)

Lemma process_gopt_nonopt c arg typ r c' :
  process_gopt c arg typ = Done (r, c') -> tmp_nonopt c' = tmp_nonopt c.
Proof.
  apply (process_gopt_R (fun c r c' => tmp_nonopt c' = tmp_nonopt c)); auto.
  - intros c0 r1 c1 r2 c2 H1 _ H2. congruence.
  - intros c0 arg0 key typ0 r0 c0' H. exact (call_proc_nonopt _ _ _ _ H).
Qed.

Lemma dispatch_opts_nonopt subs c r c' :
  dispatch_opts subs c = Done (r, c') -> tmp_nonopt c' = tmp_nonopt c.
Proof.
  apply (dispatch_opts_R (fun c r c' => tmp_nonopt c' = tmp_nonopt c)); auto.
  - intros c0 r1 c1 r2 c2 H1 _ H2. congruence.
  - intros c0 arg0 key typ0 r0 c0' H. exact (call_proc_nonopt _ _ _ _ H).
Qed.

(** X21.  Only the token "--", read while options are still being processed,
    ends option processing: [process_one] leaves [tmp_nonopt] as it is
    for every other argument (a positional argument in front of "--" does
    not end it), and for "--" it appends the token to the output vector
    and sets [tmp_nonopt] to the new length of the vector. *)
Theorem only_separator_ends_options (c : fuse_opt_context) (r : Z) (c' : fuse_opt_context) :
  process_one c = Done (r, c') ->
  tmp_nonopt c' = tmp_nonopt c
  \/ (tmp_nonopt c = 0%nat
      /\ nth_error (args_list (in_args c)) (tmp_argctr c) = Some "--"
      /\ r = 0
      /\ args_list (out_args c') = args_list (out_args c) ++ ["--"]
      /\ tmp_nonopt c' = S (argc (out_args c))).
Proof.
  unfold process_one. intros H.
  destruct (nth_error (args_list (in_args c)) (tmp_argctr c)) as [arg|]; [|discriminate].
  destruct (negb (tmp_nonopt c =? 0)%nat || negb (Ascii.eqb (CStr.char_at arg 0) "-")) eqn:E0.
  { left. exact (call_proc_nonopt _ _ _ _ H). }
  apply orb_false_elim in E0. destruct E0 as [En E0].
  apply negb_false_iff in En, E0. apply Nat.eqb_eq in En.
  destruct (Ascii.eqb (CStr.char_at arg 1) "o").
  { left. destruct (negb (CStr.at_end arg 2)).
    - rewrite opts_loop_dispatch in H. exact (dispatch_opts_nonopt _ _ H).
    - destruct (tmp_argctr c + 1 <? argc (in_args c))%nat; [|inv H; reflexivity].
      fields. destruct (nth_error _ _); [|discriminate].
      rewrite opts_loop_dispatch in H. exact (dispatch_opts_nonopt _ _ H). }
  destruct (Ascii.eqb (CStr.char_at arg 1) "-" && CStr.at_end arg 2) eqn:E1;
    [|left; exact (process_gopt_nonopt _ _ _ H)].
  right. pose proof (separator_token _ E0 E1) as ->.
  unfold obind in H.
  destruct (fuse_opt_add_arg (out_args c) "--") as [[r1 o]| |] eqn:Ha; try discriminate.
  apply add_arg_done in Ha. destruct Ha as [-> ->]. change (0 =? -1) with false in H.
  cbv iota in H. inv H. fields.
  split; [exact En|]. split; [reflexivity|]. split; [reflexivity|]. split; [reflexivity|].
  unfold argc. change (args_list (mk_args (Some (args_list (out_args c) ++ ["--"])) true))
    with (args_list (out_args c) ++ ["--"]).
  rewrite length_app. cbn [List.length]. lia.
Qed.

(** ** The caller's record *)

Lemma replay_app d l1 l2 : replay d (l1 ++ l2) = replay (replay d l1) l2.
Proof. apply fold_left_app. Qed.

Lemma call_proc_record c arg key typ r c' :
  call_proc c arg key typ = Done (r, c') -> record_follows_log c r c'.
Proof.
  assert (Hk : forall c0, keep_gopt c0 arg typ = Done (r, c') ->
                          log c' = log c0 ++ [EvKeep typ arg] /\ in_proc c' = in_proc c0
                          /\ inout_data c' = inout_data c0).
  { intros c0 H. unfold keep_gopt in H. destruct typ.
    - unfold obind in H. destruct (fuse_opt_add_arg _ arg) as [[r1 o]| |]; inv H.
      repeat split; reflexivity.
    - inv H. repeat split; reflexivity. }
  unfold call_proc. intros H Hp.
  destruct (key =? FUSE_OPT_KEY_DISCARD).
  { inv H. exists []. rewrite app_nil_r. repeat split; reflexivity. }
  destruct (if negb (key =? FUSE_OPT_KEY_KEEP) then in_proc c else None) as [p|] eqn:Hproc.
  - assert (Hin : in_proc c = Some p).
    { destruct (negb (key =? FUSE_OPT_KEY_KEEP)); [exact Hproc | discriminate]. }
    pose proof (Hp _ Hin (inout_data c) arg key (out_args c)) as Hd.
    destruct (p (inout_data c) arg key (out_args c)) as [[res d] o]. cbn in Hd. subst d.
    destruct ((res =? -1) || (res =? 0)).
    + inv H. exists [EvProc arg key r]. repeat split; reflexivity.
    + apply Hk in H. destruct H as (L & P & D). fields.
      exists [EvProc arg key res; EvKeep typ arg]. rewrite L, P, D, <- app_assoc.
      repeat split; reflexivity.
  - apply Hk in H. destruct H as (L & P & D). exists [EvKeep typ arg].
    rewrite L, P, D. repeat split; reflexivity.
Qed.

Lemma parse_loop_record fuel c r c' :
  parse_loop fuel c = Done (r, c') -> record_follows_log c r c'.
Proof.
  apply parse_loop_R.
  - intros c0 r0 _. exists []. rewrite app_nil_r. repeat split; reflexivity.
  - intros c0 r1 c1 r2 c2 H1 _ H2 Hp. destruct (H1 Hp) as (n1 & L1 & P1 & D1).
    destruct H2 as (n2 & L2 & P2 & D2); [rewrite P1; exact Hp|].
    exists (n1 ++ n2). rewrite L2, L1, P2, P1, D2, D1, replay_app, app_assoc.
    repeat split; reflexivity.
  - intros c0 r0 c0' r0' H _. exact H.
  - apply call_proc_record.
  - intros c0 var v _. exists [EvStore var v]. repeat split; reflexivity.
  - intros c0 _. exists []. cbn. rewrite app_nil_r. repeat split; reflexivity.
  - intros c0 o _. exists [EvSeparator]. repeat split; reflexivity.
Qed.

(** X22.  The parser writes to the caller's record through entries with a
    destination only, and takes nothing back: with a callback that leaves
    the record alone (or without callback), the record after a parse is
    the initial one with the stores of the log applied in order, whether
    the parse succeeded or failed. *)
Theorem record_is_stores_of_log (args : option fuse_args) (d : data)
    (opts : list fuse_opt) (proc : option fuse_opt_proc_t) (r : parse_result) :
  (forall p, proc = Some p -> leaves_data p) ->
  fuse_opt_parse args d opts proc = Done r ->
  res_data r = replay d (res_log r).
Proof.
  intros Hp H. destruct args as [a|]; [|inv H; reflexivity].
  destruct (argv a) as [[|argv0 rest]|] eqn:Ha;
    try (unfold fuse_opt_parse in H; rewrite Ha in H; inv H; reflexivity).
  destruct (fuse_opt_parse_run a d opts proc Ha H) as (r1 & c1 & Hl & Hr).
  apply parse_loop_record in Hl. destruct (Hl Hp) as (new & L & _ & D).
  cbn [loop_entry log inout_data app] in L, D.
  destruct Hr as [[_ ->]|(_ & c2 & Hf & ->)]; cbn [res_data res_log].
  - rewrite L, D. reflexivity.
  - apply finalize_log in Hf. destruct Hf as [L2 D2]. rewrite L2, D2, L, D. reflexivity.
Qed.

(** ** Behind the terminator of the table *)

Lemma matching_terminated l1 off v l2 arg :
  matching (l1 ++ mk_opt None off v :: l2) arg = matching l1 arg.
Proof.
  induction l1 as [|o l1 IH]; [reflexivity|]. cbn [app matching].
  destruct (templ o) as [t|]; [|reflexivity].
  destruct (match_template t arg); now rewrite IH.
Qed.

Lemma call_proc_with_table l c arg key typ :
  call_proc (with_table l c) arg key typ = lift (with_table l) (call_proc c arg key typ).
Proof.
  assert (Hk : forall c0, keep_gopt (with_table l c0) arg typ
                          = lift (with_table l) (keep_gopt c0 arg typ)).
  { intros c0. unfold keep_gopt. destruct typ; [|reflexivity].
    unfold obind. cbn [out_args add_log with_table].
    destruct (fuse_opt_add_arg (out_args c0) arg) as [[r o]| |]; reflexivity. }
  unfold call_proc. destruct (key =? FUSE_OPT_KEY_DISCARD); [reflexivity|].
  cbn [with_table in_proc inout_data out_args].
  destruct (if negb (key =? FUSE_OPT_KEY_KEEP) then in_proc c else None) as [p|]; [|apply Hk].
  destruct (p (inout_data c) arg key (out_args c)) as [[res d] o].
  destruct ((res =? -1) || (res =? 0)); [reflexivity|].
  exact (Hk (add_log (set_out_args (set_data c d) o) (EvProc arg key res))).
Qed.

Lemma parse_loop_with_table l1 off v l2 fuel c :
  in_opt c = l1 ++ mk_opt None off v :: l2 ->
  parse_loop fuel (with_table l1 c) = lift (with_table l1) (parse_loop fuel c).
Proof.
  intros Hc.
  apply (@parse_loop_T (with_table l1)
           (fun c => in_opt c = l1 ++ mk_opt None off v :: l2) (fun _ => True));
    try reflexivity; try (intros; split; reflexivity); auto.

  - intros c0 arg H. cbn [with_table in_opt]. rewrite H. symmetry. apply matching_terminated.
  - intros c0 arg key typ _. apply call_proc_with_table.
  - intros c0 arg key typ r c' H Hin. apply call_proc_continues in H.
    destruct H as (-> & _). exact Hin.
Qed.

(** X23.  The entries of the table behind the first entry without template
    (FUSE_OPT_END) take no part in a parse: with them and without them,
    [fuse_opt_parse] does the same and returns the same. *)
Theorem parse_stops_at_table_end (args : option fuse_args) (d : data)
    (l1 behind : list fuse_opt) (off v : Z) (proc : option fuse_opt_proc_t) :
  fuse_opt_parse args d (l1 ++ mk_opt None off v :: behind) proc
  = fuse_opt_parse args d l1 proc.
Proof.
  destruct args as [a|]; [|reflexivity].
  destruct (argv a) as [[|argv0 rest]|] eqn:Ha;
    try (unfold fuse_opt_parse; rewrite Ha; reflexivity).
  rewrite !(fuse_opt_parse_unfold a d _ proc Ha).
  change (loop_entry a d l1 proc argv0)
    with (with_table l1 (loop_entry a d (l1 ++ mk_opt None off v :: behind) proc argv0)).
  rewrite (@parse_loop_with_table l1 off v behind) by reflexivity.
  unfold obind.
  destruct (parse_loop (argc a) (loop_entry a d (l1 ++ mk_opt None off v :: behind) proc argv0))
    as [[r c1]| |]; try reflexivity.
  cbn [lift]. destruct (r =? -1); [reflexivity|].
  rewrite (@finalize_T (with_table l1)); try reflexivity.
  destruct (finalize c1) as [[r2 c2]| |]; reflexivity.
Qed.

End ParserProperties.

(** ** Worked examples *)

Lemma parse_nothing_to_do_witness :
  @fuse_opt_parse libfuse_keys decimal_libc (Some (mk_args (Some []) false)) []
                  [mk_opt (Some "-x") minus_1U 5] (Some (@keep_all decimal_libc))
  = Done (mk_result 0 (Some (mk_args (Some []) false)) [] []).
Proof.
  apply (@parse_nothing_to_do libfuse_keys decimal_libc).
  right. exists (mk_args (Some []) false). split; [reflexivity|]. right. reflexivity.
Defined.

Lemma callback_return_is_ternary_witness :
  let a := Some (mk_args (Some ["prog"; "--x"; "--y"]) false) in
  let r := mk_result (-1) a [] [EvProc "--x" (-1) (-1)] in
  let with_proc (res : Z) :=
    @mk_ctx decimal_libc [] (Some (@answer decimal_libc res))
            (mk_args (Some ["prog"; "-o"; "a,b"]) false) []
            (mk_args (Some ["prog"]) true) 2 (Some "ro") 0 [] in
  (res_code r = -1 /\ res_args r = a
   /\ exists pre, res_log r = pre ++ [@EvProc decimal_libc "--x" (-1) (-1)])
  /\ @call_proc libfuse_keys decimal_libc (with_proc 7) "a,b" 5 GOPT_OPTION
     = Done (0, mk_ctx [] (Some (@answer decimal_libc 7))
                       (mk_args (Some ["prog"; "-o"; "a,b"]) false) []
                       (mk_args (Some ["prog"]) true) 2 (Some "ro,a\,b") 0
                       [EvProc "a,b" 5 7; EvKeep GOPT_OPTION "a,b"])
  /\ @call_proc libfuse_keys decimal_libc (with_proc (-2)) "--x" 5 GOPT_FLAG
     = Done (0, mk_ctx [] (Some (@answer decimal_libc (-2)))
                       (mk_args (Some ["prog"; "-o"; "a,b"]) false) []
                       (mk_args (Some ["prog"; "--x"]) true) 2 (Some "ro") 0
                       [EvProc "--x" 5 (-2); EvKeep GOPT_FLAG "--x"])
  /\ @call_proc libfuse_keys decimal_libc (with_proc 0) "a,b" 5 GOPT_OPTION
     = Done (0, mk_ctx [] (Some (@answer decimal_libc 0))
                       (mk_args (Some ["prog"; "-o"; "a,b"]) false) []
                       (mk_args (Some ["prog"]) true) 2 (Some "ro") 0
                       [EvProc "a,b" 5 0])
  /\ @call_proc libfuse_keys decimal_libc (with_proc (-1)) "a,b" 5 GOPT_OPTION
     = Done (-1, mk_ctx [] (Some (@answer decimal_libc (-1)))
                        (mk_args (Some ["prog"; "-o"; "a,b"]) false) []
                        (mk_args (Some ["prog"]) true) 2 (Some "ro") 0
                        [EvProc "a,b" 5 (-1)]).
Proof.
  intros a r with_proc.
  destruct (@callback_return_is_ternary libfuse_keys decimal_libc) as [Hcall Hparse].
  split; [|split; [|split; [|split]]].
  - apply (Hparse a [] [] (Some (@answer decimal_libc (-1))) r).
    + vm_compute. reflexivity.
    + simpl. auto.
  - rewrite (Hcall (with_proc 7) "a,b" 5 GOPT_OPTION (@answer decimal_libc 7) 7 []
               (mk_args (Some ["prog"]) true));
      [reflexivity | discriminate | discriminate | reflexivity | reflexivity].
  - rewrite (Hcall (with_proc (-2)) "--x" 5 GOPT_FLAG (@answer decimal_libc (-2)) (-2) []
               (mk_args (Some ["prog"]) true));
      [reflexivity | discriminate | discriminate | reflexivity | reflexivity].
  - rewrite (Hcall (with_proc 0) "a,b" 5 GOPT_OPTION (@answer decimal_libc 0) 0 []
               (mk_args (Some ["prog"]) true));
      [reflexivity | discriminate | discriminate | reflexivity | reflexivity].
  - rewrite (Hcall (with_proc (-1)) "a,b" 5 GOPT_OPTION (@answer decimal_libc (-1)) (-1) []
               (mk_args (Some ["prog"]) true));
      [reflexivity | discriminate | discriminate | reflexivity | reflexivity].
Defined.

(** C1, as stated, fails: the callback returns -2, a negative value, and
    the parse nevertheless returns 0 with the token kept in the output. *)
Lemma negative_return_keeps_token :
  -2 < 0
  /\ @fuse_opt_parse libfuse_keys decimal_libc
       (Some (mk_args (Some ["prog"; "--x"]) false)) [] [] (Some (@answer decimal_libc (-2)))
     = Done (mk_result 0 (Some (mk_args (Some ["prog"; "--x"]) true)) []
                       [EvProc "--x" (-1) (-2); EvKeep GOPT_FLAG "--x"]).
Proof. split; [lia | vm_compute; reflexivity]. Qed.

Lemma lookup_resumes_after_match_witness :
  let table := [mk_opt (Some "-n=%d") 16 0; mk_opt (Some "-n=") minus_1U 7] in
  let a := mk_args (Some ["prog"; "-n=5"]) false in
  let ctx := @mk_ctx decimal_libc table (Some (@keep_all decimal_libc)) a []
                     (mk_args (Some ["prog"]) true) 1 None 0 [] in
  let table' := [mk_opt (Some "-b %s") 8 0; mk_opt (Some "-b ") minus_1U 7] in
  let a' := mk_args (Some ["prog"; "-b"; "val"]) false in
  let ctx' := @mk_ctx decimal_libc table' (Some (@keep_all decimal_libc)) a' []
                      (mk_args (Some ["prog"]) true) 1 None 0 [] in
  (matching table "-n=5" = [(mk_opt (Some "-n=%d") 16 0, 2%nat);
                            (mk_opt (Some "-n=") minus_1U 7, 2%nat)]
   /\ @process_gopt libfuse_keys decimal_libc ctx "-n=5" GOPT_FLAG
      = Done (0, mk_ctx table (Some (@keep_all decimal_libc)) a [(16, @FScan decimal_libc 5)]
                        (mk_args (Some ["prog"; "-n=5"]) true) 1 None 0
                        [EvStore 16 (@FScan decimal_libc 5); EvProc "-n=5" 7 1;
                         EvKeep GOPT_FLAG "-n=5"]))
  /\ (matching table' "-b" = [(mk_opt (Some "-b %s") 8 0, 2%nat);
                             (mk_opt (Some "-b ") minus_1U 7, 2%nat)]
      /\ @process_gopt libfuse_keys decimal_libc ctx' "-b" GOPT_FLAG
         = Done (-1, mk_ctx table' (Some (@keep_all decimal_libc)) a' [(8, FStr "val")]
                            (mk_args (Some ["prog"]) true) 2 None 0
                            [EvStore 8 (FStr "val")]))
  /\ @process_gopt libfuse_keys decimal_libc
       (mk_ctx [mk_opt (Some "debug") 8 1; mk_opt (Some "debug") minus_1U 7]
               (Some (@keep_all decimal_libc))
               (mk_args (Some ["prog"; "-o"; "debug"]) false) []
               (mk_args (Some ["prog"]) true) 2 None 0 [])
       "debug" GOPT_OPTION
     = Done (0, mk_ctx [mk_opt (Some "debug") 8 1; mk_opt (Some "debug") minus_1U 7]
                       (Some (@keep_all decimal_libc))
                       (mk_args (Some ["prog"; "-o"; "debug"]) false) [(8, FInt 1)]
                       (mk_args (Some ["prog"]) true) 2 (Some "debug") 0
                       [EvStore 8 (FInt 1); EvProc "debug" 7 1; EvKeep GOPT_OPTION "debug"]).
Proof.
  intros table a ctx table' a' ctx'. split; [|split]; try (split; [reflexivity|]).
  3: { rewrite (proj1 (proj2 (proj2 (proj2 (@lookup_resumes_after_match libfuse_keys
                                              decimal_libc))))
                  _ "debug" GOPT_OPTION (mk_opt (Some "debug") 8 1) 0%nat
                  (mk_opt (Some "debug") minus_1U 7) 0%nat);
         [ reflexivity | reflexivity | discriminate | reflexivity | reflexivity
         | reflexivity ]. }
  - rewrite (proj1 (proj2 (proj2 (proj2 (@lookup_resumes_after_match libfuse_keys
                                           decimal_libc))))
               ctx "-n=5" GOPT_FLAG (mk_opt (Some "-n=%d") 16 0) 2%nat
               (mk_opt (Some "-n=") minus_1U 7) 2%nat);
      [ reflexivity | reflexivity | discriminate | reflexivity | reflexivity | reflexivity ].
  - rewrite (proj2 (proj2 (proj2 (proj2 (@lookup_resumes_after_match libfuse_keys
                                           decimal_libc))))
               ctx' "-b" GOPT_FLAG (mk_opt (Some "-b %s") 8 0) 2%nat
               (mk_opt (Some "-b ") minus_1U 7) 2%nat "val");
      [ reflexivity | reflexivity | discriminate | reflexivity | reflexivity | reflexivity
      | unfold argc, args_list; simpl; lia ].
Defined.

(** C5, as stated, fails: both entries match [-b], the first takes the
    next argument as its value and writes it, and the second, which
    matches the same bare [-b], then finds no argument left: the parse
    returns -1 and the callback is never called with the key 7. *)
Lemma second_entry_finds_no_value :
  let table := [mk_opt (Some "-b %s") 8 0; mk_opt (Some "-b ") minus_1U 7] in
  let a := mk_args (Some ["prog"; "-b"; "val"]) false in
  matching table "-b" = [(mk_opt (Some "-b %s") 8 0, 2%nat);
                         (mk_opt (Some "-b ") minus_1U 7, 2%nat)]
  /\ @fuse_opt_parse libfuse_keys decimal_libc (Some a) [] table
       (Some (@keep_all decimal_libc))
     = Done (mk_result (-1) (Some a) [(8, FStr "val")] [EvStore 8 (FStr "val")]).
Proof. intros table a. split; vm_compute; reflexivity. Qed.

(** C4, as stated, fails: [\477] is a backslash followed by three octal
    digits, and it is not decoded to one byte; the backslash is dropped and
    the digits stay. *)
Lemma octal_escape_needs_leading_0_to_3 :
  @sub_options "\477" = ["477"]
  /\ (forall b : ascii, @sub_options "\477" <> [String b EmptyString])
  /\ (exists r, @fuse_opt_parse libfuse_keys decimal_libc
                  (Some (mk_args (Some ["prog"; "-o"; "\477"]) false)) [] []
                  (Some (@keep_all decimal_libc)) = Done r
                /\ res_code r = 0
                /\ res_args r = Some (mk_args (Some ["prog"; "-o"; "477"]) true)).
Proof.
  split; [reflexivity|]. split; [intros b H; discriminate|].
  eexists. split; [vm_compute; reflexivity|]. split; reflexivity.
Qed.

(** C3: the input ends in "--" and holds a group option.  The merged group
    is inserted, "--" is the last token of the output, and it is still
    there; without the group option it is removed. *)
Lemma trailing_separator_survives_merged_group :
  (exists r, @fuse_opt_parse libfuse_keys decimal_libc
               (Some (mk_args (Some ["prog"; "-o"; "x"; "--"]) false)) [] []
               (Some (@keep_all decimal_libc)) = Done r
             /\ res_code r = 0
             /\ res_args r = Some (mk_args (Some ["prog"; "-o"; "x"; "--"]) true))
  /\ (exists r, @fuse_opt_parse libfuse_keys decimal_libc
                  (Some (mk_args (Some ["prog"; "--"]) false)) [] []
                  (Some (@keep_all decimal_libc)) = Done r
                /\ res_code r = 0
                /\ res_args r = Some (mk_args (Some ["prog"]) true)).
Proof.
  split; eexists; (split; [vm_compute; reflexivity|]); split; reflexivity.
Qed.

Lemma merged_group_emitted_once_witness :
  exists prog,
    nth_error ["prog"; "-o"; "x"; "--flag"; "-oy\054z"] 0 = Some prog
    /\ Some (mk_args (Some ["prog"; "-o"; "x,y\,z"; "--flag"]) true)
       = Some (mk_args (Some (prog :: "-o" :: "x,y\,z" :: ["--flag"])) true).
Proof.
  apply (proj1 (@merged_group_emitted_once libfuse_keys decimal_libc)
               (mk_args (Some ["prog"; "-o"; "x"; "--flag"; "-oy\054z"]) false) [] []
               (Some (@keep_all decimal_libc))
               (mk_result 0 (Some (mk_args (Some ["prog"; "-o"; "x,y\,z"; "--flag"]) true)) []
                  [EvProc "x" (-1) 1; EvKeep GOPT_OPTION "x";
                   EvProc "--flag" (-1) 1; EvKeep GOPT_FLAG "--flag";
                   EvProc "y,z" (-1) 1; EvKeep GOPT_OPTION "y,z"])).
  - intros p Hp. inversion Hp. intros d arg key o. reflexivity.
  - vm_compute. reflexivity.
  - reflexivity.
  - simpl. discriminate.
Defined.

(** C2, as stated, fails: the sub-options [""] and ["x"] of one group are
    both kept, their comma-joined list is [",x"], and the merged group of
    the output is ["x"]. *)
Lemma empty_suboption_leaves_no_comma :
  exists r,
    @fuse_opt_parse libfuse_keys decimal_libc
      (Some (mk_args (Some ["prog"; "-o"; ",x"]) false)) [] [] (Some (@keep_all decimal_libc))
    = Done r
    /\ res_code r = 0
    /\ kept_opts (res_log r) = [""; "x"]
    /\ String.concat "," (map (escape_into true) (kept_opts (res_log r))) = ",x"
    /\ res_args r = Some (mk_args (Some ["prog"; "-o"; "x"]) true).
Proof.
  eexists. split; [vm_compute; reflexivity|]. repeat split; reflexivity.
Qed.

Lemma missing_argument_fails_witness :
  let a := mk_args (Some ["prog"; "--x"; "-o"]) false in
  let b := mk_args (Some ["prog"; "--x"; "-b"]) false in
  let table := [mk_opt (Some "-b %s") 8 0] in
  ((forall r, @fuse_opt_parse libfuse_keys decimal_libc (Some a) [] []
                (Some (@keep_all decimal_libc)) = Done r ->
              res_code r = -1 /\ res_args r = Some a)
   /\ @fuse_opt_parse libfuse_keys decimal_libc (Some a) [] [] (Some (@keep_all decimal_libc))
      = Done (mk_result (-1) (Some a) []
                [EvProc "--x" (-1) 1; EvKeep GOPT_FLAG "--x"]))
  /\ @fuse_opt_parse libfuse_keys decimal_libc (Some b) [] table
       (Some (@keep_all decimal_libc))
     = Done (mk_result (-1) (Some b) []
               [EvProc "--x" (-1) 1; EvKeep GOPT_FLAG "--x"]).
Proof.
  intros a b table.
  pose (after := fun (t : list fuse_opt) (i : fuse_args) (n : nat) =>
                   @mk_ctx decimal_libc t (Some (@keep_all decimal_libc)) i []
                           (mk_args (Some ["prog"; "--x"]) true) n None 0
                           [EvProc "--x" (-1) 1; EvKeep GOPT_FLAG "--x"]).
  split.
  - assert (Hreach : @loop_reaches libfuse_keys decimal_libc
                       (loop_entry a [] [] (Some (@keep_all decimal_libc)) "prog")
                       (after [] a 2%nat)).
    { apply (@reaches_next libfuse_keys decimal_libc _ 0 (after [] a 1%nat));
        [ apply Nat.ltb_lt; reflexivity | vm_compute; reflexivity | discriminate
        | apply reaches_here ]. }
    destruct (@missing_argument_fails libfuse_keys decimal_libc a [] []
                (Some (@keep_all decimal_libc)) "prog" ["--x"; "-o"] (after [] a 2%nat)
                eq_refl Hreach ltac:(apply Nat.ltb_lt; reflexivity) eq_refl)
      as (_ & H1 & H2).
    split; [exact H1|]. apply H2; [reflexivity | apply Nat.leb_le; reflexivity].
  - assert (Hreach : @loop_reaches libfuse_keys decimal_libc
                       (loop_entry b [] table (Some (@keep_all decimal_libc)) "prog")
                       (after table b 2%nat)).
    { apply (@reaches_next libfuse_keys decimal_libc _ 0 (after table b 1%nat));
        [ apply Nat.ltb_lt; reflexivity | vm_compute; reflexivity | discriminate
        | apply reaches_here ]. }
    destruct (@missing_argument_fails libfuse_keys decimal_libc b [] table
                (Some (@keep_all decimal_libc)) "prog" ["--x"; "-b"] (after table b 2%nat)
                eq_refl Hreach ltac:(apply Nat.ltb_lt; reflexivity) eq_refl)
      as (H0 & _ & _).
    destruct H0 as (c2 & Hone & Hparse).
    { intros p Hp. inversion Hp. intros d arg key o. reflexivity. }
    assert (E : Done (-1, c2) = Done (-1, after table b 2%nat))
      by (rewrite <- Hone; vm_compute; reflexivity).
    pose (g := fun o : outcome (Z * fuse_opt_context) =>
                 match o with Done p => snd p | _ => c2 end).
    rewrite Hparse, (f_equal g E : c2 = after table b 2%nat). reflexivity.
Defined.

(** C8, as stated, fails: the table holds [bar %d], the input ends in a
    lone [bar], which matches that template and holds no value; the parse
    succeeds, the token being positional. *)
Lemma lone_positional_is_not_looked_up :
  match_template "bar %d" "bar" = Some 3%nat
  /\ @fuse_opt_parse libfuse_keys decimal_libc
       (Some (mk_args (Some ["prog"; "bar"]) false)) [] [mk_opt (Some "bar %d") 0 0]
       (Some (@keep_all decimal_libc))
     = Done (mk_result 0 (Some (mk_args (Some ["prog"; "bar"]) true)) []
               [EvProc "bar" (-2) 1; EvKeep GOPT_FLAG "bar"]).
Proof. split; vm_compute; reflexivity. Qed.

Lemma group_value_decoding_witness :
  unescape "\101,b" = [Byte "A"; Comma; Byte "b"]
  /\ nat_of_ascii (octal3 "1" "0" "1") = 65%nat.
Proof.
  destruct (proj1 (proj2 (@group_value_decoding libfuse_keys decimal_libc))
                  "1"%char "0"%char "1"%char ",b" eq_refl) as [H1 H2].
  split; [exact H1 | exact H2].
Defined.

Lemma reserved_keys_bypass_callback_witness :
  let ctx := @mk_ctx decimal_libc [] (Some (@answer decimal_libc 0))
                     (mk_args (Some ["prog"; "-x"]) false) []
                     (mk_args (Some ["prog"]) true) 1 (Some "ro") 0 [] in
  (@process_opt libfuse_keys decimal_libc ctx (mk_opt (Some "-x") minus_1U (-3)) 0 "-x"
     GOPT_FLAG
   = @call_proc libfuse_keys decimal_libc ctx "-x" (-3) GOPT_FLAG
   /\ @process_opt libfuse_keys decimal_libc ctx (mk_opt (Some "-x") minus_1U (-4)) 0 "-x"
        GOPT_FLAG
      = Done (0, ctx))
  /\ @call_proc libfuse_keys decimal_libc ctx "-x" (-3) GOPT_FLAG
     = Done (0, mk_ctx [] (Some (@answer decimal_libc 0))
                       (mk_args (Some ["prog"; "-x"]) false) []
                       (mk_args (Some ["prog"; "-x"]) true) 1 (Some "ro") 0
                       [EvKeep GOPT_FLAG "-x"])
  /\ @call_proc libfuse_keys decimal_libc ctx "a,b\c" (-3) GOPT_OPTION
     = Done (0, mk_ctx [] (Some (@answer decimal_libc 0))
                       (mk_args (Some ["prog"; "-x"]) false) []
                       (mk_args (Some ["prog"]) true) 1 (Some "ro,a\,b\\c") 0
                       [EvKeep GOPT_OPTION "a,b\c"])
  /\ @call_proc libfuse_keys decimal_libc ctx "a,b\c" (-4) GOPT_OPTION = Done (0, ctx).
Proof.
  intros ctx.
  split; [|split; [|split]].
  - destruct (@reserved_keys_bypass_callback libfuse_keys decimal_libc ctx "-x")
      as (_ & _ & _ & Hd & Hk).
    split.
    + apply (Hk (mk_opt (Some "-x") minus_1U (-3)) 0%nat GOPT_FLAG); reflexivity.
    + apply (Hd (mk_opt (Some "-x") minus_1U (-4)) 0%nat GOPT_FLAG); reflexivity.
  - destruct (@reserved_keys_bypass_callback libfuse_keys decimal_libc ctx "-x")
      as (_ & Hflag & _).
    exact Hflag.
  - destruct (@reserved_keys_bypass_callback libfuse_keys decimal_libc ctx "a,b\c")
      as (_ & _ & Hopt & _).
    exact Hopt.
  - destruct (@reserved_keys_bypass_callback libfuse_keys decimal_libc ctx "a,b\c")
      as (Hdisc & _).
    exact (Hdisc GOPT_OPTION).
Defined.

Lemma keep_all_recoalesces_witness :
  exists r,
    @fuse_opt_parse libfuse_keys decimal_libc
      (Some (mk_args (Some ["prog"; "-o"; "a,b"; "--flag"; "file"; "-oc"; "--"]) false))
      [] [] (Some (@keep_all decimal_libc)) = Done r
    /\ res_code r = 0
    /\ res_args r
       = Some (mk_args (Some ["prog"; "-o"; "a,b,c"; "--flag"; "file"; "--"]) true).
Proof.
  apply (proj1 (@keep_all_recoalesces libfuse_keys decimal_libc)
               (mk_args (Some ["prog"; "-o"; "a,b"; "--flag"; "file"; "-oc"; "--"]) false)
               [] (Some (@keep_all decimal_libc)) "prog"
               ["-o"; "a,b"; "--flag"; "file"; "-oc"; "--"] eq_refl).
  intros p Hp. inversion Hp. split.
  - intros d arg key o. reflexivity.
  - intros d arg key o. simpl. lia.
Defined.

(** C6, as stated, fails: the table is empty and the callback keeps
    everything, but the input ends in a bare "-o" and the parse returns
    -1; and for the input [prog --] the output is [prog], one token
    short. *)
Lemma keep_all_parse_can_fail :
  (exists r,
     @fuse_opt_parse libfuse_keys decimal_libc
       (Some (mk_args (Some ["prog"; "-o"]) false)) [] [] (Some (@keep_all decimal_libc))
     = Done r
     /\ res_code r = -1)
  /\ (exists r,
        @fuse_opt_parse libfuse_keys decimal_libc
          (Some (mk_args (Some ["prog"; "--"]) false)) [] [] (Some (@keep_all decimal_libc))
        = Done r
        /\ res_code r = 0 /\ res_args r = Some (mk_args (Some ["prog"]) true)).
Proof.
  split; eexists; (split; [vm_compute; reflexivity|]); repeat split.
Qed.

Lemma reparse_is_identity_witness :
  let table := [mk_opt (Some "--foo") minus_1U (-3); mk_opt (Some "-n=%d") 16 0;
                mk_opt (Some "ro") minus_1U (-4)] in
  exists r2,
    @fuse_opt_parse libfuse_keys decimal_libc
      (Some (mk_args (Some ["prog"; "-o"; "a\,b,c"; "--foo"; "x"; "--"; "-y"]) true))
      [] table (Some (@keep_all decimal_libc)) = Done r2
    /\ res_code r2 = 0
    /\ res_args r2
       = Some (mk_args (Some ["prog"; "-o"; "a\,b,c"; "--foo"; "x"; "--"; "-y"]) true).
Proof.
  intros table.
  apply (@reparse_is_identity libfuse_keys decimal_libc table
           (Some (mk_args (Some ["prog"; "-oa\054b"; "--foo"; "-n=5"; "x"; "-o"; "ro,c";
                                 "--"; "-y"]) false))
           [] [] (Some (@answer decimal_libc 7)) (Some (@keep_all decimal_libc))
           (mk_result 0
              (Some (mk_args (Some ["prog"; "-o"; "a\,b,c"; "--foo"; "x"; "--"; "-y"]) true))
              [(16, @FScan decimal_libc 5)]
              [EvProc "a,b" (-1) 7; EvKeep GOPT_OPTION "a,b"; EvKeep GOPT_FLAG "--foo";
               EvStore 16 (@FScan decimal_libc 5); EvProc "x" (-2) 7; EvKeep GOPT_FLAG "x";
               EvProc "c" (-1) 7; EvKeep GOPT_OPTION "c"; EvSeparator;
               EvProc "-y" (-2) 7; EvKeep GOPT_FLAG "-y"])).
  - reflexivity.
  - apply one_keeping_entry. vm_compute. lia.
  - intros p Hp. inversion Hp. intros d arg key o. reflexivity.
  - intros p Hp. inversion Hp. split; intros d arg key o; [reflexivity | simpl; lia].
  - vm_compute. reflexivity.
  - reflexivity.
Defined.

(** C7, as stated, fails: two entries keep [--foo], so the first parse
    returns it twice, and the second parse of that output, with a callback
    that keeps everything, returns it four times. *)
Lemma reparse_doubles_a_token_kept_twice :
  let table := [mk_opt (Some "--foo") minus_1U (-3); mk_opt (Some "--foo") minus_1U (-3)] in
  let out1 := Some (mk_args (Some ["prog"; "--foo"; "--foo"]) true) in
  (exists r1,
     @fuse_opt_parse libfuse_keys decimal_libc
       (Some (mk_args (Some ["prog"; "--foo"]) false)) [] table
       (Some (@keep_all decimal_libc)) = Done r1
     /\ res_code r1 = 0 /\ res_args r1 = out1)
  /\ (exists r2,
        @fuse_opt_parse libfuse_keys decimal_libc out1 [] table
          (Some (@keep_all decimal_libc)) = Done r2
        /\ res_code r2 = 0
        /\ res_args r2
           = Some (mk_args (Some ["prog"; "--foo"; "--foo"; "--foo"; "--foo"]) true)
        /\ res_args r2 <> out1).
Proof.
  intros table out1. split; eexists; (split; [vm_compute; reflexivity|]);
    repeat split; discriminate.
Qed.

(** ** Worked examples of the further properties *)

Lemma insert_arg_places_witness :
  exists a',
    fuse_opt_insert_arg (mk_args (Some ["prog"; "x"]) true) 1 "-o" = Done (0, a')
    /\ allocated a' = true
    /\ argc a' = 3%nat
    /\ nth_error (args_list a') 1 = Some "-o"
    /\ (forall i, (i < 1)%nat -> nth_error (args_list a') i = nth_error ["prog"; "x"] i)
    /\ (forall i, (1 <= i)%nat -> nth_error (args_list a') (S i) = nth_error ["prog"; "x"] i).
Proof.
  apply (@insert_arg_places (mk_args (Some ["prog"; "x"]) true) 1 "-o").
  - right. reflexivity.
  - unfold argc, args_list. simpl. lia.
Defined.

Lemma add_opt_verbatim_witness :
  fuse_opt_add_opt (Some "ro") "allow_other" = Some "ro,allow_other"
  /\ fuse_opt_add_opt_escaped (Some "ro") "allow_other" = Some "ro,allow_other".
Proof.
  destruct (add_opt_verbatim (Some "ro") "allow_other") as [H1 H2].
  split; [exact H1 | apply H2; reflexivity].
Defined.

Lemma match_template_sound_witness :
  (2%nat = 0%nat /\ "-n=%d" = "-n=5")
  \/ ((2 < String.length "-n=%d")%nat
      /\ (CStr.char_at "-n=%d" 2 = "="%char \/ CStr.char_at "-n=%d" 2 = " "%char)
      /\ (CStr.at_end "-n=%d" (2 + 1) = true \/ CStr.char_at "-n=%d" (2 + 1) = "%"%char)
      /\ (2 <= String.length "-n=5")%nat
      /\ CStr.take 2 "-n=5" = CStr.take 2 "-n=%d"
      /\ (CStr.char_at "-n=%d" 2 = "="%char ->
          CStr.char_at "-n=5" 2 = "="%char /\ (2 < String.length "-n=5")%nat)).
Proof. apply (@match_template_sound "-n=%d" "-n=5" 2). reflexivity. Defined.

Lemma eq_template_matches_witness :
  match_template ("-n" ++ "=" ++ "%d") ("-n" ++ "=" ++ "5") = Some (String.length "-n").
Proof. apply (@eq_template_matches "-n" "%d" "5"); [reflexivity | right; reflexivity]. Defined.

Lemma space_template_matches_witness :
  match_template ("-b" ++ " " ++ "%s") ("-b" ++ "val") = Some (String.length "-b").
Proof.
  apply (@space_template_matches "-b" "%s" "val");
    [reflexivity | reflexivity | reflexivity | right; reflexivity].
Defined.

Lemma plain_template_is_exact_witness :
  (match_template "--foo" "--foobar" = Some 0%nat <-> "--foo" = "--foobar")
  /\ (match_template "--foo" "--foobar" = None <-> "--foo" <> "--foobar").
Proof. apply (@plain_template_is_exact "--foo" "--foobar"); reflexivity. Defined.

Lemma parse_returns_witness :
  exists r,
    @fuse_opt_parse libfuse_keys decimal_libc
      (Some (mk_args (Some ["prog"; "-b"]) false)) []
      [mk_opt (Some "-b %s") 8 0] (Some (@answer decimal_libc 5)) = Done r
    /\ (res_code r = 0 \/ res_code r = -1).
Proof.
  apply (@parse_returns libfuse_keys decimal_libc
           (Some (mk_args (Some ["prog"; "-b"]) false)) []
           [mk_opt (Some "-b %s") 8 0] (Some (@answer decimal_libc 5))).
  intros p Hp. inversion Hp. intros d arg key o. reflexivity.
Defined.

Lemma failure_leaves_args_witness :
  let r := @mk_result decimal_libc (-1) (Some (mk_args (Some ["prog"; "-o"]) false)) [] [] in
  (res_code r = 0 \/ res_code r = -1)
  /\ (res_code r = -1 -> res_args r = Some (mk_args (Some ["prog"; "-o"]) false)).
Proof.
  intros r.
  apply (@failure_leaves_args libfuse_keys decimal_libc
           (Some (mk_args (Some ["prog"; "-o"]) false)) [] [] None r).
  reflexivity.
Defined.

Lemma success_shape_witness :
  let log := [@EvSeparator decimal_libc; @EvKeep decimal_libc GOPT_FLAG "--"] in
  let r := @mk_result decimal_libc 0 (Some (mk_args (Some ["prog"; "--"; "--"]) true)) []
                      log in
  exists tl,
    res_args r = Some (mk_args (Some ("prog" :: tl)) true)
    /\ (kept_opts (res_log r) = [] ->
        tl = if separator_is_last (res_log r) then removelast (out_tokens (res_log r))
             else out_tokens (res_log r)).
Proof.
  intros log r.
  apply (@success_shape libfuse_keys decimal_libc
           (mk_args (Some ["prog"; "--"; "--"]) false) [] [] None r "prog" ["--"; "--"]).
  - intros p Hp. discriminate Hp.
  - reflexivity.
  - vm_compute. reflexivity.
  - reflexivity.
Defined.

Lemma fuse_opt_match_spec_witness :
  fuse_opt_match [mk_opt (Some "--foo") minus_1U 1; mk_opt None 0 0;
                   mk_opt (Some "--bar") minus_1U 2] "--bar" = Some 0.
Proof.
  apply (proj1 (fuse_opt_match_spec
                  [mk_opt (Some "--foo") minus_1U 1; mk_opt None 0 0;
                   mk_opt (Some "--bar") minus_1U 2] "--bar")).
  reflexivity.
Defined.

Lemma behind_separator_all_positional_witness :
  let a := mk_args (Some ["prog"; "--"; "-o"; "x"]) false in
  let c := @mk_ctx decimal_libc [] None a [] (mk_args (Some ["prog"; "--"]) true) 2 None 2
                   [EvSeparator] in
  let c' := @mk_ctx decimal_libc [] None a [] (mk_args (Some ["prog"; "--"; "-o"; "x"]) true)
                    4 None 2 [EvSeparator; EvKeep GOPT_FLAG "-o"; EvKeep GOPT_FLAG "x"] in
  exists new, log c' = log c ++ new
              /\ forallb (@positional_event libfuse_keys decimal_libc) new = true
              /\ tmp_nonopt c' = tmp_nonopt c /\ tmp_opts c' = tmp_opts c.
Proof.
  intros a c c'.
  apply (@behind_separator_all_positional libfuse_keys decimal_libc 2 c 0 c').
  - simpl. lia.
  - vm_compute. reflexivity.
Defined.

Lemma destination_entry_consumes_witness :
  let c := @loop_entry decimal_libc (mk_args (Some ["prog"; "-n=5"]) false) [] [] None "prog" in
  let o := mk_opt (Some "-n=%d") 16 0 in
  let c' := store_field c 16 (@FScan decimal_libc 5) in
  ((0 = 0 /\ exists v, c' = store_field c (offset o) v) \/ (0 = -1 /\ c' = c))
  /\ (2%nat = 0%nat \/ CStr.at_end (templ_str o) (2 + 1) = true ->
      0 = 0 /\ c' = store_field c (offset o) (FInt (value o))).
Proof.
  intros c o c'.
  apply (@destination_entry_consumes libfuse_keys decimal_libc c o 2 "-n=5" GOPT_FLAG 0 c').
  - discriminate.
  - vm_compute. reflexivity.
Defined.

Lemma space_value_glued_or_next_witness :
  let c := @loop_entry decimal_libc (mk_args (Some ["prog"; "-b"; "val"]) false) [] [] None
                       "prog" in
  let o := mk_opt (Some "-b %s") 8 0 in
  @gopt_body libfuse_keys decimal_libc c o 2 "-bval" GOPT_FLAG
  = Done (0, store_field c 8 (FStr "val"))
  /\ @gopt_body libfuse_keys decimal_libc c o 2 "-b" GOPT_FLAG
     = Done (0, store_field (set_argctr c 2) 8 (FStr "val")).
Proof.
  intros c o.
  destruct (@space_value_glued_or_next libfuse_keys decimal_libc c o "-b" "val" GOPT_FLAG)
    as [H1 H2]; [reflexivity | discriminate | discriminate |].
  split; [apply H1; discriminate | apply H2; reflexivity].
Defined.

Lemma attached_group_value_witness :
  @fuse_opt_parse libfuse_keys decimal_libc
    (Some (mk_args (Some ["prog"; "-o"; "ro"; "x"]) false)) [] [] None
  = match @fuse_opt_parse libfuse_keys decimal_libc
            (Some (mk_args (Some ["prog"; ("-o" ++ "ro")%string; "x"]) false)) [] [] None with
    | Done r1 =>
        Done (if res_code r1 =? 0 then r1
              else mk_result (res_code r1)
                             (Some (mk_args (Some ["prog"; "-o"; "ro"; "x"]) false))
                             (res_data r1) (res_log r1))
    | Abort => Abort
    | OutOfFuel => OutOfFuel
    end.
Proof.
  apply (@attached_group_value libfuse_keys decimal_libc "prog" "ro" ["x"] false false
           [] [] None).
  discriminate.
Defined.

Lemma only_separator_ends_options_witness :
  let a := mk_args (Some ["prog"; "--"]) false in
  let c := @mk_ctx decimal_libc [] None a [] (mk_args (Some ["prog"]) true) 1 None 0 [] in
  let c' := @mk_ctx decimal_libc [] None a [] (mk_args (Some ["prog"; "--"]) true) 1 None 2
                    [EvSeparator] in
  tmp_nonopt c' = tmp_nonopt c
  \/ (tmp_nonopt c = 0%nat
      /\ nth_error (args_list (in_args c)) (tmp_argctr c) = Some "--"
      /\ 0 = 0
      /\ args_list (out_args c') = args_list (out_args c) ++ ["--"]
      /\ tmp_nonopt c' = S (argc (out_args c))).
Proof.
  intros a c c'.
  apply (@only_separator_ends_options libfuse_keys decimal_libc c 0 c').
  vm_compute. reflexivity.
Defined.

Lemma record_is_stores_of_log_witness :
  let r := @mk_result decimal_libc 0 (Some (mk_args (Some ["prog"]) true))
                      [(16, @FScan decimal_libc 5)] [EvStore 16 (@FScan decimal_libc 5)] in
  res_data r = replay [] (res_log r).
Proof.
  intros r.
  apply (@record_is_stores_of_log libfuse_keys decimal_libc
           (Some (mk_args (Some ["prog"; "-n=5"]) false)) []
           [mk_opt (Some "-n=%d") 16 0] None r).
  - intros p Hp. discriminate Hp.
  - vm_compute. reflexivity.
Defined.
